(** * yakaa: the keep-alive HTTP agent ([http.js])

    A shallow embedding of the connection pool of [http.js] (the [Agent]
    object: its [free] and [tunnelError] listeners, [getName], [addRequest],
    [createSocket], [_createConnection], [_afterCreateSocket],
    [removeSocket] and [destroy]), and the properties of the pool proved
    over it.

    The three registry objects [sockets], [freeSockets] and [requests] are
    finite maps from destination names to arrays; an absent key and a key
    bound to an empty array are different states, as in the source.
    Sockets are heap objects named by a number; what the agent reads or
    writes on them ([destroyed], [_httpMessage], [_reapTimeout], the
    listeners it installs and the [options] they close over) is a record in
    the heap.  Calls that leave the agent (the connector, [req.onSocket],
    [req.emit('error')], the methods of a socket) are appended to a log, and
    an uncaught exception is logged as its last entry.

    The agent runs on an event loop: each call of the request layer and
    each event of a socket or of the tunnel client is one [event], handled
    to completion by [step].  What the agent assumes of its collaborators:
    a socket is a [net.Socket] (it has [ref] and [unref], the connector
    returns it not destroyed, it is destroyed when it emits ['close']), the
    tunnel client calls back later and once, and a request that is given a
    socket becomes the [_httpMessage] of that socket. *)

From Stdlib Require Import ZArith String Ascii List Bool Lia DecimalString.
From stdpp Require Import base option list gmap strings.

Local Open Scope string_scope.
Local Open Scope list_scope.

(** ** JavaScript values and option objects *)

Module Js.

(** The primitive values an option object of the agent can hold.  Numbers
    are the integers (ports, limits, milliseconds). *)
Inductive value : Type :=
  | VUndefined
  | VNull
  | VBool (b : bool)
  | VNum (n : Z)
  | VStr (s : string).

#[global] Instance value_eq_dec : EqDecision value.
Proof. solve_decision. Defined.

(** [ToBoolean]. *)
Definition truthy (v : value) : bool :=
  match v with
  | VUndefined | VNull => false
  | VBool b => b
  | VNum n => negb (n =? 0)%Z
  | VStr s => negb (String.eqb s "")
  end.

(** [ToString], as used by [name += v]. *)
Definition toString (v : value) : string :=
  match v with
  | VUndefined => "undefined"
  | VNull => "null"
  | VBool true => "true"
  | VBool false => "false"
  | VNum n => NilZero.string_of_int (Z.to_int n)
  | VStr s => s
  end.

(** An object used as a bag of options: own keys to values. *)
Abbreviation object := (gmap string value).

(** Property read: a missing key reads as [undefined]. *)
Definition get (o : object) (k : string) : value :=
  default VUndefined (o !! k).

(** [util._extend(origin, add)]: every own key of [add] is written onto
    [origin]. *)
Definition _extend (origin add : object) : object := add ∪ origin.

(** [a || b]. *)
Definition or_else (a b : value) : value := if truthy a then a else b.

End Js.

Import Js.

(** ** [Agent.prototype.getName] *)

Definition getName (options : object) : string :=
  let name := "" in
  let name :=
    if truthy (get options "host")
    then name +:+ toString (get options "host")
    else name +:+ "localhost" in
  let name := name +:+ ":" in
  let name :=
    if truthy (get options "port")
    then name +:+ toString (get options "port")
    else name in
  let name := name +:+ ":" in
  let name :=
    if truthy (get options "localAddress")
    then name +:+ toString (get options "localAddress")
    else name in
  let name := name +:+ ":" in
  name.

(** ** Requests, sockets and the agent *)

(** Heap address of a socket object. *)
Abbreviation sock := nat (only parsing).

(** What a connection attempt reports when it fails. *)
Abbreviation error := string (only parsing).

(** A [ClientRequest], as far as the agent looks at it. *)
Record request : Type := Request {
  req_id : nat;
  shouldKeepAlive : bool;
  (** [req.getHeader('host')], [None] when the header is not set *)
  hostHeader : option string;
}.

#[global] Instance request_eq_dec : EqDecision request.
Proof. solve_decision. Defined.

(** A socket: the fields the agent reads and writes, the listeners that
    [_afterCreateSocket] installs, and the [options] its closures capture. *)
Record socket : Type := Socket {
  destroyed : bool;
  _httpMessage : option request;
  (** [_reapTimeout] is set *)
  _reapTimeout : bool;
  (** [_reapTimeout] is registered for the next ['timeout'] *)
  reap_armed : bool;
  (** the ['timeout'] listeners that requests have left on the socket *)
  timeout_listeners : nat;
  closure_options : object;
  has_onFree : bool;
  has_onTunnelError : bool;
  has_onClose : bool;
  has_onRemove : bool;
}.

(** A bound that may be [Infinity]. *)
Inductive limit : Type :=
  | Finite (n : Z)
  | Infinity.

Definition lt_limit (n : nat) (l : limit) : bool :=
  match l with Finite z => (Z.of_nat n <? z)%Z | Infinity => true end.

Definition gt_limit (n : nat) (l : limit) : bool :=
  match l with Finite z => (z <? Z.of_nat n)%Z | Infinity => false end.

Definition ge_limit (n : nat) (l : limit) : bool :=
  match l with Finite z => (z <=? Z.of_nat n)%Z | Infinity => false end.

(** [options.proxy], the one option that is itself an object. *)
Record proxy_options : Type := ProxyOptions {
  proxy_protocol : value;
  proxy_hostname : value;
  proxy_host : value;
  proxy_port : value;
}.

(** The [TunnelClient] made by the constructor (its port argument is kept
    as given; the client converts it). *)
Record TunnelClient : Type := mkTunnelClient {
  tc_proxy_host : value;
  tc_proxy_port : value;
}.

(** The fields of an [Agent] that are set once. *)
Record Agent : Type := mkAgent {
  defaultPort : Z;
  protocol : string;
  self_options : object;
  tunnelClient : option TunnelClient;
  keepAliveMsecs : value;
  keepAlive : value;
  maxSockets : limit;
  maxFreeSockets : limit;
  keepAliveTimeoutMsecs : value;
}.

(** The two [function(err, socket)] callbacks handed to [createSocket]. *)
Inductive callback : Type :=
  | AddRequestCb (req : request)
  | RemoveSocketCb.

(** A tunnel connection in flight: the arguments [_createConnection] was
    called with in [createSocket]. *)
Record connecting : Type := Connecting {
  conn_name : string;
  conn_options : object;
  conn_callback : callback;
}.

(** Calls that leave the agent, in the order they are made;
    [EmitConnectLater] is the [setImmediate] of [addRequest], [TypeError] an
    exception thrown out of a listener. *)
Inductive obs : Type :=
  | OnSocket (req : request) (s : sock)
  | EmitError (req : request) (err : error)
  | Destroy (s : sock)
  | CreateConnection (o : object) (s : sock)
  | TunnelConnect (host port : value)
  | SetKeepAlive (s : sock) (msecs : value)
  | Unref (s : sock)
  | Ref (s : sock)
  | SetTimeout (s : sock) (msecs : value)
  | RemoveAllListeners (s : sock) (ev : string)
  | EmitConnectLater (s : sock)
  | TypeError (msg : string).

#[global] Instance obs_eq_dec : EqDecision obs.
Proof. solve_decision. Defined.

(** The agent with its registry, the socket heap, the tunnel connections
    in flight and the log. *)
Record state : Type := State {
  agent : Agent;
  requests : gmap string (list request);
  sockets : gmap string (list sock);
  freeSockets : gmap string (list sock);
  heap : gmap nat socket;
  next_sock : nat;
  in_flight : list connecting;
  log : list obs;
  exhausted : bool;
}.

Definition with_requests (f : gmap string (list request) → gmap string (list request))
    (st : state) : state :=
  State (agent st) (f (requests st)) (sockets st) (freeSockets st) (heap st)
        (next_sock st) (in_flight st) (log st) (exhausted st).

Definition with_sockets (f : gmap string (list sock) → gmap string (list sock))
    (st : state) : state :=
  State (agent st) (requests st) (f (sockets st)) (freeSockets st) (heap st)
        (next_sock st) (in_flight st) (log st) (exhausted st).

Definition with_freeSockets (f : gmap string (list sock) → gmap string (list sock))
    (st : state) : state :=
  State (agent st) (requests st) (sockets st) (f (freeSockets st)) (heap st)
        (next_sock st) (in_flight st) (log st) (exhausted st).

Definition with_heap (f : gmap nat socket → gmap nat socket) (st : state) : state :=
  State (agent st) (requests st) (sockets st) (freeSockets st) (f (heap st))
        (next_sock st) (in_flight st) (log st) (exhausted st).

Definition with_in_flight (f : list connecting → list connecting) (st : state) : state :=
  State (agent st) (requests st) (sockets st) (freeSockets st) (heap st)
        (next_sock st) (f (in_flight st)) (log st) (exhausted st).

Definition emit (o : obs) (st : state) : state :=
  State (agent st) (requests st) (sockets st) (freeSockets st) (heap st)
        (next_sock st) (in_flight st) (log st ++ [o]) (exhausted st).

Definition out_of_fuel (st : state) : state :=
  State (agent st) (requests st) (sockets st) (freeSockets st) (heap st)
        (next_sock st) (in_flight st) (log st) true.

(** *** Socket fields *)

Definition fresh_socket : socket :=
  Socket false None false false 0 ∅ false false false false.

Definition set_destroyed (b : bool) (k : socket) : socket :=
  Socket b (_httpMessage k) (_reapTimeout k) (reap_armed k)
         (timeout_listeners k) (closure_options k) (has_onFree k)
         (has_onTunnelError k) (has_onClose k) (has_onRemove k).

Definition set_httpMessage (m : option request) (k : socket) : socket :=
  Socket (destroyed k) m (_reapTimeout k) (reap_armed k)
         (timeout_listeners k) (closure_options k) (has_onFree k)
         (has_onTunnelError k) (has_onClose k) (has_onRemove k).

(** [s._reapTimeout = function ...; s.setTimeout(msecs, s._reapTimeout)]:
    [setTimeout] registers its callback for one ['timeout']. *)
Definition set_reapTimeout (k : socket) : socket :=
  Socket (destroyed k) (_httpMessage k) true true
         (timeout_listeners k) (closure_options k) (has_onFree k)
         (has_onTunnelError k) (has_onClose k) (has_onRemove k).

(** The listener registered by [setTimeout] has run. *)
Definition disarm_reap (k : socket) : socket :=
  Socket (destroyed k) (_httpMessage k) (_reapTimeout k) false
         (timeout_listeners k) (closure_options k) (has_onFree k)
         (has_onTunnelError k) (has_onClose k) (has_onRemove k).

(** [socket.removeAllListeners('timeout')] followed by
    [socket.setTimeout(msecs, socket._reapTimeout)]. *)
Definition reset_timeout_listeners (k : socket) : socket :=
  Socket (destroyed k) (_httpMessage k) (_reapTimeout k) (_reapTimeout k)
         0 (closure_options k) (has_onFree k)
         (has_onTunnelError k) (has_onClose k) (has_onRemove k).

(** Requests add and remove ['timeout'] listeners of their own. *)
Definition set_timeout_listeners (n : nat) (k : socket) : socket :=
  Socket (destroyed k) (_httpMessage k) (_reapTimeout k) (reap_armed k)
         n (closure_options k) (has_onFree k)
         (has_onTunnelError k) (has_onClose k) (has_onRemove k).

(** [s.on('free', onFree)], [s.on('tunnelError', onTunnelError)],
    [s.on('close', onClose)], [s.on('agentRemove', onRemove)]; the four
    closures capture [options]. *)
Definition install_listeners (o : object) (k : socket) : socket :=
  Socket (destroyed k) (_httpMessage k) (_reapTimeout k) (reap_armed k)
         (timeout_listeners k) o true true true true.

(** The three [s.removeListener] calls of [onRemove]. *)
Definition remove_listeners (k : socket) : socket :=
  Socket (destroyed k) (_httpMessage k) (_reapTimeout k) (reap_armed k)
         (timeout_listeners k) (closure_options k)
         false (has_onTunnelError k) false false.

Definition update_socket (s : sock) (f : socket → socket) (st : state) : state :=
  with_heap (alter f s) st.

Definition is_destroyed (st : state) (s : sock) : bool :=
  match heap st !! s with Some k => destroyed k | None => false end.

(** [Array.isArray(socket._events.timeout)]: the emitter keeps an array
    once an event has two listeners or more. *)
Definition timeout_is_array (st : state) (s : sock) : bool :=
  match heap st !! s with
  | Some k =>
      Nat.leb 2 ((if reap_armed k then 1 else 0) + timeout_listeners k)
  | None => false
  end.

(** [socket.destroy()]. *)
Definition socket_destroy (s : sock) (st : state) : state :=
  emit (Destroy s) (update_socket s (set_destroyed true) st).

(** Modelled from the spec: [req.onSocket(socket)] belongs to the request
    layer, which is not part of [http.js].  The request is the consumer
    the connection is assigned to: it takes the socket, and the socket
    carries it as [_httpMessage] until the agent clears that field on
    pooling (the listener for ['free'] reads the keep-alive wish of the
    just-finished consumer from there). *)
Definition onSocket (req : request) (s : sock) (st : state) : state :=
  emit (OnSocket req s) (update_socket s (set_httpMessage (Some req)) st).

(** *** Registry arrays *)

(** [a ? a.length : 0] for an entry that may be absent. *)
Definition len {A} (o : option (list A)) : nat :=
  match o with Some l => length l | None => 0 end.

(** The array under a name, empty when the name has no entry. *)
Definition arr {A} (m : gmap string (list A)) (name : string) : list A :=
  default [] (m !! name).

(** [a.indexOf(s)] followed by [a.splice(index, 1)] when [s] was found. *)
Fixpoint splice_first (s : sock) (a : list sock) : list sock :=
  match a with
  | [] => []
  | x :: a' => if decide (x = s) then a' else x :: splice_first s a'
  end.

(** The body of the [sets.forEach] of [removeSocket] for one registry
    object. *)
Definition remove_from (s : sock) (name : string)
    (set : gmap string (list sock)) : gmap string (list sock) :=
  match set !! name with
  | Some a =>
      if decide (s ∈ a) then
        let a' := splice_first s a in
        (* Don't leak *)
        if decide (length a' = 0) then delete name set else <[name := a']> set
      else set
  | None => set
  end.

(** [hostHeader.replace(/:.*$/, '')]: everything from the leftmost colon
    that has no line terminator after it is dropped. *)
Definition is_line_terminator (c : ascii) : bool :=
  (Ascii.eqb c "010" || Ascii.eqb c "013")%char.

Fixpoint has_line_terminator (s : string) : bool :=
  match s with
  | EmptyString => false
  | String c r => is_line_terminator c || has_line_terminator r
  end.

Fixpoint strip_port (s : string) : string :=
  match s with
  | EmptyString => EmptyString
  | String c r =>
      if (Ascii.eqb c ":" && negb (has_line_terminator r))%char
      then EmptyString
      else String c (strip_port r)
  end.

(** The [sets.forEach] of [removeSocket]: [sets] is [this.sockets] and,
    if the socket was destroyed, [this.freeSockets] too. *)
Definition remove_from_sets (s : sock) (name : string) (st : state) : state :=
  let st := with_sockets (remove_from s name) st in
  if is_destroyed st s then with_freeSockets (remove_from s name) st else st.

(** ** The agent's code *)

(** The options [createSocket] connects with: the caller's options
    overlaid with the agent's, and [servername] set from the host or from
    the host header of the request ([req] is never null here). *)
Definition socket_options (a : Agent) (req : request) (options : object) : object :=
  let options := _extend ∅ options in
  let options := _extend options (self_options a) in
  let options := <["servername" := get options "host"]> options in
  let options :=
    match hostHeader req with
    | Some hostHeader =>
        if truthy (VStr hostHeader)
        then <["servername" := VStr (strip_port hostHeader)]> options
        else options
    | None => options
    end in
  options.

Section handlers.

(** [socket.emit('free')] as called from the callback of [removeSocket];
    the knot is tied by [socket_emit_free] below. *)
Variable emit_free : sock → state → state.

(** The callbacks of [addRequest] and [removeSocket], called with
    [(err)] or with [(null, socket)]. *)
Definition call (cb : callback) (res : error + sock) (st : state) : state :=
  match cb, res with
  | AddRequestCb req, inl err => emit (EmitError req err) st
  | AddRequestCb req, inr socket =>
      let st := emit (RemoveAllListeners socket "connect") st in
      let st := onSocket req socket st in
      emit (EmitConnectLater socket) st
  | RemoveSocketCb, inl err =>
      (* [socket] is undefined here *)
      emit (TypeError "Cannot call method 'emit' of undefined") st
  | RemoveSocketCb, inr socket => emit_free socket st
  end.

Definition _afterCreateSocket (name : string) (options : object) (s : sock)
    (cb : callback) (st : state) : state :=
  let st :=
    match sockets st !! name with
    | None => with_sockets <[name := []]> st
    | Some _ => st
    end in
  let st := with_sockets <[name := arr (sockets st) name ++ [s]]> st in
  let st :=
    if truthy (get options "keepAliveTimeoutMsecs") then
      let st := update_socket s set_reapTimeout st in
      emit (SetTimeout s (get options "keepAliveTimeoutMsecs")) st
    else st in
  let st := update_socket s (install_listeners options) st in
  call cb (inr s) st.

(** The continuation [createSocket] passes to [_createConnection]. *)
Definition connected (name : string) (options : object) (cb : callback)
    (res : error + sock) (st : state) : state :=
  match res with
  | inl err => call cb (inl err) st
  | inr socket => _afterCreateSocket name options socket cb st
  end.

(** A new socket object enters the heap: not destroyed, carrying no
    request, with no listener of the agent. *)
Definition new_socket (st : state) : sock * state :=
  let s := next_sock st in
  (s, State (agent st) (requests st) (sockets st) (freeSockets st)
            (<[s := fresh_socket]> (heap st)) (S s) (in_flight st)
            (log st) (exhausted st)).

(** [_createConnection]: through the tunnel client the callback runs
    later, when the connection attempt reports; [createConnection]
    returns a socket at once. *)
Definition _createConnection (name : string) (options : object) (cb : callback)
    (st : state) : state :=
  match tunnelClient (agent st) with
  | Some _ =>
      let st := emit (TunnelConnect (get options "host") (get options "port")) st in
      with_in_flight (fun l => l ++ [Connecting name options cb]) st
  | None =>
      let '(s, st) := new_socket st in
      let st := emit (CreateConnection options s) st in
      connected name options cb (inr s) st
  end.

Definition createSocket (req : request) (options : object) (cb : callback)
    (st : state) : state :=
  let options := socket_options (agent st) req options in
  let name := getName options in
  let options := <["encoding" := VNull]> options in
  _createConnection name options cb st.

Definition removeSocket (s : sock) (options : object) (st : state) : state :=
  let name := getName options in
  let st := remove_from_sets s name st in
  match requests st !! name with
  | Some (req :: _) =>
      (* If we have pending requests and a socket gets closed make a new one *)
      createSocket req options RemoveSocketCb st
  | _ => st
  end.

(** The agent's listener for ['tunnelError']. *)
Definition on_tunnelError (err : error) (options : object) (st : state) : state :=
  let name := getName options in
  match requests st !! name with
  | None => emit (TypeError "Cannot read property 'length' of undefined") st
  | Some [] => st
  | Some (req :: rest) =>
      let st := with_requests <[name := rest]> st in
      let st := emit (EmitError req err) st in
      if decide (length rest = 0) then with_requests (delete name) st else st
  end.

(** The [else] branch of the ['free'] listener. *)
Definition pool_or_destroy (socket : sock) (options : object) (st : state)
    : state :=
  let name := getName options in
  (* If there are no pending requests, then put it in
     the freeSockets pool, but only if we're allowed to do so. *)
  let req := heap st !! socket ≫= _httpMessage in
  if match req with Some req => shouldKeepAlive req | None => false end
     && negb (is_destroyed st socket)
     && truthy (get (self_options (agent st)) "keepAlive")
  then
    let freeSockets_ := freeSockets st !! name in
    let freeLen := len freeSockets_ in
    let count := freeLen + len (sockets st !! name) in
    if gt_limit count (maxSockets (agent st))
       || ge_limit freeLen (maxFreeSockets (agent st))
    then
      let st := removeSocket socket options st in
      socket_destroy socket st
    else
      let st := with_freeSockets <[name := default [] freeSockets_]> st in
      let st := emit (SetKeepAlive socket (keepAliveMsecs (agent st))) st in
      let st := emit (Unref socket) st in
      let st := update_socket socket (set_httpMessage None) st in
      let st := removeSocket socket options st in
      (* [freeSockets.push(socket)]: the array is the one stored under
         [name]; see [removeSocket_freeSockets] *)
      let st := with_freeSockets <[name := arr (freeSockets st) name ++ [socket]]> st in
      if truthy (keepAliveTimeoutMsecs (agent st))
         && timeout_is_array st socket
      then
        let st := emit (RemoveAllListeners socket "timeout") st in
        let st := update_socket socket reset_timeout_listeners st in
        emit (SetTimeout socket (keepAliveTimeoutMsecs (agent st))) st
      else st
  else
    let st := removeSocket socket options st in
    socket_destroy socket st.

(** The agent's listener for ['free']. *)
Definition on_free (socket : sock) (options : object) (st : state) : state :=
  let name := getName options in
  match is_destroyed st socket, requests st !! name with
  | false, Some (req :: rest) =>
      let st := with_requests <[name := rest]> st in
      let st := onSocket req socket st in
      (* don't leak *)
      if decide (length rest = 0) then with_requests (delete name) st else st
  | _, _ => pool_or_destroy socket options st
  end.

End handlers.

(** [socket.emit('free')]: runs [onFree], which re-emits on the agent,
    when the listener is installed.  The callback of [removeSocket] emits
    ['free'] on the socket it has just been given, from inside a ['free']
    listener; [fuel] bounds that nesting, and [emit_free_enough] shows
    that depth two is never exceeded. *)
Fixpoint socket_emit_free (fuel : nat) (s : sock) (st : state) : state :=
  match fuel with
  | 0 => out_of_fuel st
  | S fuel =>
      match heap st !! s with
      | Some k =>
          if has_onFree k
          then on_free (socket_emit_free fuel) s (closure_options k) st
          else st
      | None => st
      end
  end.

#[global] Arguments socket_emit_free : simpl never.
#[global] Arguments on_free : simpl never.
#[global] Arguments pool_or_destroy : simpl never.
#[global] Arguments removeSocket : simpl never.
#[global] Arguments createSocket : simpl never.
#[global] Arguments _createConnection : simpl never.
#[global] Arguments _afterCreateSocket : simpl never.

Definition depth : nat := 2.

(** [s.emit('free')] from outside the agent. *)
Definition onFree (s : sock) (st : state) : state :=
  socket_emit_free (S depth) s st.

(** [s.emit('tunnelError', err)]. *)
Definition onTunnelError (s : sock) (err : error) (st : state) : state :=
  match heap st !! s with
  | Some k =>
      if has_onTunnelError k then on_tunnelError err (closure_options k) st else st
  | None => st
  end.

(** The socket emits ['close']; a socket does so as the last step of its
    destruction, so [destroyed] is set when the listener runs. *)
Definition onClose (s : sock) (st : state) : state :=
  let st := update_socket s (set_destroyed true) st in
  match heap st !! s with
  | Some k =>
      if has_onClose k
      then removeSocket (socket_emit_free depth) s (closure_options k) st
      else st
  | None => st
  end.

(** [s.emit('agentRemove')]. *)
Definition onRemove (s : sock) (st : state) : state :=
  match heap st !! s with
  | Some k =>
      if has_onRemove k then
        let st := removeSocket (socket_emit_free depth) s (closure_options k) st in
        update_socket s remove_listeners st
      else st
  | None => st
  end.

(** The socket emits ['timeout']: [_reapTimeout] runs if it is registered,
    and is no longer registered afterwards. *)
Definition reapTimeout (s : sock) (st : state) : state :=
  match heap st !! s with
  | Some k =>
      if reap_armed k then
        let st := update_socket s disarm_reap st in
        let st := socket_destroy s st in
        removeSocket (socket_emit_free depth) s (closure_options k) st
      else st
  | None => st
  end.

(** The second argument of [addRequest]: an options object, or the
    legacy [(host, port, path)]. *)
Inductive destination : Type :=
  | Options (options : object)
  | Legacy (host : string) (port path : value).

Definition destination_options (d : destination) : object :=
  match d with
  | Options options => options
  | Legacy host port path =>
      {[ "host" := VStr host; "port" := port; "path" := path ]}
  end.

Definition addRequest (req : request) (d : destination) (st : state) : state :=
  let options := destination_options d in
  let name := getName options in
  let st :=
    match sockets st !! name with
    | None => with_sockets <[name := []]> st
    | Some _ => st
    end in
  let freeLen := len (freeSockets st !! name) in
  let sockLen := freeLen + length (arr (sockets st) name) in
  match freeSockets st !! name with
  | Some (socket :: rest) =>
      (* we have a free socket, so use that. *)
      let st := with_freeSockets <[name := rest]> st in
      (* don't leak *)
      let st :=
        if decide (length rest = 0) then with_freeSockets (delete name) st else st in
      let st := emit (Ref socket) st in
      let st := onSocket req socket st in
      with_sockets <[name := arr (sockets st) name ++ [socket]]> st
  | _ =>
      if lt_limit sockLen (maxSockets (agent st)) then
        (* If we are under maxSockets create a new one. *)
        createSocket (socket_emit_free depth) req options (AddRequestCb req) st
      else
        (* We are over limit so we'll add it to the queue. *)
        let st :=
          match requests st !! name with
          | None => with_requests <[name := []]> st
          | Some _ => st
          end in
        with_requests <[name := arr (requests st) name ++ [req]]> st
  end.

(** [destroy]: every socket of every array of [freeSockets], then of
    [sockets] (names in the order the map enumerates them). *)
Definition destroy_each (a : list sock) (st : state) : state :=
  foldl (fun st socket => socket_destroy socket st) st a.

Definition destroy_set (set : gmap string (list sock)) (st : state) : state :=
  foldl (fun st '(name, a) => destroy_each a st) st (map_to_list set).

Definition destroy (st : state) : state :=
  destroy_set (sockets st) (destroy_set (freeSockets st) st).

(** A tunnel connection attempt reports: the [i]-th in flight, with an
    error or with a socket. *)
Definition tunnel_result (i : nat) (res : option error) (st : state) : state :=
  match in_flight st !! i with
  | Some c =>
      let st := with_in_flight (fun l => take i l ++ drop (S i) l) st in
      match res with
      | Some err =>
          connected (socket_emit_free depth) (conn_name c) (conn_options c)
                    (conn_callback c) (inl err) st
      | None =>
          let '(s, st) := new_socket st in
          connected (socket_emit_free depth) (conn_name c) (conn_options c)
                    (conn_callback c) (inr s) st
      end
  | None => st
  end.

(** ** The constructor *)

Definition as_limit (v : value) (dflt : limit) : option limit :=
  if truthy v then
    match v with VNum n => Some (Finite n) | _ => None end
  else Some dflt.

Definition defaultMaxSockets : limit := Infinity.

Inductive constructed : Type :=
  | Built (st : state)
  | Throws (msg : string)
  (** a limit that is not a number *)
  | NotModelled.

(** The one-character string of a double quote. *)
Definition double_quote : string := String (ascii_of_nat 34) EmptyString.

Definition new_Agent (options : object) (proxy : option proxy_options) : constructed :=
  let this_options := _extend ∅ options in
  (* don't confuse net and make it think that we're connecting to a pipe *)
  let this_options := <["path" := VNull]> this_options in
  let build (tunnelClient : option TunnelClient) :=
    match as_limit (get this_options "maxSockets") defaultMaxSockets,
          as_limit (get this_options "maxFreeSockets") (Finite 256) with
    | Some maxSockets, Some maxFreeSockets =>
        Built (State (mkAgent 80 "http:" this_options tunnelClient
                         (or_else (get this_options "keepAliveMsecs") (VNum 1000))
                         (or_else (get this_options "keepAlive") (VBool false))
                         maxSockets maxFreeSockets VUndefined)
                     ∅ ∅ ∅ ∅ 0 [] [] false)
    | _, _ => NotModelled
    end in
  match proxy with
  | Some p =>
      if decide (proxy_protocol p = VStr "http:") then
        build (Some (mkTunnelClient (or_else (proxy_hostname p) (proxy_host p))
                                    (proxy_port p)))
      else
        Throws ("invalid proxy protocol: " +:+ double_quote
                +:+ toString (proxy_protocol p) +:+ double_quote)
  | None => build None
  end.

(** ** Events *)

(** What happens to an agent: the calls of the request layer, the events
    of its sockets and of the tunnel client. *)
Inductive event : Type :=
  | AddRequest (req : request) (d : destination)
  | SocketFree (s : sock)
  | SocketClose (s : sock)
  | SocketAgentRemove (s : sock)
  | SocketTunnelError (s : sock) (err : error)
  | SocketTimeout (s : sock)
  | SocketTimeoutListeners (s : sock) (n : nat)
  | SocketDestroyed (s : sock)
  | TunnelResult (i : nat) (res : option error)
  | AgentDestroy.

Definition step (e : event) (st : state) : state :=
  match e with
  | AddRequest req d => addRequest req d st
  | SocketFree s => onFree s st
  | SocketClose s => onClose s st
  | SocketAgentRemove s => onRemove s st
  | SocketTunnelError s err => onTunnelError s err st
  | SocketTimeout s => reapTimeout s st
  | SocketTimeoutListeners s n => update_socket s (set_timeout_listeners n) st
  | SocketDestroyed s => update_socket s (set_destroyed true) st
  | TunnelResult i res => tunnel_result i res st
  | AgentDestroy => destroy st
  end.

Definition run (es : list event) (st : state) : state :=
  foldl (fun st e => step e st) st es.

(** The states an agent can be in. *)
Inductive reachable : state → Prop :=
  | reachable_new options proxy st :
      new_Agent options proxy = Built st → reachable st
  | reachable_step e st :
      reachable st → reachable (step e st).

(** ** What the properties speak of *)

(** An option as it appears in the key: the value as a string, or the
    replacement when the key is missing or its value is falsy (the test
    the code applies to decide that an option is absent). *)
Definition rendered (o : object) (k dflt : string) : string :=
  match o !! k with
  | Some v => if truthy v then toString v else dflt
  | None => dflt
  end.

(** What a call asks of the connector: the sockets made by
    [createConnection] and the connects started on the tunnel client. *)
Definition is_connector_call (o : obs) : bool :=
  match o with
  | CreateConnection _ _ | TunnelConnect _ _ => true
  | _ => false
  end.

Definition connector_calls (l : list obs) : list obs :=
  List.filter is_connector_call l.

(** The hand-offs in a log: which request was given which socket. *)
Definition handed (l : list obs) : list (nat * sock) :=
  omap (fun o => match o with
                 | OnSocket req s => Some (req_id req, s)
                 | _ => None
                 end) l.

(** The sockets [destroy()] was called on. *)
Definition closed (l : list obs) : list sock :=
  omap (fun o => match o with Destroy s => Some s | _ => None end) l.

(** The requests that were failed. *)
Definition failed (l : list obs) : list (nat * error) :=
  omap (fun o => match o with
                 | EmitError req err => Some (req_id req, err)
                 | _ => None
                 end) l.


(** What [destroy] keeps and what it only adds to. *)
Record destroys_only (st st' : state) : Prop := {
  do_requests : requests st' = requests st;
  do_sockets : sockets st' = sockets st;
  do_freeSockets : freeSockets st' = freeSockets st;
  do_log : ∀ o, o ∈ log st → o ∈ log st';
  do_heap : ∀ s, is_Some (heap st !! s) → is_Some (heap st' !! s);
  do_destroyed : ∀ s, is_destroyed st s = true → is_destroyed st' s = true;
}.

(** Busy and free sockets of a name are all different; requests wait only
    under names with no free socket; a pooled socket carries no request
    and sits under the name of the options it was created with; every
    socket of the registry was handed out by the heap. *)
Record wf (st : state) : Prop := {
  wf_nodup : ∀ name,
    NoDup (arr (sockets st) name ++ arr (freeSockets st) name);
  wf_queue : ∀ name,
    arr (freeSockets st) name ≠ [] → arr (requests st) name = [];
  wf_free : ∀ name s,
    s ∈ arr (freeSockets st) name →
    ∃ k, heap st !! s = Some k ∧ _httpMessage k = None
         ∧ getName (closure_options k) = name;
  wf_next : ∀ name s,
    s ∈ arr (sockets st) name ++ arr (freeSockets st) name → s < next_sock st;
  wf_heap : ∀ s, is_Some (heap st !! s) → s < next_sock st;
}.

(** The invariant looks at the registry through [arr] only. *)
Record same_view (st st' : state) : Prop := {
  sv_sockets : ∀ n, arr (sockets st') n = arr (sockets st) n;
  sv_freeSockets : ∀ n, arr (freeSockets st') n = arr (freeSockets st) n;
  sv_requests : ∀ n, arr (requests st') n = arr (requests st) n;
  sv_heap : heap st' = heap st;
  sv_next : next_sock st' = next_sock st;
}.

(** Field updates of a socket that keep what the invariant reads. *)
Definition benign (f : socket → socket) : Prop :=
  ∀ k, closure_options (f k) = closure_options k
       ∧ (_httpMessage k = None → _httpMessage (f k) = None).

(** A socket as the connector hands it over. *)
Definition unused (st : state) (s : sock) : Prop :=
  ∃ k, heap st !! s = Some k ∧ destroyed k = false ∧ _httpMessage k = None.

(** ** Scenarios *)

Module Scenario.

Definition R (i : nat) : request := Request i true None.
Definition example_org : destination :=
  Options {[ "host" := VStr "example.org"; "port" := VNum 80 ]}.

Definition agent_of (c : constructed) : state :=
  match c with
  | Built st => st
  | _ => State (mkAgent 80 "http:" ∅ None VUndefined VUndefined Infinity Infinity VUndefined)
               ∅ ∅ ∅ ∅ 0 [] [] false
  end.

(** [new Agent({maxSockets: 1, keepAlive: true})]. *)
Definition one_socket : state :=
  agent_of (new_Agent {[ "maxSockets" := VNum 1; "keepAlive" := VBool true ]} None).

End Scenario.

Module Scenario5.
Import Scenario.

(** [new Agent({maxFreeSockets: 1, keepAlive: true})], two requests on
    two sockets, the first socket released and pooled. *)
Definition one_free : state :=
  run [AddRequest (R 1) example_org; AddRequest (R 2) example_org; SocketFree 0]
      (agent_of (new_Agent {[ "maxFreeSockets" := VNum 1;
                              "keepAlive" := VBool true ]} None)).

End Scenario5.

Module Tunnel.
Import Scenario.

(** [new Agent({maxSockets: 1, proxy: {protocol: 'http:', host: 'proxy',
    port: 3128}})]. *)
Definition tunnelled : state :=
  agent_of (new_Agent {[ "maxSockets" := VNum 1 ]}
              (Some (ProxyOptions (VStr "http:") VUndefined (VStr "proxy")
                                  (VNum 3128)))).

(** R1 holds the only socket, R2 waits, the socket closes: the agent
    has started a replacement connection through the tunnel. *)
Definition replacing : state :=
  run [AddRequest (R 1) example_org; TunnelResult 0 None;
       AddRequest (R 2) example_org; SocketClose 0]
      tunnelled.
End Tunnel.

Module Reaping.
Import Scenario.

(** [new Agent({maxSockets: 1, keepAliveTimeoutMsecs: 1000})]: R1 holds
    the only socket, R2 and R3 wait; the idle timer of the socket fires
    and the socket then emits ['close']. *)
Definition options : object :=
  {[ "maxSockets" := VNum 1; "keepAliveTimeoutMsecs" := VNum 1000 ]}.

Definition reaped : state :=
  run [AddRequest (R 1) example_org; AddRequest (R 2) example_org;
       AddRequest (R 3) example_org; SocketTimeout 0; SocketClose 0]
      (agent_of (new_Agent options None)).
End Reaping.

(** ** What the further properties speak of *)

(** A string without a colon. *)
Fixpoint no_colon (s : string) : bool :=
  match s with
  | EmptyString => true
  | String c r => negb (Ascii.eqb c ":") && no_colon r
  end.

(** A socket whose release the agent listens to: it is in the heap, not
    destroyed, [onFree] is installed and its options name [name]. *)
Definition servable (st : state) (name : string) (s : sock) : Prop :=
  ∃ k, heap st !! s = Some k ∧ has_onFree k = true ∧ destroyed k = false
       ∧ getName (closure_options k) = name.

(** What a handler may change when all it works on is the socket [s]:
    the heap at [s], and whether [s] is in a busy array. *)
Record touches_only (s : sock) (st st' : state) : Prop := {
  to_heap : ∀ x, x ≠ s → heap st' !! x = heap st !! x;
  to_freeSockets : freeSockets st' = freeSockets st;
  to_sockets : ∀ n x, x ≠ s →
    (x ∈ arr (sockets st') n ↔ x ∈ arr (sockets st) n);
}.

(** The agent was made without [keepAlive] and has no free array. *)
Definition never_pools (st : state) : Prop :=
  truthy (get (self_options (agent st)) "keepAlive") = false
  ∧ freeSockets st = ∅.

(** * Properties *)

Lemma socket_emit_free_S fuel s st :
  socket_emit_free (S fuel) s st
  = match heap st !! s with
    | Some k =>
        if has_onFree k
        then on_free (socket_emit_free fuel) s (closure_options k) st
        else st
    | None => st
    end.
Proof. reflexivity. Qed.

(** ** Registry arrays through updates *)

Section arr_lemmas.
Context {A : Type}.
Implicit Types (m : gmap string (list A)) (name n : string) (l : list A).

Lemma arr_lookup m name l : m !! name = Some l → arr m name = l.
Proof. unfold arr. by intros ->. Qed.

Lemma arr_None m name : m !! name = None → arr m name = [].
Proof. unfold arr. by intros ->. Qed.

Lemma arr_insert m name n l :
  arr (<[name := l]> m) n = if decide (name = n) then l else arr m n.
Proof. unfold arr. rewrite lookup_insert. by case_decide. Qed.

Lemma arr_delete m name n :
  arr (delete name m) n = if decide (name = n) then [] else arr m n.
Proof. unfold arr. rewrite lookup_delete. by case_decide. Qed.

Lemma len_arr m name : len (m !! name) = length (arr m name).
Proof. unfold arr, len. by destruct (m !! name). Qed.
End arr_lemmas.

Lemma splice_first_notin s a : s ∉ a → splice_first s a = a.
Proof.
  induction a as [|x a IH]; [done|]. intros Hs. simpl.
  apply not_elem_of_cons in Hs as [Hx Ha].
  case_decide; [congruence|]. by rewrite IH.
Qed.

Lemma elem_of_splice_first x s a : x ∈ splice_first s a → x ∈ a.
Proof.
  induction a as [|y a IH]; [done|]. simpl. case_decide.
  - intros Hx. apply elem_of_cons. by right.
  - intros [->|Hx]%elem_of_cons; apply elem_of_cons; [by left | right; auto].
Qed.

Lemma NoDup_splice_first s a : NoDup a → NoDup (splice_first s a).
Proof.
  induction 1 as [|y a Hy Ha IH]; [constructor|]. simpl. case_decide; [done|].
  constructor; [|done]. intros Hin. by apply Hy, (elem_of_splice_first _ s).
Qed.

Lemma splice_first_removes s a : NoDup a → s ∉ splice_first s a.
Proof.
  induction 1 as [|y a Hy Ha IH]; simpl; [apply not_elem_of_nil|].
  case_decide as Heq; [by subst|].
  apply not_elem_of_cons. split; [congruence | done].
Qed.

(** Seen through [arr], the removal of [removeSocket] is a splice of the
    array under [name], whether or not the entry is pruned. *)
Lemma arr_remove_from s name set n :
  arr (remove_from s name set) n
  = if decide (name = n) then splice_first s (arr set name) else arr set n.
Proof.
  unfold remove_from. destruct (set !! name) as [a|] eqn:Ha.
  - rewrite (arr_lookup _ _ _ Ha). destruct (decide (s ∈ a)) as [Hs|Hs].
    + destruct (decide (length (splice_first s a) = 0)) as [H0|H0].
      * rewrite arr_delete. case_decide; [|done].
        symmetry. by apply nil_length_inv.
      * by rewrite arr_insert.
    + rewrite splice_first_notin by done. case_decide; [|done].
      subst. by apply arr_lookup.
  - rewrite (arr_None _ _ Ha). simpl. case_decide; [|done].
    subst. by apply arr_None.
Qed.

Lemma remove_from_absent s name set :
  s ∉ arr set name → remove_from s name set = set.
Proof.
  unfold remove_from, arr. destruct (set !! name) as [a|]; [|done]. simpl.
  intros Hs. by rewrite decide_False.
Qed.

(** ** The destination key *)

Lemma string_app_assoc (a b c : string) : (a +:+ b) +:+ c = a +:+ (b +:+ c).
Proof.
  induction a as [|x a IH]; [done|].
  change (String x ((a +:+ b) +:+ c) = String x (a +:+ (b +:+ c))).
  by rewrite IH.
Qed.

Lemma getName_rendered o :
  getName o
  = rendered o "host" "localhost" +:+ ":" +:+ rendered o "port" "" +:+ ":"
    +:+ rendered o "localAddress" "" +:+ ":".
Proof.
  unfold getName, rendered, get.
  destruct (o !! "host") as [h|], (o !! "port") as [p|],
    (o !! "localAddress") as [l|]; simpl;
    repeat match goal with |- context [truthy ?v] => destruct (truthy v) end;
    simpl; rewrite ?string_app_assoc; reflexivity.
Qed.

(** C10. [getName] is a function of the [host], [port] and [localAddress]
    options alone: it is [host:port:localAddress:], with ['localhost'] for
    an absent host and nothing for an absent port or local address (absent
    as the code tests it: missing or falsy); options that agree on the
    three keys get the same name whatever else they hold, and so do
    options without a host and the same options with host ['localhost'].
    Every registry access of [addRequest] goes through this name. *)
Theorem getName_deterministic :
  (∀ o, getName o
        = rendered o "host" "localhost" +:+ ":" +:+ rendered o "port" "" +:+ ":"
          +:+ rendered o "localAddress" "" +:+ ":")
  ∧ (∀ o h p l,
       o !! "host" = Some (VStr h) → h ≠ "" →
       o !! "port" = Some (VStr p) → p ≠ "" →
       o !! "localAddress" = Some (VStr l) → l ≠ "" →
       getName o = h +:+ ":" +:+ p +:+ ":" +:+ l +:+ ":")
  ∧ (∀ o, o !! "host" = None → o !! "port" = None → o !! "localAddress" = None →
       getName o = "localhost:::")
  ∧ (∀ o o' : object,
       o !! "host" = o' !! "host" → o !! "port" = o' !! "port" →
       o !! "localAddress" = o' !! "localAddress" →
       getName o = getName o')
  ∧ (∀ o, o !! "host" = None →
       getName (<["host" := VStr "localhost"]> o) = getName o).
Proof.
  split; [exact getName_rendered|]. repeat split.
  - intros o h p l Hh Hh' Hp Hp' Hl Hl'.
    rewrite getName_rendered. unfold rendered. rewrite Hh, Hp, Hl. simpl.
    destruct h; [done|]. destruct p; [done|]. destruct l; [done|]. done.
  - intros o Hh Hp Hl. rewrite getName_rendered. unfold rendered.
    by rewrite Hh, Hp, Hl.
  - intros o o' Hh Hp Hl. rewrite !getName_rendered. unfold rendered.
    by rewrite Hh, Hp, Hl.
  - intros o Hh. rewrite !getName_rendered. unfold rendered.
    rewrite lookup_insert_eq, Hh.
    rewrite !lookup_insert_ne by done. done.
Qed.

Lemma getName_deterministic_witness :
  getName {[ "host" := VStr "example.org"; "port" := VStr "8080";
             "localAddress" := VStr "10.0.0.1"; "agent" := VBool false ]}
  = "example.org:8080:10.0.0.1:"
  ∧ getName {[ "path" := VStr "/" ]} = "localhost:::"
  ∧ getName {[ "host" := VStr "a"; "path" := VStr "/x" ]}
    = getName {[ "host" := VStr "a"; "method" := VStr "GET" ]}
  ∧ getName (<["host" := VStr "localhost"]> {[ "port" := VNum 80 ]})
    = getName {[ "port" := VNum 80 ]}.
Proof.
  destruct getName_deterministic as (_ & Hfull & Hnone & Hagree & Hlocal).
  split; [|split; [|split]].
  - apply (Hfull _ "example.org" "8080" "10.0.0.1"); by vm_compute.
  - apply Hnone; by vm_compute.
  - apply Hagree; by vm_compute.
  - apply Hlocal; by vm_compute.
Defined.

(** ** Acquire: reuse before create *)

(** C4. When the free array of the destination is not empty, [addRequest]
    makes no call to the connector: it shifts the socket at the front of
    the free array (the one pooled first, since pooling pushes at the
    back), hands it to the request and pushes it on the busy array. *)
Theorem addRequest_reuses_oldest_free req d st socket rest :
  freeSockets st !! getName (destination_options d) = Some (socket :: rest) →
  let name := getName (destination_options d) in
  let st' := addRequest req d st in
  log st' = log st ++ [Ref socket; OnSocket req socket]
  ∧ connector_calls (log st') = connector_calls (log st)
  ∧ in_flight st' = in_flight st
  ∧ next_sock st' = next_sock st
  ∧ arr (freeSockets st') name = rest
  ∧ (rest = [] → freeSockets st' !! name = None)
  ∧ sockets st' !! name = Some (arr (sockets st) name ++ [socket])
  ∧ (∀ n, n ≠ name →
       sockets st' !! n = sockets st !! n
       ∧ freeSockets st' !! n = freeSockets st !! n)
  ∧ requests st' = requests st
  ∧ heap st' = alter (set_httpMessage (Some req)) socket (heap st).
Proof.
  intros Hfree name st'. subst st'. unfold addRequest. fold name.
  set (st0 := match sockets st !! name with
              | None => with_sockets <[name := []]> st
              | Some _ => st
              end).
  assert (Hst0 : freeSockets st0 = freeSockets st ∧ log st0 = log st
                 ∧ arr (sockets st0) name = arr (sockets st) name
                 ∧ (∀ n, n ≠ name → sockets st0 !! n = sockets st !! n)
                 ∧ requests st0 = requests st ∧ heap st0 = heap st
                 ∧ in_flight st0 = in_flight st ∧ next_sock st0 = next_sock st).
  { subst st0. destruct (sockets st !! name) eqn:Hs; simpl; repeat split; try done.
    - rewrite arr_insert, decide_True by done. by rewrite (arr_None _ _ Hs).
    - intros n Hn. by rewrite lookup_insert_ne. }
  destruct Hst0 as (Hf0 & Hl0 & Hs0 & Hs0' & Hr0 & Hh0 & Hi0 & Hn0).
  rewrite Hf0. unfold name in Hfree |- *. rewrite Hfree. fold name.
  destruct (decide (length rest = 0)) as [Hrest|Hrest]; simpl.
  - apply nil_length_inv in Hrest. subst rest.
    rewrite Hl0, Hr0, Hh0, Hi0, Hn0, Hf0. repeat split.
    + by rewrite <- app_assoc.
    + unfold connector_calls. by rewrite <- app_assoc, List.filter_app, app_nil_r.
    + by rewrite arr_delete, decide_True.
    + intros _. by rewrite lookup_delete_eq.
    + rewrite lookup_insert_eq. by rewrite Hs0.
    + rewrite lookup_insert_ne by done. by apply Hs0'.
    + rewrite lookup_delete_ne by done. by rewrite lookup_insert_ne.
  - rewrite Hl0, Hr0, Hh0, Hi0, Hn0, Hf0. repeat split.
    + by rewrite <- app_assoc.
    + unfold connector_calls. by rewrite <- app_assoc, List.filter_app, app_nil_r.
    + by rewrite arr_insert, decide_True.
    + intros ->. done.
    + rewrite lookup_insert_eq. by rewrite Hs0.
    + rewrite lookup_insert_ne by done. by apply Hs0'.
    + by rewrite lookup_insert_ne.
Qed.

Lemma addRequest_reuses_oldest_free_witness :
  let st := run [AddRequest (Scenario.R 1) Scenario.example_org; SocketFree 0]
                Scenario.one_socket in
  log (addRequest (Scenario.R 2) Scenario.example_org st)
  = log st ++ [Ref 0; OnSocket (Scenario.R 2) 0].
Proof.
  intros st.
  refine (proj1 (addRequest_reuses_oldest_free (Scenario.R 2)
                   Scenario.example_org st 0 [] _)).
  vm_compute. reflexivity.
Defined.

(** ** Removal without a queue *)

Lemma requests_remove_from_sets s name st :
  requests (remove_from_sets s name st) = requests st.
Proof. unfold remove_from_sets. simpl. by destruct (is_destroyed _ s). Qed.

Lemma heap_remove_from_sets s name st :
  heap (remove_from_sets s name st) = heap st.
Proof. unfold remove_from_sets. simpl. by destruct (is_destroyed _ s). Qed.

Lemma log_remove_from_sets s name st :
  log (remove_from_sets s name st) = log st.
Proof. unfold remove_from_sets. simpl. by destruct (is_destroyed _ s). Qed.

Lemma sockets_remove_from_sets s name st :
  sockets (remove_from_sets s name st) = remove_from s name (sockets st).
Proof. unfold remove_from_sets. simpl. by destruct (is_destroyed _ s). Qed.

Lemma freeSockets_remove_from_sets s name st :
  freeSockets (remove_from_sets s name st)
  = if is_destroyed st s then remove_from s name (freeSockets st)
    else freeSockets st.
Proof.
  unfold remove_from_sets.
  change (is_destroyed (with_sockets (remove_from s name) st) s)
    with (is_destroyed st s).
  by destruct (is_destroyed st s).
Qed.

(** With no request queued under the name, [removeSocket] is the removal
    from the registry and nothing else, whatever ['free'] would run. *)
Lemma removeSocket_no_queue rec s options st :
  arr (requests st) (getName options) = [] →
  removeSocket rec s options st = remove_from_sets s (getName options) st.
Proof.
  intros Hq. unfold removeSocket. rewrite requests_remove_from_sets.
  unfold arr in Hq. destruct (requests st !! getName options) as [[|r q]|]; done.
Qed.

(** [removeSocket] of a socket that is not destroyed leaves [freeSockets]
    alone when no request is queued: the array pooled into by the ['free']
    listener is still the one stored under the name. *)
Lemma removeSocket_freeSockets rec s options st :
  arr (requests st) (getName options) = [] →
  is_destroyed st s = false →
  freeSockets (removeSocket rec s options st) = freeSockets st.
Proof.
  intros Hq Hd. rewrite removeSocket_no_queue by done.
  by rewrite freeSockets_remove_from_sets, Hd.
Qed.

Lemma is_destroyed_update_socket f s s' st :
  (∀ k, destroyed (f k) = destroyed k) →
  is_destroyed (update_socket s f st) s' = is_destroyed st s'.
Proof.
  intros Hf. unfold is_destroyed, update_socket. simpl.
  rewrite lookup_alter. case_decide; [subst|done].
  destruct (heap st !! s'); simpl; [apply Hf | done].
Qed.

Lemma is_destroyed_socket_destroy s st k :
  heap st !! s = Some k → is_destroyed (socket_destroy s st) s = true.
Proof.
  intros Hk. unfold is_destroyed, socket_destroy, update_socket. simpl.
  by rewrite lookup_alter, decide_True, Hk.
Qed.

(** ** Release *)

(** C3, as the code has it.  When a socket that is not destroyed is
    released and requests wait for its destination, the request at the
    front of the queue is shifted off and given the socket; the entry of
    the queue is pruned when that empties it; [sockets] and [freeSockets]
    are not touched, so the socket stays where it was and is not pooled. *)
Theorem free_hands_over_to_oldest s st k req rest :
  heap st !! s = Some k → has_onFree k = true → destroyed k = false →
  requests st !! getName (closure_options k) = Some (req :: rest) →
  let name := getName (closure_options k) in
  let st' := step (SocketFree s) st in
  log st' = log st ++ [OnSocket req s]
  ∧ arr (requests st') name = rest
  ∧ (rest = [] → requests st' !! name = None)
  ∧ (∀ n, n ≠ name → requests st' !! n = requests st !! n)
  ∧ sockets st' = sockets st
  ∧ freeSockets st' = freeSockets st.
Proof.
  intros Hk Hfree Hd Hq name st'. subst st'.
  unfold step, onFree. rewrite socket_emit_free_S, Hk, Hfree.
  unfold on_free. fold name.
  unfold is_destroyed. rewrite Hk, Hd. unfold name in Hq |- *. rewrite Hq.
  destruct (decide (length rest = 0)) as [Hrest|Hrest]; simpl.
  - apply nil_length_inv in Hrest. subst rest. repeat split; try done.
    + by rewrite arr_delete, decide_True.
    + intros _. by rewrite lookup_delete_eq.
    + intros n Hn. rewrite lookup_delete_ne by done. by rewrite lookup_insert_ne.
  - repeat split; try done.
    + by rewrite arr_insert, decide_True.
    + intros ->. done.
    + intros n Hn. by rewrite lookup_insert_ne.
Qed.

Lemma free_hands_over_to_oldest_witness :
  let st := run [AddRequest (Scenario.R 1) Scenario.example_org;
                 AddRequest (Scenario.R 2) Scenario.example_org]
                Scenario.one_socket in
  log (step (SocketFree 0) st) = log st ++ [OnSocket (Scenario.R 2) 0]
  ∧ freeSockets (step (SocketFree 0) st) = freeSockets st.
Proof.
  intros st.
  set (k := Socket false (Some (Scenario.R 1)) false false 0
       (<["encoding" := VNull]>
          (socket_options (agent st) (Scenario.R 1)
             (destination_options Scenario.example_org)))
       true true true true).
  assert (Hk : heap st !! 0 = Some k) by (by vm_compute).
  assert (Hq : requests st !! getName (closure_options k) = Some [Scenario.R 2])
    by (by vm_compute).
  destruct (free_hands_over_to_oldest 0 st k (Scenario.R 2) []
              Hk eq_refl eq_refl Hq) as (Hlog & _ & _ & _ & _ & Hfree).
  split; [exact Hlog | exact Hfree].
Defined.

(** The claim as the spec has it fails on a socket that was destroyed
    before its release: the waiting request is not given that socket. *)
Lemma free_destroyed_not_handed_over :
  let name := "example.org:80::" in
  let st := run [AddRequest (Scenario.R 1) Scenario.example_org;
                 AddRequest (Scenario.R 2) Scenario.example_org;
                 SocketDestroyed 0]
                Scenario.one_socket in
  let st' := step (SocketFree 0) st in
  requests st !! name = Some [Scenario.R 2]
  ∧ sockets st !! name = Some [0]
  ∧ handed (log st) = [(1, 0)]
  ∧ handed (log st') = [(1, 0); (2, 1)]
  ∧ closed (log st') = [0]
  ∧ sockets st' !! name = Some [1].
Proof. vm_compute. repeat split. Qed.






(** ** Removal of a connection that is not there *)

(** C6, as the code has it.  While no request waits for the destination,
    [removeSocket] of a socket that is in neither array of the destination
    changes nothing; releasing a socket that was removed before (it is
    destroyed, or its listeners were taken off) leaves the three registry
    objects as they were, and so does a further ['close'] of it.  (With a
    request waiting, every removal opens a new connection.) *)
Theorem removal_of_absent_is_noop :
  (∀ rec s options st,
     s ∉ arr (sockets st) (getName options) →
     s ∉ arr (freeSockets st) (getName options) →
     arr (requests st) (getName options) = [] →
     removeSocket rec s options st = st)
  ∧ (∀ s st k,
       heap st !! s = Some k → destroyed k = true →
       s ∉ arr (sockets st) (getName (closure_options k)) →
       s ∉ arr (freeSockets st) (getName (closure_options k)) →
       arr (requests st) (getName (closure_options k)) = [] →
       ∀ e, e = SocketFree s ∨ e = SocketClose s →
       requests (step e st) = requests st
       ∧ sockets (step e st) = sockets st
       ∧ freeSockets (step e st) = freeSockets st)
  ∧ (∀ s st k,
       heap st !! s = Some k → has_onFree k = false →
       step (SocketFree s) st = st).
Proof.
  assert (Hrm : ∀ rec s options st,
     s ∉ arr (sockets st) (getName options) →
     s ∉ arr (freeSockets st) (getName options) →
     arr (requests st) (getName options) = [] →
     removeSocket rec s options st = st).
  { intros rec s options st Hb Hf Hq.
    rewrite removeSocket_no_queue by done.
    unfold remove_from_sets, with_sockets, with_freeSockets.
    destruct st as [a r b f h n i l x]; simpl in *.
    rewrite (remove_from_absent _ _ _ Hb).
    destruct (is_destroyed _ s); [|done].
    by rewrite (remove_from_absent _ _ _ Hf). }
  split; [exact Hrm|]. split.
  - intros s st k Hk Hd Hb Hf Hq e [->| ->]; simpl.
    + unfold onFree. rewrite socket_emit_free_S, Hk. destruct (has_onFree k); [|done].
      unfold on_free.
      assert (Hdst : is_destroyed st s = true) by (unfold is_destroyed; by rewrite Hk).
      rewrite Hdst. unfold pool_or_destroy. rewrite Hdst. simpl.
      rewrite andb_false_r. simpl.
      rewrite Hrm by done. done.
    + unfold onClose.
      set (st1 := update_socket s (set_destroyed true) st).
      destruct (heap st1 !! s) as [k1|] eqn:Hk1; [|done].
      assert (Heq : closure_options k1 = closure_options k ∧ has_onClose k1 = has_onClose k).
      { subst st1. unfold update_socket in Hk1. simpl in Hk1.
        rewrite lookup_alter, decide_True, Hk in Hk1 by done.
        simpl in Hk1. by injection Hk1 as <-. }
      destruct Heq as [Ho Hc]. rewrite Ho.
      destruct (has_onClose k1); [|done].
      rewrite Hrm by done. done.
  - intros s st k Hk Hfree. simpl. unfold onFree. by rewrite socket_emit_free_S, Hk, Hfree.
Qed.

Lemma removal_of_absent_is_noop_witness :
  let st := run [AddRequest (Scenario.R 1) Scenario.example_org; SocketClose 0]
                Scenario.one_socket in
  sockets (step (SocketClose 0) st) = sockets st
  ∧ sockets (step (SocketFree 0) st) = sockets st.
Proof.
  intros st.
  destruct removal_of_absent_is_noop as (_ & H & _).
  pose proof (H 0 st
    (Socket true (Some (Scenario.R 1)) false false 0
       (<["encoding" := VNull]>
          (socket_options (agent st) (Scenario.R 1)
             (destination_options Scenario.example_org)))
       true true true true)) as H0.
  split.
  - refine (proj1 (proj2 (H0 _ _ _ _ _ (SocketClose 0) _)));
      first [by vm_compute | by right
            | vm_compute; intros Hin; inversion Hin ].
  - refine (proj1 (proj2 (H0 _ _ _ _ _ (SocketFree 0) _)));
      first [by vm_compute | by left
            | vm_compute; intros Hin; inversion Hin ].
Defined.

(** The claim as the spec has it fails while a request waits: socket [0]
    is in no array of its destination any more, and its ['close'] still
    puts a new socket in the busy array. *)
Lemma removal_of_absent_opens_connection :
  let name := "example.org:80::" in
  let st := run [AddRequest (Scenario.R 1) Scenario.example_org;
                 AddRequest (Scenario.R 2) Scenario.example_org;
                 AddRequest (Scenario.R 3) Scenario.example_org;
                 SocketDestroyed 0; SocketFree 0]
                Scenario.one_socket in
  let st' := step (SocketClose 0) st in
  sockets st !! name = Some [1]
  ∧ freeSockets st !! name = None
  ∧ requests st !! name = Some [Scenario.R 3]
  ∧ sockets st' !! name = Some [1; 2]
  ∧ freeSockets st' !! name = None.
Proof. vm_compute. repeat split. Qed.

(** ** Shutdown *)

Lemma destroys_only_refl st : destroys_only st st.
Proof. by split. Qed.

Lemma destroys_only_trans st1 st2 st3 :
  destroys_only st1 st2 → destroys_only st2 st3 → destroys_only st1 st3.
Proof.
  intros [] []. split; try congruence; auto.
Qed.

Lemma destroys_only_socket_destroy s st :
  destroys_only st (socket_destroy s st).
Proof.
  split; try done.
  - intros o Ho. simpl. apply elem_of_app. by left.
  - intros s' Hs'. simpl. rewrite lookup_alter. case_decide; [subst|done].
    destruct Hs' as [k ->]. by eexists.
  - intros s'. unfold is_destroyed. simpl. rewrite lookup_alter.
    case_decide; [subst|done]. by destruct (heap st !! s').
Qed.

Lemma socket_destroy_destroys s st :
  Destroy s ∈ log (socket_destroy s st)
  ∧ (is_Some (heap st !! s) → is_destroyed (socket_destroy s st) s = true).
Proof.
  split.
  - simpl. apply elem_of_app. right. by apply list_elem_of_singleton.
  - intros [k Hk]. by apply (is_destroyed_socket_destroy _ _ k).
Qed.

Lemma destroy_each_spec a st :
  destroys_only st (destroy_each a st)
  ∧ ∀ s, s ∈ a →
      Destroy s ∈ log (destroy_each a st)
      ∧ (is_Some (heap st !! s) → is_destroyed (destroy_each a st) s = true).
Proof.
  revert st. induction a as [|x a IH]; intros st.
  - split; [apply destroys_only_refl|]. by intros s ?%elem_of_nil.
  - change (destroy_each (x :: a) st) with (destroy_each a (socket_destroy x st)).
    destruct (IH (socket_destroy x st)) as [Hmono Hall].
    pose proof (destroys_only_socket_destroy x st) as Hx.
    split; [by eapply destroys_only_trans|].
    intros s [->|Hs]%elem_of_cons.
    + destruct (socket_destroy_destroys x st) as [Hlog Hd]. split.
      * by apply (do_log _ _ Hmono).
      * intros Hk. by apply (do_destroyed _ _ Hmono), Hd.
    + destruct (Hall s Hs) as [Hlog Hd]. split; [done|].
      intros Hk. by apply Hd, (do_heap _ _ Hx).
Qed.

Lemma destroy_pairs_spec (l : list (string * list sock)) st :
  let st' := foldl (fun st '(name, a) => destroy_each a st) st l in
  destroys_only st st'
  ∧ ∀ name a s, (name, a) ∈ l → s ∈ a →
      Destroy s ∈ log st'
      ∧ (is_Some (heap st !! s) → is_destroyed st' s = true).
Proof.
  revert st. induction l as [|[n b] l IH]; intros st; simpl.
  - split; [apply destroys_only_refl|]. by intros ??? ?%elem_of_nil.
  - destruct (IH (destroy_each b st)) as [Hmono Hall].
    destruct (destroy_each_spec b st) as [Hb Hballs].
    split; [by eapply destroys_only_trans|].
    intros name a s [Heq|Hin]%elem_of_cons Hs.
    + injection Heq as -> ->. destruct (Hballs s Hs) as [Hlog Hd]. split.
      * by apply (do_log _ _ Hmono).
      * intros Hk. by apply (do_destroyed _ _ Hmono), Hd.
    + destruct (Hall name a s Hin Hs) as [Hlog Hd]. split; [done|].
      intros Hk. by apply Hd, (do_heap _ _ Hb).
Qed.

Lemma destroy_set_spec set st :
  destroys_only st (destroy_set set st)
  ∧ ∀ name s, s ∈ arr set name →
      Destroy s ∈ log (destroy_set set st)
      ∧ (is_Some (heap st !! s) → is_destroyed (destroy_set set st) s = true).
Proof.
  destruct (destroy_pairs_spec (map_to_list set) st) as [Hmono Hall].
  split; [exact Hmono|]. intros name s Hs.
  unfold arr in Hs. destruct (set !! name) as [a|] eqn:Ha;
    [|by apply elem_of_nil in Hs].
  apply (Hall name a s); [|done]. by apply elem_of_map_to_list.
Qed.

(** C9, as the code has it.  [destroy()] calls [destroy()] on every socket
    of every busy and free array, under all names, so that each socket
    known to the heap is destroyed afterwards; the registry objects are
    left as they are (their entries go when the sockets' ['close'] events
    reach [removeSocket]). *)
Theorem destroy_closes_every_socket st :
  let st' := destroy st in
  (∀ name s,
     s ∈ arr (sockets st) name ∨ s ∈ arr (freeSockets st) name →
     Destroy s ∈ log st'
     ∧ (is_Some (heap st !! s) → is_destroyed st' s = true))
  ∧ requests st' = requests st
  ∧ sockets st' = sockets st
  ∧ freeSockets st' = freeSockets st.
Proof.
  intros st'. subst st'. unfold destroy.
  destruct (destroy_set_spec (freeSockets st) st) as [Hf Hfall].
  destruct (destroy_set_spec (sockets st) (destroy_set (freeSockets st) st))
    as [Hb Hball].
  pose proof (destroys_only_trans _ _ _ Hf Hb) as [Hr Hs Hfs _ _ _].
  split; [|done].
  intros name s [Hin|Hin].
  - destruct (Hball name s Hin) as [Hlog Hd]. split; [done|].
    intros Hk. by apply Hd, (do_heap _ _ Hf).
  - destruct (Hfall name s Hin) as [Hlog Hd]. split.
    + by apply (do_log _ _ Hb).
    + intros Hk. by apply (do_destroyed _ _ Hb), Hd.
Qed.

Lemma destroy_closes_every_socket_witness :
  let st := run [AddRequest (Scenario.R 1) Scenario.example_org;
                 AddRequest (Scenario.R 2) Scenario.example_org;
                 SocketFree 0]
                (Scenario.agent_of
                   (new_Agent {[ "keepAlive" := VBool true ]} None)) in
  (Destroy 0 ∈ log (destroy st) ∧ is_destroyed (destroy st) 0 = true)
  ∧ (Destroy 1 ∈ log (destroy st) ∧ is_destroyed (destroy st) 1 = true).
Proof.
  intros st.
  destruct (destroy_closes_every_socket st) as [H _].
  split.
  - destruct (H "example.org:80::" 0) as [Hlog Hd].
    + right. vm_compute. by left.
    + split; [exact Hlog|]. apply Hd. vm_compute. by eexists.
  - destruct (H "example.org:80::" 1) as [Hlog Hd].
    + left. vm_compute. by left.
    + split; [exact Hlog|]. apply Hd. vm_compute. by eexists.
Defined.

(** The claim as the spec has it fails on its last part: after
    [destroy()] the registry still holds the destroyed socket. *)
Lemma destroy_keeps_registry :
  let name := "example.org:80::" in
  let st := run [AddRequest (Scenario.R 1) Scenario.example_org]
                Scenario.one_socket in
  sockets (destroy st) !! name = Some [0]
  ∧ closed (log (destroy st)) = [0].
Proof. vm_compute. repeat split. Qed.

(** ** Where the code departs from its own intent *)

(** C1 at the failing input: the replacement connection started by
    [removeSocket] fails.  Its callback reads [socket.emit] on an undefined
    [socket]: the call throws, no ['tunnelError'] is emitted, and the
    waiting request is neither served nor failed.  Had the connection
    succeeded, the request would have been given the new socket. *)
Theorem replacement_failure_throws :
  let name := "example.org:80::" in
  let st := Tunnel.replacing in
  let failure := step (TunnelResult 0 (Some "ECONNREFUSED")) st in
  let success := step (TunnelResult 0 None) st in
  requests st !! name = Some [Scenario.R 2]
  ∧ length (in_flight st) = 1
  ∧ log failure = log st ++ [TypeError "Cannot call method 'emit' of undefined"]
  ∧ failed (log failure) = []
  ∧ requests failure !! name = Some [Scenario.R 2]
  ∧ handed (log success) = [(1, 0); (2, 1)]
  ∧ requests success !! name = None.
Proof. vm_compute. repeat split. Qed.

(** C7 at the failing input: [addRequest] makes the [sockets] entry of the
    name before it asks for a connection; when the tunnel reports an error
    the request is failed and the entry stays behind, bound to an empty
    array, with nothing busy, free or waiting under the name. *)
Theorem failed_connect_leaves_empty_entry :
  let name := "example.org:80::" in
  let st := run [AddRequest (Scenario.R 1) Scenario.example_org;
                 TunnelResult 0 (Some "ECONNREFUSED")]
                Tunnel.tunnelled in
  failed (log st) = [(1, "ECONNREFUSED")]
  ∧ arr (sockets st) name = []
  ∧ arr (freeSockets st) name = []
  ∧ arr (requests st) name = []
  ∧ in_flight st = []
  ∧ sockets st !! name = Some [].
Proof. vm_compute. repeat split. Qed.

(** C8 at the failing input: ['agentRemove'] takes the socket out of the
    registry and detaches [onClose], [onFree] and [onRemove], but not
    [onTunnelError]; a later ['tunnelError'] of the removed socket still
    reaches the agent and fails a request that waits for the destination. *)
Theorem agentRemove_keeps_tunnelError_hook :
  let name := "example.org:80::" in
  let st := run [AddRequest (Scenario.R 1) Scenario.example_org;
                 SocketAgentRemove 0]
                Scenario.one_socket in
  let st' := run [AddRequest (Scenario.R 2) Scenario.example_org;
                  AddRequest (Scenario.R 3) Scenario.example_org;
                  SocketTunnelError 0 "late"] st in
  sockets st !! name = None
  ∧ (has_onFree <$> heap st !! 0) = Some false
  ∧ (has_onClose <$> heap st !! 0) = Some false
  ∧ (has_onRemove <$> heap st !! 0) = Some false
  ∧ (has_onTunnelError <$> heap st !! 0) = Some true
  ∧ failed (log st) = []
  ∧ failed (log st') = [(3, "late")]
  ∧ requests st' !! name = None.
Proof. vm_compute. repeat split. Qed.

(** ** The registry invariant *)

Lemma wf_same_view st st' : same_view st st' → wf st → wf st'.
Proof.
  intros [Hs Hf Hr Hh Hn] [H1 H2 H3 H4 H5]. split.
  - intros n. rewrite Hs, Hf. apply H1.
  - intros n. rewrite Hf, Hr. apply H2.
  - intros n s. rewrite Hf, Hh. apply H3.
  - intros n s. rewrite Hs, Hf, Hn. apply H4.
  - intros s. rewrite Hh, Hn. apply H5.
Qed.

Lemma wf_emit o st : wf st → wf (emit o st).
Proof. apply wf_same_view. by split. Qed.

Lemma wf_with_in_flight f st : wf st → wf (with_in_flight f st).
Proof. apply wf_same_view. by split. Qed.

Lemma wf_out_of_fuel st : wf st → wf (out_of_fuel st).
Proof. apply wf_same_view. by split. Qed.

(** Making the entry of a name that has none. *)
Lemma wf_ensure_sockets name st :
  sockets st !! name = None → wf st → wf (with_sockets <[name := []]> st).
Proof.
  intros Hnone. apply wf_same_view. split; try done.
  intros n. simpl. rewrite arr_insert. case_decide; [subst|done].
  by rewrite (arr_None _ _ Hnone).
Qed.

Lemma wf_ensure_freeSockets name st :
  wf st → wf (with_freeSockets <[name := default [] (freeSockets st !! name)]> st).
Proof.
  apply wf_same_view. split; try done.
  intros n. simpl. rewrite arr_insert. case_decide; [subst|done]. done.
Qed.

Lemma wf_update_socket s f st :
  benign f → wf st → wf (update_socket s f st).
Proof.
  intros Hf [H1 H2 H3 H4 H5]. split; try done.
  - intros n s' Hs'. destruct (H3 n s' Hs') as (k & Hk & Hm & Hn).
    simpl. rewrite lookup_alter. case_decide; [subst s'|by eauto].
    rewrite Hk. simpl. destruct (Hf k) as [Ho Hm']. exists (f k).
    split; [done|]. split; [by apply Hm' | by rewrite Ho].
  - intros s'. simpl. rewrite lookup_alter. case_decide; [subst|apply H5].
    intros Hs'. apply H5. by destruct (heap st !! s').
Qed.

Lemma benign_set_destroyed b : benign (set_destroyed b).
Proof. by intros k. Qed.

Lemma benign_set_reapTimeout : benign set_reapTimeout.
Proof. by intros k. Qed.

Lemma benign_disarm_reap : benign disarm_reap.
Proof. by intros k. Qed.

Lemma benign_set_timeout_listeners n : benign (set_timeout_listeners n).
Proof. by intros k. Qed.

Lemma benign_reset_timeout_listeners : benign reset_timeout_listeners.
Proof. by intros k. Qed.

Lemma benign_remove_listeners : benign remove_listeners.
Proof. by intros k. Qed.

Lemma benign_clear_httpMessage : benign (set_httpMessage None).
Proof. by intros k. Qed.

Lemma wf_socket_destroy s st : wf st → wf (socket_destroy s st).
Proof.
  intros H. apply wf_emit, wf_update_socket; [apply benign_set_destroyed | done].
Qed.

(** Any field update of a socket that is in no free array. *)
Lemma wf_update_socket_not_free s f st :
  (∀ n, s ∉ arr (freeSockets st) n) → wf st → wf (update_socket s f st).
Proof.
  intros Hs [H1 H2 H3 H4 H5]. split; try done.
  - intros n s' Hs'. destruct (H3 n s' Hs') as (k & Hk & Hm & Hn).
    simpl. rewrite lookup_alter. case_decide; [subst s'|by eauto].
    by destruct (Hs n).
  - intros s'. simpl. rewrite lookup_alter. case_decide; [subst|apply H5].
    intros Hs'. apply H5. by destruct (heap st !! s').
Qed.

Lemma wf_onSocket req s st :
  (∀ n, s ∉ arr (freeSockets st) n) → wf st → wf (onSocket req s st).
Proof. intros Hs H. by apply wf_emit, wf_update_socket_not_free. Qed.

Lemma wf_new_socket st :
  wf st →
  wf (new_socket st).2
  ∧ (new_socket st).1 < next_sock (new_socket st).2
  ∧ heap (new_socket st).2 !! (new_socket st).1 = Some fresh_socket
  ∧ ∀ n, (new_socket st).1 ∉ arr (sockets (new_socket st).2) n
                                ++ arr (freeSockets (new_socket st).2) n.
Proof.
  intros [H1 H2 H3 H4 H5]. simpl. split; [split; try done|].
  - intros n s Hs. destruct (H3 n s Hs) as (k & Hk & Hm & Hn).
    exists k. simpl. rewrite lookup_insert_ne; [done|].
    pose proof (H4 n s) as Hlt. rewrite elem_of_app in Hlt.
    specialize (Hlt (or_intror Hs)). lia.
  - intros n s Hs. simpl. specialize (H4 n s Hs). lia.
  - intros s. simpl. rewrite lookup_insert. case_decide; [subst; lia|].
    intros Hs. specialize (H5 s Hs). lia.
  - split; [lia|]. split; [by rewrite lookup_insert_eq|].
    intros n Hin. specialize (H4 n _ Hin). lia.
Qed.

Lemma wf_push_busy name s st :
  s ∉ arr (sockets st) name ++ arr (freeSockets st) name →
  s < next_sock st →
  wf st → wf (with_sockets <[name := arr (sockets st) name ++ [s]]> st).
Proof.
  intros Hs Hlt [H1 H2 H3 H4 H5]. split; try done.
  - intros n. simpl. rewrite arr_insert. case_decide; [subst n|apply H1].
    specialize (H1 name). rewrite <- app_assoc.
    apply NoDup_app in H1 as (Hb & Hbf & Hf).
    apply not_elem_of_app in Hs as [Hsb Hsf].
    apply NoDup_app. split; [done|]. split.
    + intros x Hx [Hx1|Hx2]%elem_of_app.
      * apply list_elem_of_singleton in Hx1. by subst.
      * by apply (Hbf x).
    + simpl. apply NoDup_cons. by split.
  - intros n x. simpl. rewrite arr_insert. case_decide; [subst n|apply H4].
    rewrite <- app_assoc. intros [Hx|[Hx|Hx]%elem_of_app]%elem_of_app.
    + apply (H4 name). apply elem_of_app. by left.
    + apply list_elem_of_singleton in Hx. by subst.
    + apply (H4 name). apply elem_of_app. by right.
Qed.

Lemma next_sock_remove_from_sets s name st :
  next_sock (remove_from_sets s name st) = next_sock st.
Proof. unfold remove_from_sets. simpl. by destruct (is_destroyed _ s). Qed.

Lemma wf_remove_from_sets s name st : wf st → wf (remove_from_sets s name st).
Proof.
  intros [H1 H2 H3 H4 H5].
  assert (Hsub : ∀ n x,
    (x ∈ arr (sockets (remove_from_sets s name st)) n → x ∈ arr (sockets st) n)
    ∧ (x ∈ arr (freeSockets (remove_from_sets s name st)) n
       → x ∈ arr (freeSockets st) n)).
  { intros n x. rewrite sockets_remove_from_sets, freeSockets_remove_from_sets.
    split.
    - rewrite arr_remove_from. case_decide; [subst|done].
      apply elem_of_splice_first.
    - destruct (is_destroyed st s); [|done].
      rewrite arr_remove_from. case_decide; [subst|done].
      apply elem_of_splice_first. }
  split.
  - intros n. specialize (H1 n).
    rewrite sockets_remove_from_sets, freeSockets_remove_from_sets.
    apply NoDup_app in H1 as (Hb & Hbf & Hf).
    apply NoDup_app. split; [|split].
    + rewrite arr_remove_from. case_decide; [subst|done].
      by apply NoDup_splice_first.
    + intros x Hx Hx'. apply (Hbf x).
      * apply (Hsub n x). by rewrite sockets_remove_from_sets.
      * apply (Hsub n x). by rewrite freeSockets_remove_from_sets.
    + destruct (is_destroyed st s); [|done].
      rewrite arr_remove_from. case_decide; [subst|done].
      by apply NoDup_splice_first.
  - intros n Hne. rewrite requests_remove_from_sets. apply H2.
    intros Hnil. apply Hne. apply elem_of_nil_inv. intros x Hx.
    apply (Hsub n x) in Hx. rewrite Hnil in Hx. by apply elem_of_nil in Hx.
  - intros n x Hx. rewrite heap_remove_from_sets. apply H3. by apply Hsub.
  - intros n x Hx. rewrite next_sock_remove_from_sets. apply (H4 n).
    apply elem_of_app in Hx as [Hx|Hx]; apply elem_of_app;
      [left|right]; by apply Hsub.
  - intros x. rewrite heap_remove_from_sets, next_sock_remove_from_sets. apply H5.
Qed.

Lemma wf_with_requests f st :
  (∀ n, arr (freeSockets st) n ≠ [] → arr (f (requests st)) n = []) →
  wf st → wf (with_requests f st).
Proof. intros Hf [H1 H2 H3 H4 H5]. by split. Qed.

(** Taking the front of a free array, with or without pruning. *)
Lemma wf_shift_free name socket rest g st :
  arr (freeSockets st) name = socket :: rest →
  (∀ n, arr (g (freeSockets st)) n
        = if decide (name = n) then rest else arr (freeSockets st) n) →
  wf st →
  wf (with_freeSockets g st)
  ∧ (∀ n, socket ∉ arr (g (freeSockets st)) n)
  ∧ (socket ∉ arr (sockets st) name)
  ∧ socket < next_sock st.
Proof.
  intros Hfront Hg [H1 H2 H3 H4 H5].
  assert (Hsub : ∀ n x, x ∈ arr (g (freeSockets st)) n → x ∈ arr (freeSockets st) n).
  { intros n x. rewrite Hg. case_decide; [subst|done].
    rewrite Hfront. intros Hx. apply elem_of_cons. by right. }
  pose proof (H1 name) as Hnd. rewrite Hfront in Hnd.
  apply NoDup_app in Hnd as (Hb & Hbf & Hf).
  apply NoDup_cons in Hf as [Hsr Hr].
  split; [split|].
  - intros n. simpl. rewrite Hg. case_decide; [subst n|apply H1].
    apply NoDup_app. split; [done|]. split; [|done].
    intros x Hx Hx'. apply (Hbf x Hx). apply elem_of_cons. by right.
  - intros n Hne. simpl. apply H2. intros Hnil. apply Hne.
    apply elem_of_nil_inv. intros x Hx. apply Hsub in Hx.
    rewrite Hnil in Hx. by apply elem_of_nil in Hx.
  - intros n x Hx. simpl. apply H3. by apply Hsub.
  - intros n x Hx. simpl. apply (H4 n).
    apply elem_of_app in Hx as [Hx|Hx]; apply elem_of_app; [by left|].
    right. by apply Hsub.
  - done.
  - split; [|split].
    + intros n. rewrite Hg. case_decide; [done|].
      intros Hin. destruct (H3 n socket Hin) as (k & Hk & _ & Hn).
      destruct (H3 name socket) as (k' & Hk' & _ & Hn').
      { rewrite Hfront. by left. }
      congruence.
    + intros Hin. apply (Hbf socket Hin). by left.
    + apply (H4 name). apply elem_of_app. right. rewrite Hfront. by left.
Qed.

Lemma wf_push_free name s k st :
  s ∉ arr (sockets st) name ++ arr (freeSockets st) name →
  s < next_sock st →
  heap st !! s = Some k → _httpMessage k = None →
  getName (closure_options k) = name →
  arr (requests st) name = [] →
  wf st → wf (with_freeSockets <[name := arr (freeSockets st) name ++ [s]]> st).
Proof.
  intros Hs Hlt Hk Hm Hn Hq [H1 H2 H3 H4 H5].
  apply not_elem_of_app in Hs as [Hsb Hsf]. split.
  - intros n. simpl. rewrite arr_insert. case_decide; [subst n|apply H1].
    specialize (H1 name). rewrite app_assoc.
    apply NoDup_app. split; [done|]. split; [|apply NoDup_singleton].
    intros x Hx ->%list_elem_of_singleton.
    apply elem_of_app in Hx as [Hx|Hx]; done.
  - intros n. simpl. rewrite arr_insert. case_decide; [by subst|apply H2].
  - intros n x. simpl. rewrite arr_insert. case_decide; [subst n|apply H3].
    intros [Hx|Hx]%elem_of_app; [by apply H3|].
    apply list_elem_of_singleton in Hx. subst x. by exists k.
  - intros n x. simpl. rewrite arr_insert. case_decide; [subst n|apply H4].
    rewrite app_assoc. intros [Hx|Hx]%elem_of_app; [by apply (H4 name)|].
    apply list_elem_of_singleton in Hx. by subst.
  - done.
Qed.

Section wf_handlers.

Variable rec : sock → state → state.
Hypothesis rec_wf : ∀ s st, wf st → wf (rec s st).

Lemma wf_call_error cb err st : wf st → wf (call rec cb (inl err) st).
Proof. intros H. destruct cb; simpl; by apply wf_emit. Qed.

Lemma wf_call_socket cb s st :
  (∀ n, s ∉ arr (freeSockets st) n) → wf st → wf (call rec cb (inr s) st).
Proof.
  intros Hs H. destruct cb as [req|]; simpl.
  - apply wf_emit, wf_onSocket; [done|]. by apply wf_emit.
  - by apply rec_wf.
Qed.

Lemma wf_afterCreateSocket name options s cb st :
  (∀ n, s ∉ arr (sockets st) n ++ arr (freeSockets st) n) →
  s < next_sock st →
  wf st → wf (_afterCreateSocket rec name options s cb st).
Proof.
  intros Hs Hlt H. unfold _afterCreateSocket.
  set (st0 := match sockets st !! name with
              | None => with_sockets <[name := []]> st
              | Some _ => st
              end).
  assert (wf st0 ∧ same_view st st0) as [Hwf0 Hv0].
  { subst st0. destruct (sockets st !! name) eqn:Hn.
    - split; [done | by split].
    - split; [by apply wf_ensure_sockets|]. split; try done.
      intros n. simpl. rewrite arr_insert. case_decide; [subst|done].
      by rewrite (arr_None _ _ Hn). }
  clearbody st0.
  assert (Hs0 : ∀ n, s ∉ arr (sockets st0) n ++ arr (freeSockets st0) n).
  { intros n. rewrite (sv_sockets _ _ Hv0), (sv_freeSockets _ _ Hv0). apply Hs. }
  assert (Hlt0 : s < next_sock st0) by (by rewrite (sv_next _ _ Hv0)).
  assert (Hf0 : ∀ n, s ∉ arr (freeSockets st0) n).
  { intros n Hin. apply (Hs0 n). apply elem_of_app. by right. }
  set (st1 := with_sockets _ st0).
  assert (Hwf1 : wf st1) by (subst st1; by apply wf_push_busy).
  assert (Hf1 : ∀ n, s ∉ arr (freeSockets st1) n) by done.
  clearbody st1.
  apply wf_call_socket.
  - destruct (truthy (get options "keepAliveTimeoutMsecs")); apply Hf1.
  - apply wf_update_socket_not_free.
    + destruct (truthy (get options "keepAliveTimeoutMsecs")); apply Hf1.
    + destruct (truthy (get options "keepAliveTimeoutMsecs")); [|done].
      apply wf_emit, wf_update_socket; [apply benign_set_reapTimeout | done].
Qed.

Lemma wf_connected_error name options cb err st :
  wf st → wf (connected rec name options cb (inl err) st).
Proof. apply wf_call_error. Qed.

Lemma wf_connected_new name options cb st :
  wf st →
  wf (connected rec name options cb (inr (new_socket st).1) (new_socket st).2).
Proof.
  intros H. destruct (wf_new_socket st H) as (Hwf & Hlt & _ & Hfresh).
  simpl. by apply wf_afterCreateSocket.
Qed.

Lemma wf_createConnection name options cb st :
  wf st → wf (_createConnection rec name options cb st).
Proof.
  intros H. unfold _createConnection.
  destruct (tunnelClient (agent st)).
  - by apply wf_with_in_flight, wf_emit.
  - destruct (wf_new_socket st H) as (Hwf & Hlt & _ & Hfresh).
    simpl. apply wf_afterCreateSocket; [done | done |]. by apply wf_emit.
Qed.

Lemma wf_createSocket req options cb st :
  wf st → wf (createSocket rec req options cb st).
Proof. apply wf_createConnection. Qed.

Lemma wf_removeSocket s options st :
  wf st → wf (removeSocket rec s options st).
Proof.
  intros H. unfold removeSocket.
  pose proof (wf_remove_from_sets s (getName options) st H) as H'.
  destruct (requests _ !! getName options) as [[|req q]|]; try done.
  by apply wf_createSocket.
Qed.

Lemma wf_on_tunnelError err options st :
  wf st → wf (on_tunnelError err options st).
Proof.
  intros H. unfold on_tunnelError.
  destruct (requests st !! getName options) as [[|req rest]|] eqn:Hq.
  - done.
  - assert (Hfree : arr (freeSockets st) (getName options) = []).
    { destruct (arr (freeSockets st) (getName options)) eqn:Hf; [done|].
      pose proof (wf_queue _ H (getName options)) as Hnil.
      rewrite Hf, (arr_lookup _ _ _ Hq) in Hnil. by discriminate Hnil. }
    set (st1 := emit _ (with_requests <[getName options := rest]> st)).
    assert (H1 : wf st1).
    { apply wf_emit, wf_with_requests; [|done].
      intros n Hn. rewrite arr_insert. case_decide; [by subst|].
      by apply (wf_queue _ H). }
    destruct (decide (length rest = 0)); [|done].
    apply wf_with_requests; [|done].
    intros n Hn. simpl. rewrite arr_delete. case_decide; [done|].
    rewrite arr_insert, decide_False by done. by apply (wf_queue _ H).
  - by apply wf_emit.
Qed.

End wf_handlers.

Section wf_free.

Variable rec : sock → state → state.
Hypothesis rec_wf : ∀ s st, wf st → wf (rec s st).

Lemma wf_pool_or_destroy s k st :
  heap st !! s = Some k →
  is_destroyed st s = true ∨ arr (requests st) (getName (closure_options k)) = [] →
  wf st → wf (pool_or_destroy rec s (closure_options k) st).
Proof.
  intros Hk Hpre H. unfold pool_or_destroy.
  set (name := getName (closure_options k)) in *.
  rewrite Hk. simpl.
  destruct (_ && _ && _) eqn:Hel;
    [|by apply wf_socket_destroy, wf_removeSocket].
  apply andb_prop in Hel as [[Hmsg Hnd]%andb_prop Hka].
  apply negb_true_iff in Hnd.
  destruct Hpre as [Hpre|Hq]; [congruence|].
  destruct (_httpMessage k) as [req|] eqn:Hreq; [|done].
  destruct (_ || _); [by apply wf_socket_destroy, wf_removeSocket|].
  set (st1 := update_socket s (set_httpMessage None) _).
  assert (H1 : wf st1).
  { subst st1. apply wf_update_socket; [apply benign_clear_httpMessage|].
    by apply wf_emit, wf_emit, wf_ensure_freeSockets. }
  assert (Hq1 : arr (requests st1) (getName (closure_options k)) = []) by done.
  assert (Hd1 : is_destroyed st1 s = false).
  { subst st1. by rewrite is_destroyed_update_socket. }
  assert (Hk1 : heap st1 !! s = Some (set_httpMessage None k)).
  { subst st1. simpl. by rewrite lookup_alter, decide_True, Hk. }
  assert (Hf1 : ∀ n, arr (freeSockets st1) n = arr (freeSockets st) n).
  { intros n. subst st1. simpl. rewrite arr_insert.
    case_decide; [by subst|done]. }
  assert (Hs1 : sockets st1 = sockets st) by done.
  assert (Hn1 : next_sock st1 = next_sock st) by done.
  rewrite removeSocket_no_queue by done. fold name.
  set (st2 := remove_from_sets s name st1).
  assert (H2 : wf st2) by (by apply wf_remove_from_sets).
  assert (H3 : wf (with_freeSockets
                     <[name := arr (freeSockets st2) name ++ [s]]> st2)).
  { apply (wf_push_free name s (set_httpMessage None k)).
    - subst st2.
      rewrite sockets_remove_from_sets, freeSockets_remove_from_sets, Hd1.
      rewrite arr_remove_from, decide_True by done. rewrite Hs1, Hf1.
      pose proof (wf_nodup _ H name) as [Hb _]%NoDup_app.
      apply not_elem_of_app. split; [by apply splice_first_removes|].
      intros Hin. destruct (wf_free _ H name s Hin) as (k' & Hk' & Hm' & _).
      congruence.
    - subst st2. rewrite next_sock_remove_from_sets, Hn1.
      apply (wf_heap _ H). by eexists.
    - subst st2. by rewrite heap_remove_from_sets.
    - done.
    - done.
    - subst st2. by rewrite requests_remove_from_sets.
    - done. }
  match goal with |- context [if ?b then _ else _] => destruct b end;
    [|done].
  apply wf_emit, wf_update_socket;
    [apply benign_reset_timeout_listeners | by apply wf_emit].
Qed.

Lemma wf_on_free s k st :
  heap st !! s = Some k →
  wf st → wf (on_free rec s (closure_options k) st).
Proof.
  intros Hk H. unfold on_free.
  set (name := getName (closure_options k)).
  destruct (is_destroyed st s) eqn:Hd.
  { apply wf_pool_or_destroy; [done | by left | done]. }
  destruct (requests st !! name) as [[|req rest]|] eqn:Hq.
  - apply wf_pool_or_destroy; [done | | done]. right. by apply arr_lookup.
  - assert (Hfree : arr (freeSockets st) name = []).
    { destruct (arr (freeSockets st) name) eqn:Hf; [done|].
      pose proof (wf_queue _ H name) as Hnil.
      rewrite Hf, (arr_lookup _ _ _ Hq) in Hnil. by discriminate Hnil. }
    assert (Hnot : ∀ n, s ∉ arr (freeSockets st) n).
    { intros n Hin. destruct (wf_free _ H n s Hin) as (k' & Hk' & _ & Hn).
      assert (k' = k) as -> by congruence. fold name in Hn. subst n.
      rewrite Hfree in Hin. by apply elem_of_nil in Hin. }
    set (st1 := onSocket req s (with_requests <[name := rest]> st)).
    assert (H1 : wf st1).
    { apply wf_onSocket; [done|]. apply wf_with_requests; [|done].
      intros n Hn. rewrite arr_insert. case_decide; [by subst|].
      by apply (wf_queue _ H). }
    destruct (decide (length rest = 0)); [|done].
    apply wf_with_requests; [|done].
    intros n Hn. simpl. rewrite arr_delete. case_decide; [done|].
    rewrite arr_insert, decide_False by done. by apply (wf_queue _ H).
  - apply wf_pool_or_destroy; [done | | done]. right. by apply arr_None.
Qed.

End wf_free.

Lemma wf_socket_emit_free fuel s st : wf st → wf (socket_emit_free fuel s st).
Proof.
  revert s st. induction fuel as [|fuel IH]; intros s st H.
  - by apply wf_out_of_fuel.
  - rewrite socket_emit_free_S. destruct (heap st !! s) as [k|] eqn:Hk; [|done].
    destruct (has_onFree k); [|done]. by apply wf_on_free.
Qed.

Lemma wf_destroy_each a st : wf st → wf (destroy_each a st).
Proof.
  revert st. induction a as [|s a IH]; intros st H; [done|].
  apply IH. by apply wf_socket_destroy.
Qed.

Lemma wf_destroy_set set st : wf st → wf (destroy_set set st).
Proof.
  unfold destroy_set. generalize (map_to_list set). intros l. revert st.
  induction l as [|[n a] l IH]; intros st H; [done|].
  apply IH. by apply wf_destroy_each.
Qed.

Lemma wf_addRequest req d st : wf st → wf (addRequest req d st).
Proof.
  intros H. unfold addRequest.
  set (name := getName (destination_options d)).
  set (st0 := match sockets st !! name with
              | None => with_sockets <[name := []]> st
              | Some _ => st
              end).
  assert (wf st0 ∧ same_view st st0) as [H0 Hv0].
  { subst st0. destruct (sockets st !! name) eqn:Hn.
    - split; [done | by split].
    - split; [by apply wf_ensure_sockets|]. split; try done.
      intros n. simpl. rewrite arr_insert. case_decide; [subst|done].
      by rewrite (arr_None _ _ Hn). }
  clearbody st0.
  destruct (freeSockets st0 !! name) as [[|socket rest]|] eqn:Hfree.
  - (* an empty free array *)
    destruct (lt_limit _ _);
      [apply wf_createSocket; [exact (wf_socket_emit_free _) | done]|].
    assert (Hempty : arr (freeSockets st0) name = []) by (by apply arr_lookup).
    set (st1 := match requests st0 !! name with
                | None => with_requests <[name := []]> st0
                | Some _ => st0
                end).
    assert (wf st1 ∧ freeSockets st1 = freeSockets st0) as [H1 Hf1].
    { subst st1. destruct (requests st0 !! name) eqn:Hr; [done|].
      split; [|done]. apply wf_with_requests; [|done].
      intros n Hn. rewrite arr_insert. case_decide; [done|].
      by apply (wf_queue _ H0). }
    apply wf_with_requests; [|done].
    intros n Hn. rewrite arr_insert. case_decide; [subst n|by apply (wf_queue _ H1)].
    by rewrite Hf1 in Hn.
  - (* we have a free socket *)
    pose proof (arr_lookup _ _ _ Hfree) as Hfront.
    set (g := fun m : gmap string (list sock) =>
                if decide (length rest = 0)
                then delete name (<[name := rest]> m) else <[name := rest]> m).
    assert (Hg : ∀ n, arr (g (freeSockets st0)) n
                      = if decide (name = n) then rest
                        else arr (freeSockets st0) n).
    { intros n. subst g. simpl. destruct (decide (length rest = 0)) as [Hr|Hr].
      - rewrite arr_delete. case_decide; [by apply nil_length_inv in Hr|].
        by rewrite arr_insert, decide_False.
      - by rewrite arr_insert. }
    destruct (wf_shift_free name socket rest g st0 Hfront Hg H0)
      as (Hwf & Hnot & Hbusy & Hlt).
    set (st1 := if decide (length rest = 0)
                then with_freeSockets (delete name)
                       (with_freeSockets <[name := rest]> st0)
                else with_freeSockets <[name := rest]> st0).
    assert (Hst1 : st1 = with_freeSockets g st0).
    { subst st1 g. by destruct (decide (length rest = 0)). }
    rewrite Hst1. clear st1 Hst1.
    apply wf_push_busy.
    + simpl. apply not_elem_of_app. split; [done | apply Hnot].
    + done.
    + apply wf_onSocket; [apply Hnot|]. by apply wf_emit.
  - (* no free array *)
    destruct (lt_limit _ _);
      [apply wf_createSocket; [exact (wf_socket_emit_free _) | done]|].
    assert (Hempty : arr (freeSockets st0) name = []) by (by apply arr_None).
    set (st1 := match requests st0 !! name with
                | None => with_requests <[name := []]> st0
                | Some _ => st0
                end).
    assert (wf st1 ∧ freeSockets st1 = freeSockets st0) as [H1 Hf1].
    { subst st1. destruct (requests st0 !! name) eqn:Hr; [done|].
      split; [|done]. apply wf_with_requests; [|done].
      intros n Hn. rewrite arr_insert. case_decide; [done|].
      by apply (wf_queue _ H0). }
    apply wf_with_requests; [|done].
    intros n Hn. rewrite arr_insert. case_decide; [subst n|by apply (wf_queue _ H1)].
    by rewrite Hf1 in Hn.
Qed.

Lemma wf_step e st : wf st → wf (step e st).
Proof.
  intros H. destruct e as [req d|s|s|s|s err|s|s n|s|i res|]; simpl.
  - by apply wf_addRequest.
  - by apply wf_socket_emit_free.
  - unfold onClose.
    set (st1 := update_socket s (set_destroyed true) st).
    assert (H1 : wf st1)
      by (apply wf_update_socket; [apply benign_set_destroyed | done]).
    destruct (heap st1 !! s) as [k|]; [|done].
    destruct (has_onClose k); [|done].
    apply wf_removeSocket; [exact (wf_socket_emit_free _) | done].
  - unfold onRemove. destruct (heap st !! s) as [k|]; [|done].
    destruct (has_onRemove k); [|done].
    apply wf_update_socket; [apply benign_remove_listeners|].
    apply wf_removeSocket; [exact (wf_socket_emit_free _) | done].
  - unfold onTunnelError. destruct (heap st !! s) as [k|]; [|done].
    destruct (has_onTunnelError k); [|done]. by apply wf_on_tunnelError.
  - unfold reapTimeout. destruct (heap st !! s) as [k|]; [|done].
    destruct (reap_armed k); [|done].
    apply wf_removeSocket; [exact (wf_socket_emit_free _)|].
    apply wf_socket_destroy, wf_update_socket; [apply benign_disarm_reap | done].
  - apply wf_update_socket; [apply benign_set_timeout_listeners | done].
  - apply wf_update_socket; [apply benign_set_destroyed | done].
  - unfold tunnel_result. destruct (in_flight st !! i) as [c|]; [|done].
    set (st1 := with_in_flight _ st).
    assert (H1 : wf st1) by (by apply wf_with_in_flight).
    destruct res as [err|].
    + by apply wf_connected_error.
    + apply (wf_connected_new _ (wf_socket_emit_free _)). done.
  - unfold destroy. by apply wf_destroy_set, wf_destroy_set.
Qed.

Lemma wf_new_Agent options proxy st : new_Agent options proxy = Built st → wf st.
Proof.
  unfold new_Agent. intros Hnew.
  assert (Hempty : requests st = ∅ ∧ sockets st = ∅ ∧ freeSockets st = ∅
                   ∧ heap st = ∅).
  { destruct proxy as [p|]; [destruct (decide _); [|done]|];
      repeat match type of Hnew with
             | context [as_limit ?v ?d] => destruct (as_limit v d)
             end; try done; by injection Hnew as <-. }
  destruct Hempty as (Hr & Hs & Hf & Hh). split.
  - intros n. rewrite Hs, Hf. constructor.
  - intros n. by rewrite Hf.
  - intros n s. rewrite Hf. by intros ?%elem_of_nil.
  - intros n s. rewrite Hs, Hf. by intros ?%elem_of_nil.
  - intros s. rewrite Hh, lookup_empty. by intros [? ?].
Qed.

Lemma reachable_wf st : reachable st → wf st.
Proof.
  induction 1 as [options proxy st Hnew | e st _ IH].
  - by eapply wf_new_Agent.
  - by apply wf_step.
Qed.

Lemma reachable_run es st : reachable st → reachable (run es st).
Proof.
  revert st. induction es as [|e es IH]; intros st H; [done|].
  apply IH. by constructor.
Qed.

(** ** The nesting of ['free'] is bounded *)

Lemma exhausted_remove_from_sets s name st :
  exhausted (remove_from_sets s name st) = exhausted st.
Proof. unfold remove_from_sets. simpl. by destruct (is_destroyed _ s). Qed.

Lemma unused_update_socket s f st :
  (∀ k, destroyed (f k) = destroyed k ∧ _httpMessage (f k) = _httpMessage k) →
  unused st s → unused (update_socket s f st) s.
Proof.
  intros Hf (k & Hk & Hd & Hm). exists (f k). simpl.
  rewrite lookup_alter, decide_True, Hk by done.
  destruct (Hf k) as [-> ->]. by repeat split.
Qed.

Section fuel.

Variable rec : sock → state → state.

(** ['free'] on a socket that carries no request and is not destroyed
    does not emit ['free'] again. *)
Lemma on_free_unused s options st :
  unused st s → exhausted st = false →
  exhausted (on_free rec s options st) = false.
Proof.
  intros (k & Hk & Hd & Hm) Hex. unfold on_free.
  assert (Hdst : is_destroyed st s = false) by (unfold is_destroyed; by rewrite Hk).
  rewrite Hdst.
  assert (Hpool : arr (requests st) (getName options) = [] →
                  exhausted (pool_or_destroy rec s options st) = false).
  { intros Hq. unfold pool_or_destroy. rewrite Hk. simpl. rewrite Hm. simpl.
    rewrite removeSocket_no_queue by done. simpl.
    by rewrite exhausted_remove_from_sets. }
  destruct (requests st !! getName options) as [[|req rest]|] eqn:Hq.
  - apply Hpool. by apply arr_lookup.
  - by destruct (decide (length rest = 0)).
  - apply Hpool. by apply arr_None.
Qed.

Hypothesis rec_unused :
  ∀ s st, unused st s → exhausted st = false → exhausted (rec s st) = false.

Lemma exhausted_call cb res st :
  match res with inl _ => True | inr s => unused st s end →
  exhausted st = false → exhausted (call rec cb res st) = false.
Proof.
  intros Hres Hex. destruct cb as [req|], res as [err|s]; simpl; try done.
  by apply rec_unused.
Qed.

Lemma exhausted_afterCreateSocket name options s cb st :
  unused st s → exhausted st = false →
  exhausted (_afterCreateSocket rec name options s cb st) = false.
Proof.
  intros Hs Hex. unfold _afterCreateSocket.
  apply (exhausted_call cb (inr s)).
  - apply unused_update_socket; [done|].
    destruct (truthy _); [apply unused_update_socket; [done|]|];
      by destruct (sockets st !! name).
  - simpl. destruct (truthy _); simpl; by destruct (sockets st !! name).
Qed.

Lemma exhausted_createSocket req options cb st :
  exhausted st = false → exhausted (createSocket rec req options cb st) = false.
Proof.
  intros Hex. unfold createSocket, _createConnection.
  destruct (tunnelClient (agent st)); [done|].
  simpl. apply exhausted_afterCreateSocket; [|done].
  exists fresh_socket. simpl. by rewrite lookup_insert_eq.
Qed.

Lemma exhausted_removeSocket s options st :
  exhausted st = false → exhausted (removeSocket rec s options st) = false.
Proof.
  intros Hex. unfold removeSocket.
  pose proof (exhausted_remove_from_sets s (getName options) st) as Hrm.
  destruct (requests _ !! getName options) as [[|req q]|];
    try congruence.
  apply exhausted_createSocket. congruence.
Qed.

Lemma exhausted_pool_or_destroy s options st :
  exhausted st = false → exhausted (pool_or_destroy rec s options st) = false.
Proof.
  intros Hex. unfold pool_or_destroy.
  destruct (_ && _ && _); [|by apply exhausted_removeSocket].
  destruct (_ || _); [by apply exhausted_removeSocket|].
  match goal with |- context [if ?b then _ else _] => destruct b end;
    by apply exhausted_removeSocket.
Qed.

Lemma exhausted_on_free s options st :
  exhausted st = false → exhausted (on_free rec s options st) = false.
Proof.
  intros Hex. unfold on_free.
  destruct (is_destroyed st s);
    [by apply exhausted_pool_or_destroy|].
  destruct (requests st !! getName options) as [[|req rest]|];
    try by apply exhausted_pool_or_destroy.
  by destruct (decide (length rest = 0)).
Qed.

End fuel.

Lemma socket_emit_free_unused fuel s st :
  unused st s → exhausted st = false →
  exhausted (socket_emit_free (S fuel) s st) = false.
Proof.
  intros Hs Hex. rewrite socket_emit_free_S.
  destruct (heap st !! s) as [k|]; [|done]. destruct (has_onFree k); [|done].
  by apply on_free_unused.
Qed.

(** Two levels are all that ['free'] ever nests. *)
Lemma emit_free_enough fuel s st :
  exhausted st = false → exhausted (socket_emit_free (S (S fuel)) s st) = false.
Proof.
  intros Hex. rewrite socket_emit_free_S.
  destruct (heap st !! s) as [k|]; [|done]. destruct (has_onFree k); [|done].
  apply exhausted_on_free; [|done]. apply socket_emit_free_unused.
Qed.

Lemma exhausted_destroy_set set st :
  exhausted (destroy_set set st) = exhausted st.
Proof.
  unfold destroy_set. generalize (map_to_list set). intros l. revert st.
  induction l as [|[n a] l IH]; intros st; [done|]. simpl. rewrite IH.
  clear IH. revert st. induction a as [|x a IH]; intros st; [done|].
  simpl. by rewrite IH.
Qed.

Lemma step_within_fuel e st :
  exhausted st = false → exhausted (step e st) = false.
Proof.
  intros Hex.
  pose proof (socket_emit_free_unused 1) as Hrec.
  destruct e as [req d|s|s|s|s err|s|s n|s|i res|]; simpl.
  - unfold addRequest.
    set (st0 := match sockets st !! _ with
                | None => _ | Some _ => st end).
    assert (H0 : exhausted st0 = false)
      by (subst st0; by destruct (sockets st !! _)).
    clearbody st0.
    destruct (freeSockets st0 !! _) as [[|socket rest]|].
    + destruct (lt_limit _ _); [by apply exhausted_createSocket|].
      simpl. by destruct (requests st0 !! _).
    + simpl. by destruct (decide (length rest = 0)).
    + destruct (lt_limit _ _); [by apply exhausted_createSocket|].
      simpl. by destruct (requests st0 !! _).
  - by apply emit_free_enough.
  - unfold onClose. set (st1 := update_socket _ _ st).
    destruct (heap st1 !! s) as [k|]; [|done].
    destruct (has_onClose k); [|done]. by apply exhausted_removeSocket.
  - unfold onRemove. destruct (heap st !! s) as [k|]; [|done].
    destruct (has_onRemove k); [|done]. simpl.
    by apply exhausted_removeSocket.
  - unfold onTunnelError. destruct (heap st !! s) as [k|]; [|done].
    destruct (has_onTunnelError k); [|done]. unfold on_tunnelError.
    destruct (requests st !! _) as [[|r q]|]; try done.
    by destruct (decide (length q = 0)).
  - unfold reapTimeout. destruct (heap st !! s) as [k|]; [|done].
    destruct (reap_armed k); [|done]. by apply exhausted_removeSocket.
  - done.
  - done.
  - unfold tunnel_result. destruct (in_flight st !! i) as [c|]; [|done].
    destruct res as [err|]; simpl.
    + by apply (exhausted_call _ Hrec _ (inl err)).
    + apply exhausted_afterCreateSocket; [done| |done].
      exists fresh_socket. simpl. by rewrite lookup_insert_eq.
  - unfold destroy. by rewrite !exhausted_destroy_set.
Qed.

Lemma reachable_within_fuel st : reachable st → exhausted st = false.
Proof.
  induction 1 as [options proxy st Hnew | e st _ IH].
  - unfold new_Agent in Hnew.
    destruct proxy as [p|]; [destruct (decide _); [|done]|];
      repeat match type of Hnew with
             | context [as_limit ?v ?d] => destruct (as_limit v d)
             end; try done; by injection Hnew as <-.
  - by apply step_within_fuel.
Qed.

(** ** Busy and free arrays *)

(** The bound of the claim is not an invariant: the agent was made with
    [maxSockets = 1], requests have been served, and two sockets are busy
    for the destination (the reaped socket was taken out twice, by its
    timer and by its ['close'], and each time a waiting request got a new
    connection). *)
Lemma capacity_exceeded :
  let name := "example.org:80::" in
  let st := Reaping.reaped in
  reachable st
  ∧ maxSockets (agent st) = Finite 1
  ∧ handed (log st) = [(1, 0); (2, 1); (3, 2)]
  ∧ arr (sockets st) name = [1; 2]
  ∧ arr (freeSockets st) name = []
  ∧ ¬ (Z.of_nat (length (arr (sockets st) name)
                 + length (arr (freeSockets st) name)) ≤ 1)%Z.
Proof.
  intros name st. split.
  - apply reachable_run, (reachable_new Reaping.options None).
    by vm_compute.
  - subst st name. vm_compute. repeat split. intros H. by apply H.
Qed.

Lemma addRequest_free_log req d st socket rest :
  freeSockets st !! getName (destination_options d) = Some (socket :: rest) →
  log (addRequest req d st) = log st ++ [Ref socket; OnSocket req socket]
  ∧ in_flight (addRequest req d st) = in_flight st.
Proof.
  intros Hfree. unfold addRequest.
  set (name := getName (destination_options d)) in *.
  destruct (sockets st !! name); simpl; rewrite Hfree;
    destruct (decide (length rest = 0)); simpl;
    by rewrite <- app_assoc.
Qed.

(** C2, as the code has it.  In every state an agent can reach, and for
    every name, no socket is in the busy and in the free array at once
    (nor twice in either).  The bound [maxSockets] is applied where
    [addRequest] decides: with the busy and free sockets of the name at
    the bound, it opens no connection. *)
Theorem busy_free_disjoint st :
  reachable st →
  (∀ name,
     (∀ s, s ∈ arr (sockets st) name → s ∉ arr (freeSockets st) name)
     ∧ NoDup (arr (sockets st) name)
     ∧ NoDup (arr (freeSockets st) name))
  ∧ (∀ req d,
       let name := getName (destination_options d) in
       lt_limit (length (arr (freeSockets st) name)
                 + length (arr (sockets st) name)) (maxSockets (agent st))
       = false →
       connector_calls (log (addRequest req d st)) = connector_calls (log st)
       ∧ in_flight (addRequest req d st) = in_flight st).
Proof.
  intros Hreach. split.
  - intros name. pose proof (wf_nodup _ (reachable_wf _ Hreach) name) as Hnd.
    apply NoDup_app in Hnd as (Hb & Hbf & Hf). by repeat split.
  - intros req d name Hfull.
    destruct (freeSockets st !! name) as [[|socket rest]|] eqn:Hfree.
    + unfold addRequest. fold name.
      set (st0 := match sockets st !! name with
                  | None => with_sockets <[name := []]> st
                  | Some _ => st
                  end).
      assert (H0 : freeSockets st0 = freeSockets st ∧ agent st0 = agent st
                   ∧ arr (sockets st0) name = arr (sockets st) name
                   ∧ log st0 = log st ∧ in_flight st0 = in_flight st).
      { subst st0. destruct (sockets st !! name) eqn:Hs; [done|].
        simpl. repeat split.
        rewrite arr_insert, decide_True by done. by rewrite (arr_None _ _ Hs). }
      destruct H0 as (Hf0 & Ha0 & Hs0 & Hl0 & Hi0).
      rewrite Hf0, Ha0, Hs0, len_arr, Hfull, Hfree.
      destruct (requests st0 !! name); simpl; by rewrite Hl0, Hi0.
    + destruct (addRequest_free_log req d st socket rest Hfree) as [Hl Hi].
      split; [|done]. fold name. rewrite Hl. unfold connector_calls.
      by rewrite List.filter_app, app_nil_r.
    + unfold addRequest. fold name.
      set (st0 := match sockets st !! name with
                  | None => with_sockets <[name := []]> st
                  | Some _ => st
                  end).
      assert (H0 : freeSockets st0 = freeSockets st ∧ agent st0 = agent st
                   ∧ arr (sockets st0) name = arr (sockets st) name
                   ∧ log st0 = log st ∧ in_flight st0 = in_flight st).
      { subst st0. destruct (sockets st !! name) eqn:Hs; [done|].
        simpl. repeat split.
        rewrite arr_insert, decide_True by done. by rewrite (arr_None _ _ Hs). }
      destruct H0 as (Hf0 & Ha0 & Hs0 & Hl0 & Hi0).
      rewrite Hf0, Ha0, Hs0, len_arr, Hfull, Hfree.
      destruct (requests st0 !! name); simpl; by rewrite Hl0, Hi0.
Qed.

Lemma busy_free_disjoint_witness :
  (1 ∉ arr (freeSockets Scenario5.one_free) "example.org:80::")
  ∧ NoDup (arr (sockets Scenario5.one_free) "example.org:80::").
Proof.
  assert (Hreach : reachable Scenario5.one_free).
  { apply reachable_run,
      (reachable_new {[ "maxFreeSockets" := VNum 1; "keepAlive" := VBool true ]}
                     None).
    by vm_compute. }
  destruct (busy_free_disjoint Scenario5.one_free Hreach) as [H _].
  destruct (H "example.org:80::") as (Hd & Hb & _).
  split; [|exact Hb]. apply Hd. vm_compute. by left.
Defined.

(** * Further properties of the agent *)

(** ** Invariants of the registry *)

(** X1. In every state an agent can reach, a request waits for a
    destination only while the free array of that destination is empty:
    [addRequest] queues only when there is no free socket, and the
    listener for ['free'] pools a socket only when no request waits. *)
Theorem waiting_implies_no_free st :
  reachable st →
  ∀ name, arr (requests st) name ≠ [] → arr (freeSockets st) name = [].
Proof.
  intros Hreach name Hq.
  destruct (arr (freeSockets st) name) as [|s l] eqn:Hfree; [done|].
  destruct Hq. apply (wf_queue _ (reachable_wf _ Hreach)). by rewrite Hfree.
Qed.

Lemma waiting_implies_no_free_witness :
  arr (freeSockets
         (run [AddRequest (Scenario.R 1) Scenario.example_org;
               AddRequest (Scenario.R 2) Scenario.example_org]
              Scenario.one_socket)) "example.org:80::" = [].
Proof.
  apply waiting_implies_no_free.
  - apply reachable_run,
      (reachable_new {[ "maxSockets" := VNum 1; "keepAlive" := VBool true ]} None).
    by vm_compute.
  - by vm_compute.
Defined.

(** X2. In every state an agent can reach, a socket of a free array is a
    socket the agent has created, it carries no request ([_httpMessage] is
    null) and it is filed under the name of the options it was created
    with. *)
Theorem pooled_socket_is_idle st :
  reachable st →
  ∀ name s, s ∈ arr (freeSockets st) name →
  ∃ k, heap st !! s = Some k
       ∧ _httpMessage k = None
       ∧ getName (closure_options k) = name
       ∧ s < next_sock st.
Proof.
  intros Hreach name s Hs. pose proof (reachable_wf _ Hreach) as Hwf.
  destruct (wf_free _ Hwf name s Hs) as (k & Hk & Hm & Hn).
  exists k. repeat split; try done. apply (wf_heap _ Hwf). by eexists.
Qed.

Lemma pooled_socket_is_idle_witness :
  ∃ k, heap Scenario5.one_free !! 0 = Some k
       ∧ _httpMessage k = None
       ∧ getName (closure_options k) = "example.org:80::"
       ∧ 0 < next_sock Scenario5.one_free.
Proof.
  apply pooled_socket_is_idle.
  - apply reachable_run,
      (reachable_new {[ "maxFreeSockets" := VNum 1; "keepAlive" := VBool true ]}
                     None).
    by vm_compute.
  - vm_compute. by left.
Defined.

(** ** The options a connection is made with *)

Lemma socket_options_lookup a req o k :
  k ≠ "servername" →
  socket_options a req o !! k
  = match self_options a !! k with Some v => Some v | None => o !! k end.
Proof.
  intros Hk. unfold socket_options, _extend.
  assert (Hmerged : (self_options a ∪ (o ∪ ∅)) !! k
                    = match self_options a !! k with
                      | Some v => Some v
                      | None => o !! k
                      end).
  { rewrite !lookup_union, lookup_empty.
    destruct (self_options a !! k), (o !! k); done. }
  destruct (hostHeader req) as [h|]; [destruct (truthy (VStr h))|];
    rewrite ?lookup_insert_ne by done; exact Hmerged.
Qed.

Lemma getName_socket_options a req o :
  getName (socket_options a req o) = getName (self_options a ∪ o).
Proof.
  rewrite !getName_rendered. unfold rendered.
  rewrite !socket_options_lookup by done.
  rewrite !lookup_union.
  destruct (self_options a !! "host"), (o !! "host"),
    (self_options a !! "port"), (o !! "port"),
    (self_options a !! "localAddress"), (o !! "localAddress"); done.
Qed.

(** X3. [createSocket] overlays the agent's options on the caller's: for
    every key but [servername], the agent's value wins and the caller's is
    kept only where the agent has none.  So the name a socket is filed
    under is the name of the merged options; it is the name [addRequest]
    computed when the agent sets none of [host], [port] and
    [localAddress]; and a replacement socket, created with the options of
    the socket it replaces, is filed under the same name. *)
Theorem createSocket_agent_options_win a req o :
  (∀ k, k ≠ "servername" →
        socket_options a req o !! k
        = match self_options a !! k with Some v => Some v | None => o !! k end)
  ∧ getName (socket_options a req o) = getName (self_options a ∪ o)
  ∧ (self_options a !! "host" = None → self_options a !! "port" = None →
     self_options a !! "localAddress" = None →
     getName (socket_options a req o) = getName o)
  ∧ (∀ req',
       getName (socket_options a req'
                  (<["encoding" := VNull]> (socket_options a req o)))
       = getName (socket_options a req o)).
Proof.
  split; [intros k; apply socket_options_lookup|].
  split; [apply getName_socket_options|]. split.
  - intros Hh Hp Hl. rewrite getName_socket_options, !getName_rendered.
    unfold rendered. rewrite !lookup_union, Hh, Hp, Hl.
    by destruct (o !! "host"), (o !! "port"), (o !! "localAddress").
  - intros req'. rewrite !getName_socket_options, !getName_rendered.
    unfold rendered. rewrite !lookup_union.
    rewrite !lookup_insert_ne by done.
    rewrite !socket_options_lookup by done.
    destruct (self_options a !! "host"), (o !! "host"),
      (self_options a !! "port"), (o !! "port"),
      (self_options a !! "localAddress"), (o !! "localAddress"); done.
Qed.

Lemma createSocket_agent_options_win_witness :
  socket_options (agent Scenario.one_socket) (Scenario.R 1)
    {[ "host" := VStr "example.org"; "maxSockets" := VNum 7 ]} !! "maxSockets"
  = Some (VNum 1)
  ∧ getName (socket_options (agent Scenario.one_socket) (Scenario.R 1)
               {[ "host" := VStr "example.org"; "port" := VNum 80 ]})
    = "example.org:80::".
Proof.
  destruct (createSocket_agent_options_win (agent Scenario.one_socket)
              (Scenario.R 1)
              {[ "host" := VStr "example.org"; "maxSockets" := VNum 7 ]})
    as (Hlookup & _).
  destruct (createSocket_agent_options_win (agent Scenario.one_socket)
              (Scenario.R 1)
              {[ "host" := VStr "example.org"; "port" := VNum 80 ]})
    as (_ & _ & Hname & _).
  split.
  - rewrite Hlookup by done. by vm_compute.
  - rewrite Hname; by vm_compute.
Defined.





(** ** The constructor *)

Lemma as_limit_Some v dflt l :
  as_limit v dflt = Some l →
  (truthy v = false ∧ l = dflt) ∨ (∃ n, v = VNum n ∧ n ≠ 0%Z ∧ l = Finite n).
Proof.
  unfold as_limit. destruct (truthy v) eqn:Ht.
  - destruct v as [| |b|n|s]; try done. intros [= <-]. right. exists n.
    repeat split. simpl in Ht. apply negb_true_iff in Ht. lia.
  - intros [= <-]. by left.
Qed.

(** X5. [new Agent(options)] throws when a proxy is given whose protocol
    is not ['http:'], before anything else is looked at.  An agent that is
    built starts with an empty registry; it has a tunnel client exactly
    when a proxy was given; its options are the caller's with [path]
    overwritten by null; [maxSockets] is the given number, and unbounded
    when the option is missing or zero; [maxFreeSockets] is the given
    number, and 256 when the option is missing or zero. *)
Theorem new_Agent_defaults options proxy :
  (∀ p, proxy = Some p → proxy_protocol p ≠ VStr "http:" →
        new_Agent options proxy
        = Throws ("invalid proxy protocol: " +:+ double_quote
                  +:+ toString (proxy_protocol p) +:+ double_quote))
  ∧ (∀ st, new_Agent options proxy = Built st →
       requests st = ∅ ∧ sockets st = ∅ ∧ freeSockets st = ∅
       ∧ in_flight st = [] ∧ log st = []
       ∧ (is_Some (tunnelClient (agent st)) ↔ is_Some proxy)
       ∧ self_options (agent st) = <["path" := VNull]> options
       ∧ (truthy (get options "maxSockets") = false
          ∧ maxSockets (agent st) = Infinity
          ∨ ∃ n, options !! "maxSockets" = Some (VNum n) ∧ n ≠ 0%Z
                 ∧ maxSockets (agent st) = Finite n)
       ∧ (truthy (get options "maxFreeSockets") = false
          ∧ maxFreeSockets (agent st) = Finite 256
          ∨ ∃ n, options !! "maxFreeSockets" = Some (VNum n) ∧ n ≠ 0%Z
                 ∧ maxFreeSockets (agent st) = Finite n)).
Proof.
  split.
  - intros p -> Hp. unfold new_Agent. by rewrite decide_False.
  - intros st. unfold new_Agent, _extend.
    rewrite (right_id_L ∅ (∪) options).
    assert (Hget : ∀ k, k ≠ "path" →
              get (<["path" := VNull]> options) k = get options k).
    { intros k Hk. unfold get. by rewrite lookup_insert_ne. }
    rewrite !Hget by done.
    assert (Hnum : ∀ k n, get options k = VNum n →
                          options !! k = Some (VNum n)).
    { intros k n. unfold get.
      destruct (options !! k) as [v|]; simpl; [by intros ->|done]. }
    intros Hnew.
    destruct (as_limit (get options "maxSockets") defaultMaxSockets)
      as [ms|] eqn:Hms;
      [|by destruct proxy as [p|]; [destruct (decide _)|]].
    destruct (as_limit (get options "maxFreeSockets") (Finite 256))
      as [mf|] eqn:Hmf;
      [|by destruct proxy as [p|]; [destruct (decide _)|]].
    assert (Hst : ∃ tc, (is_Some tc ↔ is_Some proxy)
              ∧ st = State (mkAgent 80 "http:" (<["path" := VNull]> options) tc
                        (or_else (get options "keepAliveMsecs") (VNum 1000))
                        (or_else (get options "keepAlive") (VBool false))
                        ms mf VUndefined) ∅ ∅ ∅ ∅ 0 [] [] false).
    { destruct proxy as [p|]; [destruct (decide _); [|done]|];
        injection Hnew as <-; eexists; (split; [|reflexivity]).
      - split; intros _; by eexists.
      - split; by intros [? ?]. }
    destruct Hst as (tc & Htc & ->). simpl.
    repeat split; try apply Htc.
    + destruct (as_limit_Some _ _ _ Hms) as [[Ht ->]|(n & Hv & Hn & ->)].
      * by left.
      * right. exists n. repeat split; try done. by apply Hnum.
    + destruct (as_limit_Some _ _ _ Hmf) as [[Ht ->]|(n & Hv & Hn & ->)].
      * by left.
      * right. exists n. repeat split; try done. by apply Hnum.
Qed.

Lemma new_Agent_defaults_witness :
  new_Agent ∅ (Some (ProxyOptions (VStr "https:") VUndefined (VStr "proxy")
                                  (VNum 3128)))
  = Throws ("invalid proxy protocol: " +:+ double_quote +:+ "https:"
            +:+ double_quote)
  ∧ maxSockets (agent (Scenario.agent_of
                         (new_Agent {[ "maxSockets" := VNum 0 ]} None)))
    = Infinity.
Proof.
  split.
  - by apply (proj1 (new_Agent_defaults ∅ _)
                (ProxyOptions (VStr "https:") VUndefined (VStr "proxy")
                              (VNum 3128))).
  - assert (Hb : new_Agent {[ "maxSockets" := VNum 0 ]} None
                 = Built (Scenario.agent_of
                            (new_Agent {[ "maxSockets" := VNum 0 ]} None)))
      by (by vm_compute).
    destruct (proj2 (new_Agent_defaults {[ "maxSockets" := VNum 0 ]} None)
                _ Hb)
      as (_ & _ & _ & _ & _ & _ & _ & [[_ H]|(n & Hn & Hn0 & _)] & _).
    + exact H.
    + vm_compute in Hn. injection Hn as <-. done.
Defined.

(** ** The listener for ['tunnelError'] *)

(** X6. When a socket emits ['tunnelError'], the request at the front of
    the queue of the socket's destination is taken off the queue and
    failed with the error, and no other request is; the queue entry is
    pruned when that empties it.  With an empty queue array nothing
    happens; with no queue entry at all the listener throws (it reads
    [length] of undefined).  Sockets are not touched in any case. *)
Theorem tunnelError_fails_oldest s st k err :
  heap st !! s = Some k → has_onTunnelError k = true →
  let name := getName (closure_options k) in
  let st' := step (SocketTunnelError s err) st in
  sockets st' = sockets st ∧ freeSockets st' = freeSockets st
  ∧ heap st' = heap st
  ∧ match requests st !! name with
    | Some (req :: rest) =>
        log st' = log st ++ [EmitError req err]
        ∧ arr (requests st') name = rest
        ∧ (rest = [] → requests st' !! name = None)
        ∧ (∀ n, n ≠ name → requests st' !! n = requests st !! n)
    | Some [] => st' = st
    | None =>
        log st' = log st ++ [TypeError "Cannot read property 'length' of undefined"]
        ∧ requests st' = requests st
    end.
Proof.
  intros Hk Hhook name st'. subst st'. simpl. unfold onTunnelError.
  rewrite Hk, Hhook. unfold on_tunnelError. fold name.
  destruct (requests st !! name) as [[|req rest]|] eqn:Hq; try done.
  destruct (decide (length rest = 0)) as [Hrest|Hrest]; simpl.
  - apply nil_length_inv in Hrest. subst rest. repeat split.
    + by rewrite arr_delete, decide_True.
    + intros _. by rewrite lookup_delete_eq.
    + intros n Hn. rewrite lookup_delete_ne by done. by rewrite lookup_insert_ne.
  - repeat split.
    + by rewrite arr_insert, decide_True.
    + by intros ->.
    + intros n Hn. by rewrite lookup_insert_ne.
Qed.

Lemma tunnelError_fails_oldest_witness :
  let st := run [AddRequest (Scenario.R 1) Scenario.example_org;
                 AddRequest (Scenario.R 2) Scenario.example_org;
                 AddRequest (Scenario.R 3) Scenario.example_org]
                Scenario.one_socket in
  failed (log (step (SocketTunnelError 0 "refused") st)) = [(2, "refused")]
  ∧ arr (requests (step (SocketTunnelError 0 "refused") st)) "example.org:80::"
    = [Scenario.R 3].
Proof.
  intros st.
  set (k := Socket false (Some (Scenario.R 1)) false false 0
       (<["encoding" := VNull]>
          (socket_options (agent st) (Scenario.R 1)
             (destination_options Scenario.example_org)))
       true true true true).
  assert (Hk : heap st !! 0 = Some k) by (by vm_compute).
  pose proof (tunnelError_fails_oldest 0 st k "refused" Hk eq_refl) as H.
  cbv zeta in H. destruct H as (_ & _ & _ & H).
  assert (Hq : requests st !! getName (closure_options k)
               = Some [Scenario.R 2; Scenario.R 3]) by (by vm_compute).
  rewrite Hq in H. destruct H as (Hlog & Hrest & _).
  split; [|exact Hrest]. rewrite Hlog. by vm_compute.
Defined.

(** ** Waiting requests *)

Lemma addRequest_queues req d st :
  arr (freeSockets st) (getName (destination_options d)) = [] →
  lt_limit (length (arr (sockets st) (getName (destination_options d))))
           (maxSockets (agent st)) = false →
  let name := getName (destination_options d) in
  let st' := addRequest req d st in
  arr (requests st') name = arr (requests st) name ++ [req]
  ∧ (∀ n, n ≠ name → requests st' !! n = requests st !! n)
  ∧ (∀ n, arr (sockets st') n = arr (sockets st) n)
  ∧ freeSockets st' = freeSockets st
  ∧ heap st' = heap st ∧ log st' = log st ∧ in_flight st' = in_flight st
  ∧ next_sock st' = next_sock st ∧ agent st' = agent st.
Proof.
  intros Hfree Hfull name st'. subst st'. unfold addRequest. fold name.
  fold name in Hfree, Hfull.
  set (st0 := match sockets st !! name with
              | None => with_sockets <[name := []]> st
              | Some _ => st
              end).
  assert (H0 : freeSockets st0 = freeSockets st ∧ agent st0 = agent st
               ∧ (∀ n, arr (sockets st0) n = arr (sockets st) n)
               ∧ requests st0 = requests st ∧ heap st0 = heap st
               ∧ log st0 = log st ∧ in_flight st0 = in_flight st
               ∧ next_sock st0 = next_sock st).
  { subst st0. destruct (sockets st !! name) eqn:Hs; [done|].
    simpl. repeat split. intros n.
    rewrite arr_insert. case_decide; [subst n|done]. by rewrite (arr_None _ _ Hs). }
  destruct H0 as (Hf0 & Ha0 & Hs0 & Hr0 & Hh0 & Hl0 & Hi0 & Hn0).
  clearbody st0.
  assert (Hbranch : freeSockets st0 !! name = None ∨ freeSockets st0 !! name = Some []).
  { rewrite Hf0. unfold arr in Hfree.
    destruct (freeSockets st !! name) as [[|? ?]|]; auto; done. }
  assert (Hlen : len (freeSockets st0 !! name) + length (arr (sockets st0) name)
                 = length (arr (sockets st) name)).
  { rewrite Hs0. by destruct Hbranch as [-> | ->]. }
  rewrite Hlen, Ha0, Hfull.
  assert (Hend : ∀ st1,
    st1 = match requests st0 !! name with
          | None => with_requests <[name := []]> st0
          | Some _ => st0
          end →
    arr (requests st1) name = arr (requests st) name
    ∧ (∀ n, n ≠ name → requests st1 !! n = requests st !! n)
    ∧ sockets st1 = sockets st0 ∧ freeSockets st1 = freeSockets st0
    ∧ heap st1 = heap st0 ∧ log st1 = log st0 ∧ in_flight st1 = in_flight st0
    ∧ next_sock st1 = next_sock st0 ∧ agent st1 = agent st0).
  { intros st1 ->. rewrite <- Hr0.
    destruct (requests st0 !! name) eqn:Hr; [done|]. simpl. repeat split.
    - rewrite arr_insert, decide_True by done. by rewrite (arr_None _ _ Hr).
    - intros n Hn. by rewrite lookup_insert_ne. }
  specialize (Hend _ eq_refl).
  set (st1 := match requests st0 !! name with
              | None => with_requests <[name := []]> st0
              | Some _ => st0
              end) in *.
  clearbody st1.
  destruct Hend as (Hr1 & Hr1' & Hs1 & Hf1 & Hh1 & Hl1 & Hi1 & Hn1 & Ha1).
  assert (Hgoal :
    let st2 := with_requests <[name := arr (requests st1) name ++ [req]]> st1 in
    arr (requests st2) name = arr (requests st) name ++ [req]
    ∧ (∀ n, n ≠ name → requests st2 !! n = requests st !! n)
    ∧ (∀ n, arr (sockets st2) n = arr (sockets st) n)
    ∧ freeSockets st2 = freeSockets st
    ∧ heap st2 = heap st ∧ log st2 = log st ∧ in_flight st2 = in_flight st
    ∧ next_sock st2 = next_sock st ∧ agent st2 = agent st).
  { simpl. repeat split; try congruence.
    - rewrite arr_insert, decide_True by done. by rewrite Hr1.
    - intros n Hn. rewrite lookup_insert_ne by done. by apply Hr1'. }
  by destruct Hbranch as [-> | ->].
Qed.

(** X7. Requests that arrive for a destination with no free socket and
    with [maxSockets] busy sockets or more are put at the back of the
    queue of the destination in the order they arrive; nothing is asked
    of the connector, no request is answered, and the busy and free arrays
    stay as they are. *)
Theorem addRequest_queues_in_order d reqs st :
  arr (freeSockets st) (getName (destination_options d)) = [] →
  lt_limit (length (arr (sockets st) (getName (destination_options d))))
           (maxSockets (agent st)) = false →
  let name := getName (destination_options d) in
  let st' := run ((fun req => AddRequest req d) <$> reqs) st in
  arr (requests st') name = arr (requests st) name ++ reqs
  ∧ (∀ n, n ≠ name → requests st' !! n = requests st !! n)
  ∧ (∀ n, arr (sockets st') n = arr (sockets st) n)
  ∧ freeSockets st' = freeSockets st
  ∧ heap st' = heap st ∧ log st' = log st ∧ in_flight st' = in_flight st.
Proof.
  intros Hfree Hfull name. revert st Hfree Hfull.
  induction reqs as [|req reqs IH]; intros st Hfree Hfull st'.
  - subst st'. simpl. by rewrite app_nil_r.
  - assert (Hst' : st' = run ((fun req => AddRequest req d) <$> reqs)
                             (addRequest req d st)) by reflexivity.
    rewrite Hst'. clear Hst' st'.
    destruct (addRequest_queues req d st Hfree Hfull)
      as (Hr & Hr' & Hs & Hf & Hh & Hl & Hi & Hn & Ha).
    fold name in Hr, Hr', Hs.
    destruct (IH (addRequest req d st)) as (Hr2 & Hr2' & Hs2 & Hf2 & Hh2 & Hl2 & Hi2).
    + by rewrite Hf.
    + by rewrite Hs, Ha.
    + repeat split; try congruence.
      * rewrite Hr2, Hr. by rewrite <- app_assoc.
      * intros n Hne. rewrite Hr2' by done. by apply Hr'.
Qed.

Lemma addRequest_queues_in_order_witness :
  let st := run [AddRequest (Scenario.R 1) Scenario.example_org]
                Scenario.one_socket in
  arr (requests
         (run ((fun req => AddRequest req Scenario.example_org)
               <$> [Scenario.R 2; Scenario.R 3; Scenario.R 4]) st))
      "example.org:80::"
  = [Scenario.R 2; Scenario.R 3; Scenario.R 4].
Proof.
  intros st.
  refine (proj1 (addRequest_queues_in_order Scenario.example_org
                   [Scenario.R 2; Scenario.R 3; Scenario.R 4] st _ _));
    by vm_compute.
Defined.

Lemma free_dispatch s st k req rest :
  heap st !! s = Some k → has_onFree k = true → destroyed k = false →
  requests st !! getName (closure_options k) = Some (req :: rest) →
  let st' := step (SocketFree s) st in
  log st' = log st ++ [OnSocket req s]
  ∧ arr (requests st') (getName (closure_options k)) = rest
  ∧ sockets st' = sockets st ∧ freeSockets st' = freeSockets st
  ∧ heap st' = alter (set_httpMessage (Some req)) s (heap st).
Proof.
  intros Hk Hfree Hd Hq st'. subst st'.
  unfold step, onFree. rewrite socket_emit_free_S, Hk, Hfree.
  unfold on_free, is_destroyed. rewrite Hk, Hd, Hq.
  destruct (decide (length rest = 0)) as [Hrest|Hrest]; simpl.
  - apply nil_length_inv in Hrest. subst rest. repeat split.
    by rewrite arr_delete, decide_True.
  - repeat split. by rewrite arr_insert, decide_True.
Qed.

Lemma servable_after_dispatch st name s req s' :
  servable st name s' →
  servable (with_heap (alter (set_httpMessage (Some req)) s) st) name s'.
Proof.
  intros (k & Hk & Hfree & Hd & Hn). unfold servable. simpl.
  rewrite lookup_alter. case_decide; [subst s'|by exists k].
  rewrite Hk. by exists (set_httpMessage (Some req) k).
Qed.

(** X8. Waiting requests are served first come, first served: when
    sockets of a destination are released one after another (each not
    destroyed, with [onFree] installed) and at least that many requests
    wait for the destination, the first waiting request is given the
    first released socket, the second the second, and so on; the requests
    served leave the queue from its front, and no socket enters or leaves
    the busy and free arrays. *)
Theorem queue_served_in_order name ss st :
  (length ss ≤ length (arr (requests st) name))%nat →
  Forall (servable st name) ss →
  let st' := run (SocketFree <$> ss) st in
  handed (log st')
  = handed (log st) ++ zip (req_id <$> arr (requests st) name) ss
  ∧ arr (requests st') name = drop (length ss) (arr (requests st) name)
  ∧ sockets st' = sockets st
  ∧ freeSockets st' = freeSockets st.
Proof.
  revert st. induction ss as [|s ss IH]; intros st Hlen Hall st'.
  - subst st'. simpl. rewrite zip_with_nil_r, app_nil_r. by rewrite drop_0.
  - assert (Hst' : st' = run (SocketFree <$> ss) (step (SocketFree s) st))
      by reflexivity.
    rewrite Hst'. clear Hst' st'.
    apply Forall_cons in Hall as [(k & Hk & Hfree & Hd & Hn) Hall].
    destruct (arr (requests st) name) as [|req rest] eqn:Hq;
      [simpl in Hlen; lia|].
    assert (Hq' : requests st !! getName (closure_options k) = Some (req :: rest)).
    { rewrite Hn. unfold arr in Hq.
      destruct (requests st !! name) as [q|]; simpl in Hq; [by subst q|done]. }
    destruct (free_dispatch s st k req rest Hk Hfree Hd Hq')
      as (Hlog & Hr & Hs & Hf & Hh).
    rewrite Hn in Hr.
    destruct (IH (step (SocketFree s) st)) as (Hlog2 & Hr2 & Hs2 & Hf2).
    + rewrite Hr. simpl in Hlen. lia.
    + eapply Forall_impl; [exact Hall|]. intros s' Hs'.
      destruct (servable_after_dispatch st name s req s' Hs')
        as (k' & Hk' & Hrest').
      exists k'. split; [|done]. by rewrite Hh.
    + rewrite Hlog2, Hr2, Hr, Hlog, Hs2, Hf2. repeat split; try done.
      unfold handed. rewrite omap_app. simpl. by rewrite <- app_assoc.
Qed.

Lemma queue_served_in_order_witness :
  let st := run [AddRequest (Scenario.R 1) Scenario.example_org;
                 AddRequest (Scenario.R 2) Scenario.example_org;
                 AddRequest (Scenario.R 3) Scenario.example_org]
                Scenario.one_socket in
  handed (log (run (SocketFree <$> [0; 0]) st)) = [(1, 0); (2, 0); (3, 0)]
  ∧ arr (requests (run (SocketFree <$> [0; 0]) st)) "example.org:80::" = [].
Proof.
  intros st.
  assert (Hs : servable st "example.org:80::" 0).
  { eexists. split; [by vm_compute|]. by vm_compute. }
  destruct (queue_served_in_order "example.org:80::" [0; 0] st) as (H1 & H2 & _).
  - vm_compute. lia.
  - by repeat constructor.
  - split.
    + rewrite H1. by vm_compute.
    + rewrite H2. by vm_compute.
Defined.

(** ** Opening connections *)

Lemma alter_present {A} (f : A → A) (s : nat) (x : A) (h : gmap nat A) :
  h !! s = Some x → alter f s h = <[s := f x]> h.
Proof.
  intros Hx. apply map_eq. intros i. rewrite lookup_alter, lookup_insert.
  case_decide; [subst i|done]. by rewrite Hx.
Qed.

(** What [_afterCreateSocket] does with a socket just made, when the
    callback is the one of [addRequest]. *)
Lemma afterCreateSocket_for_request rec name options s req st :
  heap st !! s = Some fresh_socket →
  let reap := truthy (get options "keepAliveTimeoutMsecs") in
  let st' := _afterCreateSocket rec name options s (AddRequestCb req) st in
  log st'
  = log st
    ++ (if reap then [SetTimeout s (get options "keepAliveTimeoutMsecs")] else [])
    ++ [RemoveAllListeners s "connect"; OnSocket req s; EmitConnectLater s]
  ∧ heap st'
    = <[s := Socket false (Some req) reap reap 0 options true true true true]>
        (heap st)
  ∧ (∀ n, arr (sockets st') n
          = if decide (name = n) then arr (sockets st) name ++ [s]
            else arr (sockets st) n)
  ∧ freeSockets st' = freeSockets st
  ∧ requests st' = requests st
  ∧ in_flight st' = in_flight st
  ∧ next_sock st' = next_sock st
  ∧ agent st' = agent st.
Proof.
  intros Hs reap st'. subst st' reap. unfold _afterCreateSocket.
  set (st0 := match sockets st !! name with
              | None => with_sockets <[name := []]> st
              | Some _ => st
              end).
  assert (H0 : freeSockets st0 = freeSockets st ∧ agent st0 = agent st
               ∧ arr (sockets st0) name = arr (sockets st) name
               ∧ (∀ n, n ≠ name → arr (sockets st0) n = arr (sockets st) n)
               ∧ requests st0 = requests st ∧ heap st0 = heap st
               ∧ log st0 = log st ∧ in_flight st0 = in_flight st
               ∧ next_sock st0 = next_sock st).
  { subst st0. destruct (sockets st !! name) eqn:Hn; [done|].
    simpl. repeat split.
    - rewrite arr_insert, decide_True by done. by rewrite (arr_None _ _ Hn).
    - intros n Hne. by rewrite arr_insert, decide_False. }
  destruct H0 as (Hf0 & Ha0 & Hs0 & Hs0' & Hr0 & Hh0 & Hl0 & Hi0 & Hn0).
  clearbody st0. rewrite <- Hh0 in Hs.
  destruct (truthy (get options "keepAliveTimeoutMsecs")); simpl;
    rewrite Hl0, Hf0, Hr0, Hi0, Hn0, Ha0, <- Hh0; repeat split.
  - by rewrite <- !app_assoc.
  - by rewrite (alter_present _ _ _ _ Hs), !alter_insert_eq.
  - intros n. rewrite arr_insert. case_decide; [by rewrite Hs0|].
    by apply Hs0'.
  - by rewrite <- !app_assoc.
  - by rewrite (alter_present _ _ _ _ Hs), !alter_insert_eq.
  - intros n. rewrite arr_insert. case_decide; [by rewrite Hs0|].
    by apply Hs0'.
Qed.

Lemma addRequest_under_limit req d st :
  arr (freeSockets st) (getName (destination_options d)) = [] →
  lt_limit (length (arr (sockets st) (getName (destination_options d))))
           (maxSockets (agent st)) = true →
  ∃ st0,
    addRequest req d st
    = createSocket (socket_emit_free depth) req (destination_options d)
        (AddRequestCb req) st0
    ∧ freeSockets st0 = freeSockets st ∧ agent st0 = agent st
    ∧ (∀ n, arr (sockets st0) n = arr (sockets st) n)
    ∧ requests st0 = requests st ∧ heap st0 = heap st
    ∧ log st0 = log st ∧ in_flight st0 = in_flight st
    ∧ next_sock st0 = next_sock st.
Proof.
  intros Hfree Hunder. unfold addRequest.
  set (name := getName (destination_options d)) in *.
  set (st0 := match sockets st !! name with
              | None => with_sockets <[name := []]> st
              | Some _ => st
              end).
  assert (H0 : freeSockets st0 = freeSockets st ∧ agent st0 = agent st
               ∧ (∀ n, arr (sockets st0) n = arr (sockets st) n)
               ∧ requests st0 = requests st ∧ heap st0 = heap st
               ∧ log st0 = log st ∧ in_flight st0 = in_flight st
               ∧ next_sock st0 = next_sock st).
  { subst st0. destruct (sockets st !! name) eqn:Hs; [done|].
    simpl. repeat split. intros n.
    rewrite arr_insert. case_decide; [subst n|done]. by rewrite (arr_None _ _ Hs). }
  clearbody st0. exists st0. split; [|exact H0].
  destruct H0 as (Hf0 & Ha0 & Hs0 & _).
  assert (Hbranch : freeSockets st0 !! name = None ∨ freeSockets st0 !! name = Some []).
  { rewrite Hf0. unfold arr in Hfree.
    destruct (freeSockets st !! name) as [[|? ?]|]; auto; done. }
  assert (Hlen : len (freeSockets st0 !! name) + length (arr (sockets st0) name)
                 = length (arr (sockets st) name)).
  { rewrite Hs0. by destruct Hbranch as [-> | ->]. }
  rewrite Hlen, Ha0, Hunder. by destruct Hbranch as [-> | ->].
Qed.

(** X9. With the direct connector, no free socket for the destination and
    fewer than [maxSockets] busy ones, [addRequest] makes one socket with
    the merged options, files it at the back of the busy array under the
    name of those options, installs the four listeners on it (and the idle
    timer when [keepAliveTimeoutMsecs] is set), and gives it to the
    request at once; the queue and the free arrays are not touched. *)
Theorem addRequest_creates req d st :
  tunnelClient (agent st) = None →
  arr (freeSockets st) (getName (destination_options d)) = [] →
  lt_limit (length (arr (sockets st) (getName (destination_options d))))
           (maxSockets (agent st)) = true →
  let options := <["encoding" := VNull]>
                   (socket_options (agent st) req (destination_options d)) in
  let name' := getName (socket_options (agent st) req (destination_options d)) in
  let reap := truthy (get options "keepAliveTimeoutMsecs") in
  let s := next_sock st in
  let st' := addRequest req d st in
  connector_calls (log st') = connector_calls (log st) ++ [CreateConnection options s]
  ∧ handed (log st') = handed (log st) ++ [(req_id req, s)]
  ∧ failed (log st') = failed (log st)
  ∧ heap st'
    = <[s := Socket false (Some req) reap reap 0 options true true true true]>
        (heap st)
  ∧ (∀ n, arr (sockets st') n
          = if decide (name' = n) then arr (sockets st) name' ++ [s]
            else arr (sockets st) n)
  ∧ freeSockets st' = freeSockets st
  ∧ requests st' = requests st
  ∧ in_flight st' = in_flight st
  ∧ next_sock st' = S s.
Proof.
  intros Htc Hfree Hunder options name' reap s st'. subst st'.
  destruct (addRequest_under_limit req d st Hfree Hunder)
    as (st0 & -> & Hf0 & Ha0 & Hs0 & Hr0 & Hh0 & Hl0 & Hi0 & Hn0).
  unfold createSocket, _createConnection. rewrite Ha0, Htc.
  fold options. fold name'. unfold new_socket, connected. rewrite Hn0. fold s.
  set (st1 := emit (CreateConnection options s) _).
  assert (Hfresh : heap st1 !! s = Some fresh_socket)
    by (subst st1; simpl; by rewrite lookup_insert_eq).
  destruct (afterCreateSocket_for_request (socket_emit_free depth) name'
              options s req st1 Hfresh)
    as (Hl & Hh & Hs & Hf & Hr & Hi & Hn & _).
  fold reap in Hl, Hh.
  assert (H1 : log st1 = log st ++ [CreateConnection options s]
               ∧ heap st1 = <[s := fresh_socket]> (heap st)
               ∧ sockets st1 = sockets st0
               ∧ freeSockets st1 = freeSockets st
               ∧ requests st1 = requests st
               ∧ in_flight st1 = in_flight st
               ∧ next_sock st1 = S s).
  { subst st1. simpl. by rewrite Hl0, Hh0, Hf0, Hr0, Hi0. }
  destruct H1 as (Hl1 & Hh1 & Hs1 & Hf1 & Hr1 & Hi1 & Hn1).
  clearbody st1.
  rewrite Hl, Hh, Hf, Hr, Hi, Hn, Hl1, Hh1, Hf1, Hr1, Hi1, Hn1.
  repeat split.
  - unfold connector_calls. rewrite !List.filter_app. simpl.
    destruct reap; simpl; by rewrite app_nil_r.
  - unfold handed. rewrite !omap_app. simpl.
    destruct reap; simpl; by rewrite app_nil_r.
  - unfold failed. rewrite !omap_app. simpl.
    destruct reap; simpl; by rewrite !app_nil_r.
  - by rewrite insert_insert_eq.
  - intros n. rewrite Hs, Hs1, !Hs0. done.
Qed.

Lemma addRequest_creates_witness :
  let st := Scenario.one_socket in
  handed (log (addRequest (Scenario.R 1) Scenario.example_org st)) = [(1, 0)]
  ∧ arr (sockets (addRequest (Scenario.R 1) Scenario.example_org st))
        "example.org:80::" = [0].
Proof.
  intros st.
  assert (Htc : tunnelClient (agent st) = None) by (by vm_compute).
  assert (Hfree : arr (freeSockets st)
                    (getName (destination_options Scenario.example_org)) = [])
    by (by vm_compute).
  assert (Hunder : lt_limit
            (length (arr (sockets st)
                       (getName (destination_options Scenario.example_org))))
            (maxSockets (agent st)) = true) by (by vm_compute).
  destruct (addRequest_creates (Scenario.R 1) Scenario.example_org st
              Htc Hfree Hunder) as (_ & Hhanded & _ & _ & Hs & _).
  split; [exact Hhanded|]. rewrite Hs. by vm_compute.
Defined.

Lemma addRequest_starts_connect req d st tc :
  tunnelClient (agent st) = Some tc →
  arr (freeSockets st) (getName (destination_options d)) = [] →
  lt_limit (length (arr (sockets st) (getName (destination_options d))))
           (maxSockets (agent st)) = true →
  let options := <["encoding" := VNull]>
                   (socket_options (agent st) req (destination_options d)) in
  let name' := getName (socket_options (agent st) req (destination_options d)) in
  let st' := addRequest req d st in
  in_flight st' = in_flight st ++ [Connecting name' options (AddRequestCb req)]
  ∧ log st' = log st ++ [TunnelConnect (get options "host") (get options "port")]
  ∧ (∀ n, arr (sockets st') n = arr (sockets st) n)
  ∧ freeSockets st' = freeSockets st
  ∧ requests st' = requests st
  ∧ heap st' = heap st
  ∧ next_sock st' = next_sock st
  ∧ agent st' = agent st.
Proof.
  intros Htc Hfree Hunder options name' st'. subst st'.
  destruct (addRequest_under_limit req d st Hfree Hunder)
    as (st0 & -> & Hf0 & Ha0 & Hs0 & Hr0 & Hh0 & Hl0 & Hi0 & Hn0).
  unfold createSocket, _createConnection. rewrite Ha0, Htc.
  fold options. fold name'. simpl.
  by rewrite Hi0, Hl0, Hf0, Hr0, Hh0, Hn0, Ha0.
Qed.

(** The connects that a list of requests starts on the tunnel client. *)
Lemma addRequest_start_connects_log d reqs st tc :
  tunnelClient (agent st) = Some tc →
  arr (freeSockets st) (getName (destination_options d)) = [] →
  lt_limit (length (arr (sockets st) (getName (destination_options d))))
           (maxSockets (agent st)) = true →
  let st' := run ((fun req => AddRequest req d) <$> reqs) st in
  in_flight st'
  = in_flight st
    ++ ((fun req =>
           Connecting
             (getName (socket_options (agent st) req (destination_options d)))
             (<["encoding" := VNull]>
                (socket_options (agent st) req (destination_options d)))
             (AddRequestCb req)) <$> reqs)
  ∧ handed (log st') = handed (log st)
  ∧ failed (log st') = failed (log st)
  ∧ (∀ n, arr (sockets st') n = arr (sockets st) n)
  ∧ freeSockets st' = freeSockets st
  ∧ requests st' = requests st
  ∧ heap st' = heap st.
Proof.
  intros Htc Hfree Hunder. revert st Htc Hfree Hunder.
  induction reqs as [|req reqs IH]; intros st Htc Hfree Hunder st'.
  - subst st'. simpl. by rewrite app_nil_r.
  - assert (Hst' : st' = run ((fun req => AddRequest req d) <$> reqs)
                             (addRequest req d st)) by reflexivity.
    rewrite Hst'. clear Hst' st'.
    destruct (addRequest_starts_connect req d st tc Htc Hfree Hunder)
      as (Hi & Hl & Hs & Hf & Hr & Hh & Hn & Ha).
    destruct (IH (addRequest req d st)) as (Hi2 & Hl2 & Hx2 & Hs2 & Hf2 & Hr2 & Hh2).
    + by rewrite Ha.
    + by rewrite Hf.
    + by rewrite Hs, Ha.
    + rewrite Hi2, Hl2, Hx2, Hf2, Hr2, Hh2, Hi, Hl, Ha.
      repeat split; try done.
      * rewrite fmap_cons. by rewrite <- app_assoc.
      * unfold handed. rewrite omap_app. simpl. by rewrite app_nil_r.
      * unfold failed. rewrite omap_app. simpl. by rewrite app_nil_r.
      * intros n. by rewrite Hs2.
Qed.

(** X10. Through the tunnel client a connection is counted only once it
    is made: requests that arrive for a destination with no free socket
    and fewer than [maxSockets] busy sockets each start a connect of
    their own, however many connects are already in flight; until a
    connect reports, no request is answered or queued and no socket is
    filed. *)
Theorem addRequest_connects_uncounted d reqs st tc :
  tunnelClient (agent st) = Some tc →
  arr (freeSockets st) (getName (destination_options d)) = [] →
  lt_limit (length (arr (sockets st) (getName (destination_options d))))
           (maxSockets (agent st)) = true →
  let st' := run ((fun req => AddRequest req d) <$> reqs) st in
  length (in_flight st') = length (in_flight st) + length reqs
  ∧ conn_callback <$> in_flight st'
    = (conn_callback <$> in_flight st) ++ (AddRequestCb <$> reqs)
  ∧ handed (log st') = handed (log st)
  ∧ failed (log st') = failed (log st)
  ∧ (∀ n, arr (sockets st') n = arr (sockets st) n)
  ∧ freeSockets st' = freeSockets st
  ∧ requests st' = requests st.
Proof.
  intros Htc Hfree Hunder st'.
  destruct (addRequest_start_connects_log d reqs st tc Htc Hfree Hunder)
    as (Hi & Hl & Hx & Hs & Hf & Hr & _).
  fold st' in Hi, Hl, Hx, Hs, Hf, Hr. rewrite Hi. repeat split; try done.
  - by rewrite length_app, length_fmap.
  - rewrite fmap_app. f_equal. rewrite <- list_fmap_compose. done.
Qed.

Lemma addRequest_connects_uncounted_witness :
  length (in_flight
            (run ((fun req => AddRequest req Scenario.example_org)
                  <$> [Scenario.R 1; Scenario.R 2; Scenario.R 3])
                 Tunnel.tunnelled)) = 3.
Proof.
  assert (Htc : tunnelClient (agent Tunnel.tunnelled)
                = Some (mkTunnelClient (VStr "proxy") (VNum 3128)))
    by (by vm_compute).
  assert (Hfree : arr (freeSockets Tunnel.tunnelled)
                    (getName (destination_options Scenario.example_org)) = [])
    by (by vm_compute).
  assert (Hunder : lt_limit
            (length (arr (sockets Tunnel.tunnelled)
                       (getName (destination_options Scenario.example_org))))
            (maxSockets (agent Tunnel.tunnelled)) = true) by (by vm_compute).
  exact (proj1 (addRequest_connects_uncounted Scenario.example_org
                  [Scenario.R 1; Scenario.R 2; Scenario.R 3]
                  Tunnel.tunnelled _ Htc Hfree Hunder)).
Defined.

(** X11. When a connect that [addRequest] started through the tunnel
    client reports an error, the request that asked for it is failed with
    that error and no other request is answered; no socket is made and
    the registry is left as it was.  When it reports a socket, the socket
    is filed at the back of the busy array under the name computed when
    the connect started, gets the four listeners, and is given to that
    request.  Either way the connect leaves the list of those in flight. *)
Theorem tunnel_result_for_request i c req st :
  in_flight st !! i = Some c → conn_callback c = AddRequestCb req →
  (∀ err,
     let st' := step (TunnelResult i (Some err)) st in
     log st' = log st ++ [EmitError req err]
     ∧ sockets st' = sockets st ∧ freeSockets st' = freeSockets st
     ∧ requests st' = requests st ∧ heap st' = heap st
     ∧ next_sock st' = next_sock st
     ∧ in_flight st' = take i (in_flight st) ++ drop (S i) (in_flight st))
  ∧ (let s := next_sock st in
     let reap := truthy (get (conn_options c) "keepAliveTimeoutMsecs") in
     let st' := step (TunnelResult i None) st in
     handed (log st') = handed (log st) ++ [(req_id req, s)]
     ∧ failed (log st') = failed (log st)
     ∧ heap st'
       = <[s := Socket false (Some req) reap reap 0 (conn_options c)
                       true true true true]> (heap st)
     ∧ (∀ n, arr (sockets st') n
             = if decide (conn_name c = n)
               then arr (sockets st) (conn_name c) ++ [s]
               else arr (sockets st) n)
     ∧ freeSockets st' = freeSockets st
     ∧ requests st' = requests st
     ∧ next_sock st' = S s
     ∧ in_flight st' = take i (in_flight st) ++ drop (S i) (in_flight st)).
Proof.
  intros Hc Hcb. split.
  - intros err st'. subst st'. simpl. unfold tunnel_result.
    rewrite Hc. unfold connected. rewrite Hcb. done.
  - intros s reap st'.
    set (st1 := (new_socket
                   (with_in_flight (fun l => take i l ++ drop (S i) l) st)).2).
    assert (Heq : st' = _afterCreateSocket (socket_emit_free depth)
                          (conn_name c) (conn_options c) s (AddRequestCb req) st1).
    { subst st'. simpl. unfold tunnel_result. rewrite Hc.
      destruct c as [cn co cb]. simpl in Hcb. by subst cb. }
    rewrite Heq. clear Heq st'.
    assert (Hfresh : heap st1 !! s = Some fresh_socket)
      by (subst st1; simpl; by rewrite lookup_insert_eq).
    destruct (afterCreateSocket_for_request (socket_emit_free depth)
                (conn_name c) (conn_options c) s req st1 Hfresh)
      as (Hl & Hh & Hs & Hf & Hr & Hi & Hn & _).
    fold reap in Hl, Hh.
    rewrite Hl, Hh, Hf, Hr, Hi, Hn. subst st1. simpl. repeat split.
    + unfold handed. rewrite !omap_app. simpl. by destruct reap.
    + unfold failed. rewrite !omap_app. simpl.
      destruct reap; simpl; by rewrite !app_nil_r.
    + by rewrite insert_insert_eq.
    + exact Hs.
Qed.

Lemma tunnel_result_for_request_witness :
  let st := run [AddRequest (Scenario.R 1) Scenario.example_org]
                Tunnel.tunnelled in
  failed (log (step (TunnelResult 0 (Some "ECONNREFUSED")) st))
  = [(1, "ECONNREFUSED")]
  ∧ handed (log (step (TunnelResult 0 None) st)) = [(1, 0)].
Proof.
  intros st.
  assert (Hc : in_flight st !! 0
               = Some (Connecting "example.org:80::"
                         (<["encoding" := VNull]>
                            (socket_options (agent st) (Scenario.R 1)
                               (destination_options Scenario.example_org)))
                         (AddRequestCb (Scenario.R 1))))
    by (by vm_compute).
  destruct (tunnel_result_for_request 0 _ (Scenario.R 1) st Hc eq_refl)
    as [Hfail Hok].
  split.
  - destruct (Hfail "ECONNREFUSED") as (Hl & _). rewrite Hl. by vm_compute.
  - destruct Hok as (Hh & _). rewrite Hh. by vm_compute.
Defined.

(** ** Removal and what it leaves alone *)

Lemma touches_only_refl s st : touches_only s st st.
Proof. by split. Qed.

Lemma touches_only_trans s st1 st2 st3 :
  touches_only s st1 st2 → touches_only s st2 st3 → touches_only s st1 st3.
Proof.
  intros [Hh1 Hf1 Hs1] [Hh2 Hf2 Hs2]. split.
  - intros x Hx. rewrite Hh2 by done. by apply Hh1.
  - congruence.
  - intros n x Hx. rewrite Hs2 by done. by apply Hs1.
Qed.

Lemma touches_only_update_socket s f st :
  touches_only s st (update_socket s f st).
Proof.
  split; try done. intros x Hx. simpl. by rewrite lookup_alter_ne.
Qed.

Lemma elem_of_splice_first_ne x s a :
  x ≠ s → x ∈ splice_first s a ↔ x ∈ a.
Proof.
  intros Hx. split; [apply elem_of_splice_first|].
  induction a as [|y a IH]; [done|]. simpl.
  intros [->|Hin]%elem_of_cons.
  - rewrite decide_False by done. by left.
  - case_decide; [done|]. right. by apply IH.
Qed.

Lemma touches_only_remove_from_sets s name st :
  is_destroyed st s = false →
  touches_only s st (remove_from_sets s name st).
Proof.
  intros Hd. split.
  - intros x _. by rewrite heap_remove_from_sets.
  - by rewrite freeSockets_remove_from_sets, Hd.
  - intros n x Hx. rewrite sockets_remove_from_sets, arr_remove_from.
    case_decide; [subst n|done]. by apply elem_of_splice_first_ne.
Qed.

Lemma touches_only_push s name st :
  touches_only s st
    (with_sockets
       <[name := arr (sockets match sockets st !! name with
                              | None => with_sockets <[name := []]> st
                              | Some _ => st
                              end) name ++ [s]]>
       match sockets st !! name with
       | None => with_sockets <[name := []]> st
       | Some _ => st
       end).
Proof.
  split.
  - intros x _. by destruct (sockets st !! name).
  - by destruct (sockets st !! name).
  - intros n x Hx.
    assert (Harr : arr (sockets match sockets st !! name with
                                 | None => with_sockets <[name := []]> st
                                 | Some _ => st
                                 end) name = arr (sockets st) name).
    { destruct (sockets st !! name) eqn:Hn; [done|]. simpl.
      rewrite arr_insert, decide_True by done. by rewrite (arr_None _ _ Hn). }
    rewrite Harr.
    assert (Hview : ∀ m, arr (sockets (with_sockets
                      <[name := arr (sockets st) name ++ [s]]> m)) n
                    = if decide (name = n) then arr (sockets st) name ++ [s]
                      else arr (sockets m) n).
    { intros m. simpl. by rewrite arr_insert. }
    rewrite Hview. case_decide; [subst n|].
    + rewrite elem_of_app, list_elem_of_singleton.
      split; [intros [Hin|Heq]; [exact Hin | by destruct Hx] | by left].
    + destruct (sockets st !! name) eqn:Hn; [done|]. simpl.
      by rewrite arr_insert, decide_False.
Qed.

(** The listener for ['free'] on a socket that carries no request and is
    not destroyed works on that socket alone. *)
Lemma on_free_touches_only rec s options st :
  unused st s → touches_only s st (on_free rec s options st).
Proof.
  intros (k & Hk & Hd & Hm). unfold on_free.
  assert (Hdst : is_destroyed st s = false) by (unfold is_destroyed; by rewrite Hk).
  rewrite Hdst.
  assert (Hpool : arr (requests st) (getName options) = [] →
                  touches_only s st (pool_or_destroy rec s options st)).
  { intros Hq. unfold pool_or_destroy. rewrite Hk. simpl. rewrite Hm. simpl.
    rewrite removeSocket_no_queue by done.
    eapply touches_only_trans; [by apply touches_only_remove_from_sets|].
    split; try done. intros x Hx. simpl. by rewrite lookup_alter_ne. }
  destruct (requests st !! getName options) as [[|req rest]|] eqn:Hq.
  - apply Hpool. by apply arr_lookup.
  - destruct (decide (length rest = 0)); split; try done;
      intros x Hx; simpl; by rewrite lookup_alter_ne.
  - apply Hpool. by apply arr_None.
Qed.

(** The replacement connection that [removeSocket] opens works on the new
    socket alone: no other socket is touched in the heap or moved in the
    registry. *)
Lemma replacement_touches_only req options st :
  touches_only (next_sock st) st
    (createSocket (socket_emit_free depth) req options RemoveSocketCb st).
Proof.
  unfold createSocket, _createConnection.
  destruct (tunnelClient (agent st)); [by split|].
  unfold new_socket, connected, _afterCreateSocket.
  set (s := next_sock st). set (o := <["encoding" := VNull]> _).
  set (name := getName _).
  set (st1 := emit (CreateConnection o s) _).
  assert (H1 : touches_only s st st1).
  { subst st1. split; try done. intros x Hx. simpl. by rewrite lookup_insert_ne. }
  assert (Hk1 : heap st1 !! s = Some fresh_socket)
    by (subst st1; simpl; by rewrite lookup_insert_eq).
  clearbody st1.
  set (st2 := with_sockets _ _).
  assert (H2 : touches_only s st1 st2) by apply touches_only_push.
  assert (Hk2 : heap st2 !! s = Some fresh_socket).
  { subst st2. simpl. by destruct (sockets st1 !! name). }
  clearbody st2.
  set (st3 := if truthy (get o "keepAliveTimeoutMsecs") then _ else st2).
  assert (H3 : touches_only s st2 st3
               ∧ ∃ k, heap st3 !! s = Some k ∧ destroyed k = false
                      ∧ _httpMessage k = None).
  { subst st3. destruct (truthy _).
    - split.
      + split; try done. intros x Hx. simpl. by rewrite lookup_alter_ne.
      + exists (set_reapTimeout fresh_socket). simpl.
        by rewrite lookup_alter, decide_True, Hk2.
    - split; [apply touches_only_refl | by exists fresh_socket]. }
  destruct H3 as [H3 (k3 & Hk3 & Hd3 & Hm3)]. clearbody st3.
  set (st4 := update_socket s (install_listeners o) st3).
  assert (H4 : touches_only s st3 st4) by apply touches_only_update_socket.
  assert (Hk4 : heap st4 !! s = Some (install_listeners o k3)).
  { subst st4. simpl. by rewrite lookup_alter, decide_True, Hk3. }
  clearbody st4.
  simpl. unfold depth. rewrite socket_emit_free_S, Hk4. simpl.
  eapply touches_only_trans; [exact H1|].
  eapply touches_only_trans; [exact H2|].
  eapply touches_only_trans; [exact H3|].
  eapply touches_only_trans; [exact H4|].
  apply on_free_touches_only. by exists (install_listeners o k3).
Qed.

Lemma removeSocket_touches_only s options st :
  touches_only (next_sock st) (remove_from_sets s (getName options) st)
    (removeSocket (socket_emit_free depth) s options st).
Proof.
  unfold removeSocket.
  destruct (requests _ !! getName options) as [[|req q]|];
    try apply touches_only_refl.
  rewrite <- (next_sock_remove_from_sets s (getName options) st).
  apply replacement_touches_only.
Qed.

(** X12. When a socket that the agent listens to emits ['close'], it is
    destroyed and removed from the busy and the free array of its
    destination, whether or not a request waits; every other socket made
    so far stays in the arrays it was in. *)
Theorem close_removes_socket s st k :
  reachable st →
  heap st !! s = Some k → has_onClose k = true →
  let name := getName (closure_options k) in
  let st' := step (SocketClose s) st in
  (s ∉ arr (sockets st') name)
  ∧ (s ∉ arr (freeSockets st') name)
  ∧ is_destroyed st' s = true
  ∧ (∀ n x, x ≠ s → x < next_sock st →
       (x ∈ arr (sockets st') n ↔ x ∈ arr (sockets st) n)
       ∧ (x ∈ arr (freeSockets st') n ↔ x ∈ arr (freeSockets st) n)).
Proof.
  intros Hreach Hk Hhook name st'. subst st'.
  pose proof (reachable_wf _ Hreach) as Hwf.
  assert (Hlt : s < next_sock st) by (apply (wf_heap _ Hwf); by eexists).
  simpl. unfold onClose.
  set (st1 := update_socket s (set_destroyed true) st).
  assert (Hk1 : heap st1 !! s = Some (set_destroyed true k)).
  { subst st1. simpl. by rewrite lookup_alter, decide_True, Hk. }
  rewrite Hk1. simpl. rewrite Hhook. fold name.
  assert (Hd1 : is_destroyed st1 s = true)
    by (unfold is_destroyed; by rewrite Hk1).
  pose proof (removeSocket_touches_only s (closure_options k) st1) as Hframe.
  fold name in Hframe.
  set (st2 := remove_from_sets s name st1) in *.
  set (st3 := removeSocket _ s (closure_options k) st1) in *.
  assert (Hn1 : next_sock st1 = next_sock st) by done.
  rewrite Hn1 in Hframe.
  assert (Hne : s ≠ next_sock st) by lia.
  pose proof (wf_nodup _ Hwf name) as (Hb & _ & Hf)%NoDup_app.
  assert (Hs2 : ∀ n, arr (sockets st2) n
                     = if decide (name = n) then splice_first s (arr (sockets st) name)
                       else arr (sockets st) n).
  { intros n. subst st2. by rewrite sockets_remove_from_sets, arr_remove_from. }
  assert (Hf2 : ∀ n, arr (freeSockets st2) n
                     = if decide (name = n)
                       then splice_first s (arr (freeSockets st) name)
                       else arr (freeSockets st) n).
  { intros n. subst st2.
    by rewrite freeSockets_remove_from_sets, Hd1, arr_remove_from. }
  split; [|split; [|split; [|intros n x Hxs Hxlt; split]]].
  - rewrite (to_sockets _ _ _ Hframe) by done.
    rewrite Hs2, decide_True by done. by apply splice_first_removes.
  - rewrite (to_freeSockets _ _ _ Hframe).
    rewrite Hf2, decide_True by done. by apply splice_first_removes.
  - unfold is_destroyed. rewrite (to_heap _ _ _ Hframe) by done.
    subst st2. by rewrite heap_remove_from_sets, Hk1.
  - destruct (decide (x = next_sock st)) as [->|Hx]; [lia|].
    rewrite (to_sockets _ _ _ Hframe) by done. rewrite Hs2.
    case_decide; [subst n|done]. by apply elem_of_splice_first_ne.
  - rewrite (to_freeSockets _ _ _ Hframe), Hf2.
    case_decide; [subst n|done]. by apply elem_of_splice_first_ne.
Qed.

Lemma close_removes_socket_witness :
  let st := run [AddRequest (Scenario.R 1) Scenario.example_org;
                 AddRequest (Scenario.R 2) Scenario.example_org]
                Scenario.one_socket in
  (0 ∉ arr (sockets (step (SocketClose 0) st)) "example.org:80::")
  ∧ is_destroyed (step (SocketClose 0) st) 0 = true.
Proof.
  intros st.
  assert (Hreach : reachable st).
  { apply reachable_run,
      (reachable_new {[ "maxSockets" := VNum 1; "keepAlive" := VBool true ]} None).
    by vm_compute. }
  set (k := Socket false (Some (Scenario.R 1)) false false 0
       (<["encoding" := VNull]>
          (socket_options (agent st) (Scenario.R 1)
             (destination_options Scenario.example_org)))
       true true true true).
  assert (Hk : heap st !! 0 = Some k) by (by vm_compute).
  destruct (close_removes_socket 0 st k Hreach Hk eq_refl) as (Hb & _ & Hd & _).
  split; [exact Hb | exact Hd].
Defined.

(** X13. When a socket that the agent listens to emits ['agentRemove'],
    it leaves the busy array of its destination and [onFree], [onClose]
    and [onRemove] are taken off it (a socket that is not destroyed is
    not looked for in the free array).  From then on the agent ignores a
    ['free'], a ['close'] or another ['agentRemove'] of that socket: the
    registry stays as it is and the socket is not destroyed by the
    agent. *)
Theorem agentRemove_detaches s st k :
  reachable st →
  heap st !! s = Some k → has_onRemove k = true →
  let name := getName (closure_options k) in
  let st' := step (SocketAgentRemove s) st in
  heap st' !! s = Some (remove_listeners k)
  ∧ (s ∉ arr (sockets st') name)
  ∧ (destroyed k = false → freeSockets st' = freeSockets st)
  ∧ step (SocketFree s) st' = st'
  ∧ step (SocketAgentRemove s) st' = st'
  ∧ step (SocketClose s) st' = update_socket s (set_destroyed true) st'.
Proof.
  intros Hreach Hk Hhook name st'.
  pose proof (reachable_wf _ Hreach) as Hwf.
  assert (Hlt : s < next_sock st) by (apply (wf_heap _ Hwf); by eexists).
  assert (Hne : s ≠ next_sock st) by lia.
  pose proof (removeSocket_touches_only s (closure_options k) st) as Hframe.
  fold name in Hframe.
  set (st2 := removeSocket (socket_emit_free depth) s (closure_options k) st) in *.
  assert (Hst' : st' = update_socket s remove_listeners st2).
  { subst st'. simpl. unfold onRemove. by rewrite Hk, Hhook. }
  assert (Hk2 : heap st2 !! s = Some k).
  { rewrite (to_heap _ _ _ Hframe) by done. by rewrite heap_remove_from_sets. }
  assert (Hk' : heap st' !! s = Some (remove_listeners k)).
  { rewrite Hst'. simpl. by rewrite lookup_alter, decide_True, Hk2. }
  split; [exact Hk'|]. split; [|split; [|split; [|split]]].
  - rewrite Hst'. simpl. rewrite (to_sockets _ _ _ Hframe) by done.
    rewrite sockets_remove_from_sets, arr_remove_from, decide_True by done.
    pose proof (wf_nodup _ Hwf name) as (Hb & _ & _)%NoDup_app.
    by apply splice_first_removes.
  - intros Hd. rewrite Hst'. simpl. rewrite (to_freeSockets _ _ _ Hframe).
    rewrite freeSockets_remove_from_sets. unfold is_destroyed.
    by rewrite Hk, Hd.
  - simpl. unfold onFree. by rewrite socket_emit_free_S, Hk'.
  - simpl. unfold onRemove. by rewrite Hk'.
  - simpl. unfold onClose.
    assert (Hk'' : heap (update_socket s (set_destroyed true) st') !! s
                   = Some (set_destroyed true (remove_listeners k))).
    { simpl. by rewrite lookup_alter, decide_True, Hk'. }
    by rewrite Hk''.
Qed.

Lemma agentRemove_detaches_witness :
  let st := run [AddRequest (Scenario.R 1) Scenario.example_org]
                Scenario.one_socket in
  let st' := step (SocketAgentRemove 0) st in
  (0 ∉ arr (sockets st') "example.org:80::")
  ∧ step (SocketFree 0) st' = st'.
Proof.
  intros st st'.
  assert (Hreach : reachable st).
  { apply reachable_run,
      (reachable_new {[ "maxSockets" := VNum 1; "keepAlive" := VBool true ]} None).
    by vm_compute. }
  set (k := Socket false (Some (Scenario.R 1)) false false 0
       (<["encoding" := VNull]>
          (socket_options (agent st) (Scenario.R 1)
             (destination_options Scenario.example_org)))
       true true true true).
  assert (Hk : heap st !! 0 = Some k) by (by vm_compute).
  destruct (agentRemove_detaches 0 st k Hreach Hk eq_refl)
    as (_ & Hb & _ & Hfree & _).
  split; [exact Hb | exact Hfree].
Defined.

(** ** Replacement connections *)

(** What the listener for ['free'] does with a socket that carries no
    request and is not destroyed: it is handed to the first waiting
    request, or taken out of the busy array and destroyed. *)
Lemma on_free_unused_outcome rec s options st k :
  heap st !! s = Some k → destroyed k = false → _httpMessage k = None →
  let name := getName options in
  on_free rec s options st
  = match requests st !! name with
    | Some (req :: rest) =>
        let st1 := onSocket req s (with_requests <[name := rest]> st) in
        if decide (length rest = 0) then with_requests (delete name) st1 else st1
    | _ => socket_destroy s (remove_from_sets s name st)
    end.
Proof.
  intros Hk Hd Hm name. unfold on_free. fold name.
  assert (Hdst : is_destroyed st s = false) by (unfold is_destroyed; by rewrite Hk).
  rewrite Hdst.
  assert (Hpool : arr (requests st) name = [] →
                  pool_or_destroy rec s options st
                  = socket_destroy s (remove_from_sets s name st)).
  { intros Hq. unfold pool_or_destroy. rewrite Hk. simpl. rewrite Hm. simpl.
    by rewrite removeSocket_no_queue. }
  destruct (requests st !! name) as [[|req rest]|] eqn:Hq; try done.
  - apply Hpool. by apply arr_lookup.
  - apply Hpool. by apply arr_None.
Qed.

(** What [_afterCreateSocket] does with a socket just made, when the
    callback is the one of [removeSocket]. *)
Lemma afterCreateSocket_for_replacement name options s st :
  heap st !! s = Some fresh_socket →
  getName options = name →
  (∀ n, s ∉ arr (sockets st) n) →
  let reap := truthy (get options "keepAliveTimeoutMsecs") in
  let st' := _afterCreateSocket (socket_emit_free depth) name options s
               RemoveSocketCb st in
  freeSockets st' = freeSockets st
  ∧ in_flight st' = in_flight st
  ∧ next_sock st' = next_sock st
  ∧ (∀ x, x ≠ s → heap st' !! x = heap st !! x)
  ∧ (∀ n, n ≠ name → requests st' !! n = requests st !! n)
  ∧ failed (log st') = failed (log st)
  ∧ match requests st !! name with
    | Some (req :: rest) =>
        handed (log st') = handed (log st) ++ [(req_id req, s)]
        ∧ closed (log st') = closed (log st)
        ∧ arr (requests st') name = rest
        ∧ heap st' !! s
          = Some (Socket false (Some req) reap reap 0 options
                         true true true true)
        ∧ ∀ n, arr (sockets st') n
               = if decide (name = n) then arr (sockets st) name ++ [s]
                 else arr (sockets st) n
    | _ =>
        handed (log st') = handed (log st)
        ∧ closed (log st') = closed (log st) ++ [s]
        ∧ requests st' = requests st
        ∧ heap st' !! s
          = Some (Socket true None reap reap 0 options true true true true)
        ∧ ∀ n, arr (sockets st') n = arr (sockets st) n
    end.
Proof.
  intros Hs Hname Hnew reap st'. subst st' reap. unfold _afterCreateSocket.
  set (st0 := match sockets st !! name with
              | None => with_sockets <[name := []]> st
              | Some _ => st
              end).
  assert (H0 : freeSockets st0 = freeSockets st
               ∧ arr (sockets st0) name = arr (sockets st) name
               ∧ (∀ n, n ≠ name → arr (sockets st0) n = arr (sockets st) n)
               ∧ requests st0 = requests st ∧ heap st0 = heap st
               ∧ log st0 = log st ∧ in_flight st0 = in_flight st
               ∧ next_sock st0 = next_sock st).
  { subst st0. destruct (sockets st !! name) eqn:Hn; [done|].
    simpl. repeat split.
    - rewrite arr_insert, decide_True by done. by rewrite (arr_None _ _ Hn).
    - intros n Hne. by rewrite arr_insert, decide_False. }
  destruct H0 as (Hf0 & Hs0 & Hs0' & Hr0 & Hh0 & Hl0 & Hi0 & Hn0).
  clearbody st0. rewrite <- Hh0 in Hs.
  set (k := Socket false None
              (truthy (get options "keepAliveTimeoutMsecs"))
              (truthy (get options "keepAliveTimeoutMsecs"))
              0 options true true true true).
  set (st4 := update_socket s (install_listeners options) _).
  assert (H4 : freeSockets st4 = freeSockets st
               ∧ (∀ n, arr (sockets st4) n
                       = if decide (name = n) then arr (sockets st) name ++ [s]
                         else arr (sockets st) n)
               ∧ requests st4 = requests st
               ∧ heap st4 = <[s := k]> (heap st)
               ∧ failed (log st4) = failed (log st)
               ∧ handed (log st4) = handed (log st)
               ∧ closed (log st4) = closed (log st)
               ∧ in_flight st4 = in_flight st
               ∧ next_sock st4 = next_sock st).
  { subst st4 k. destruct (truthy (get options "keepAliveTimeoutMsecs")); simpl;
      rewrite Hf0, Hr0, Hl0, Hi0, Hn0, <- Hh0;
      unfold failed, handed, closed; rewrite ?omap_app; simpl;
      rewrite ?app_nil_r.
    all: split; [done|].
    all: split; [intros n; rewrite arr_insert; case_decide;
                 [by rewrite Hs0|by apply Hs0']|].
    all: split; [done|].
    all: split; [by rewrite (alter_present _ _ _ _ Hs), ?alter_insert_eq|].
    all: done. }
  destruct H4 as (Hf4 & Hs4 & Hr4 & Hh4 & Hx4 & Hd4 & Hc4 & Hi4 & Hn4).
  clearbody st4.
  assert (Hk4 : heap st4 !! s = Some k) by (by rewrite Hh4, lookup_insert_eq).
  simpl. unfold depth. rewrite socket_emit_free_S, Hk4. simpl.
  rewrite (on_free_unused_outcome _ s options st4 k Hk4 eq_refl eq_refl).
  rewrite Hname, Hr4.
  destruct (requests st !! name) as [[|req rest]|] eqn:Hq.
  - (* nobody waits any more *)
    simpl. rewrite heap_remove_from_sets, log_remove_from_sets,
      freeSockets_remove_from_sets, requests_remove_from_sets,
      next_sock_remove_from_sets, sockets_remove_from_sets.
    assert (Hd : is_destroyed st4 s = false)
      by (unfold is_destroyed; by rewrite Hk4).
    rewrite Hd. unfold failed, handed, closed. rewrite !omap_app. simpl.
    rewrite !app_nil_r. fold (failed (log st4)) (handed (log st4)) (closed (log st4)).
    rewrite Hf4, Hx4, Hd4, Hc4, Hr4, Hn4.
    assert (Hin : in_flight (remove_from_sets s name st4) = in_flight st4).
    { unfold remove_from_sets. simpl. by destruct (is_destroyed _ s). }
    rewrite Hin, Hi4. repeat split; try done.
    + intros x Hx. rewrite lookup_alter_ne by done.
      by rewrite Hh4, lookup_insert_ne.
    + by rewrite lookup_alter, decide_True, Hk4.
    + intros n. rewrite arr_remove_from. case_decide; [subst n|].
      * rewrite Hs4, decide_True by done.
        assert (Hsp : ∀ a, s ∉ a → splice_first s (a ++ [s]) = a).
        { induction a as [|y a IH]; simpl; [by rewrite decide_True|].
          intros [Hy Ha]%not_elem_of_cons. rewrite decide_False by done.
          by rewrite IH. }
        apply Hsp, Hnew.
      * by rewrite Hs4, decide_False.
  - (* the first waiting request gets the socket *)
    assert (Hcommon : ∀ st5,
      heap st5 = alter (set_httpMessage (Some req)) s (heap st4) →
      log st5 = log st4 ++ [OnSocket req s] →
      sockets st5 = sockets st4 →
      (∀ x, x ≠ s → heap st5 !! x = heap st !! x)
      ∧ failed (log st5) = failed (log st)
      ∧ handed (log st5) = handed (log st) ++ [(req_id req, s)]
      ∧ closed (log st5) = closed (log st)
      ∧ heap st5 !! s
        = Some (set_httpMessage (Some req) k)
      ∧ ∀ n, arr (sockets st5) n
             = if decide (name = n) then arr (sockets st) name ++ [s]
               else arr (sockets st) n).
    { intros st5 Hh5 Hl5 Hs5. rewrite Hh5, Hl5, Hs5.
      unfold failed, handed, closed. rewrite !omap_app. simpl.
      rewrite !app_nil_r.
      fold (failed (log st4)) (handed (log st4)) (closed (log st4)).
      rewrite Hx4, Hd4, Hc4. repeat split; try done.
      - intros x Hx. rewrite lookup_alter_ne by done.
        by rewrite Hh4, lookup_insert_ne.
      - by rewrite lookup_alter, decide_True, Hk4. }
    destruct (decide (length rest = 0)) as [Hrest|Hrest]; simpl;
      rewrite Hf4, Hi4, Hn4;
      (destruct (Hcommon (onSocket req s (with_requests <[name := rest]> st4))
                   eq_refl eq_refl eq_refl)
         as (Hh5 & Hx5 & Hd5 & Hc5 & Hk5 & Hs5)).
    + apply nil_length_inv in Hrest. subst rest.
      repeat split; try done.
      * intros n Hn. rewrite lookup_delete_ne by done.
        by rewrite lookup_insert_ne, Hr4.
      * by rewrite arr_delete, decide_True.
    + repeat split; try done.
      * intros n Hn. by rewrite lookup_insert_ne, Hr4.
      * by rewrite arr_insert, decide_True.
  - (* no queue entry *)
    simpl. rewrite heap_remove_from_sets, log_remove_from_sets,
      freeSockets_remove_from_sets, requests_remove_from_sets,
      next_sock_remove_from_sets, sockets_remove_from_sets.
    assert (Hd : is_destroyed st4 s = false)
      by (unfold is_destroyed; by rewrite Hk4).
    rewrite Hd. unfold failed, handed, closed. rewrite !omap_app. simpl.
    rewrite !app_nil_r. fold (failed (log st4)) (handed (log st4)) (closed (log st4)).
    rewrite Hf4, Hx4, Hd4, Hc4, Hr4, Hn4.
    assert (Hin : in_flight (remove_from_sets s name st4) = in_flight st4).
    { unfold remove_from_sets. simpl. by destruct (is_destroyed _ s). }
    rewrite Hin, Hi4. repeat split; try done.
    + intros x Hx. rewrite lookup_alter_ne by done.
      by rewrite Hh4, lookup_insert_ne.
    + by rewrite lookup_alter, decide_True, Hk4.
    + intros n. rewrite arr_remove_from. case_decide; [subst n|].
      * rewrite Hs4, decide_True by done.
        assert (Hsp : ∀ a, s ∉ a → splice_first s (a ++ [s]) = a).
        { induction a as [|y a IH]; simpl; [by rewrite decide_True|].
          intros [Hy Ha]%not_elem_of_cons. rewrite decide_False by done.
          by rewrite IH. }
        apply Hsp, Hnew.
      * by rewrite Hs4, decide_False.
Qed.

Lemma getName_encoding o v : getName (<["encoding" := v]> o) = getName o.
Proof.
  rewrite !getName_rendered. unfold rendered.
  by rewrite !lookup_insert_ne by done.
Qed.

Lemma splice_first_incl x s a : x ∈ splice_first s a → x ∈ a.
Proof.
  induction a as [|y a IH]; [done|]. simpl. case_decide.
  - intros Hx. by right.
  - intros [->|Hx]%elem_of_cons; [by left|]. right. by apply IH.
Qed.

(** X14. With no tunnel client, when a socket that the agent listens to
    closes while requests wait for its destination, [removeSocket] opens
    one new connection with the options of the closed socket and the
    oldest waiting request gets it: the request leaves the front of the
    queue, the new socket takes the place of the closed one at the back
    of the busy array, and nothing is failed or destroyed. *)
Theorem close_serves_oldest_waiting s st k req rest :
  reachable st →
  tunnelClient (agent st) = None →
  heap st !! s = Some k → has_onClose k = true →
  let name := getName (closure_options k) in
  requests st !! name = Some (req :: rest) →
  getName (socket_options (agent st) req (closure_options k)) = name →
  let s' := next_sock st in
  let st' := step (SocketClose s) st in
  handed (log st') = handed (log st) ++ [(req_id req, s')]
  ∧ arr (requests st') name = rest
  ∧ arr (sockets st') name = splice_first s (arr (sockets st) name) ++ [s']
  ∧ (∃ k', heap st' !! s' = Some k' ∧ _httpMessage k' = Some req
           ∧ destroyed k' = false
           ∧ getName (closure_options k') = name)
  ∧ next_sock st' = S s'
  ∧ failed (log st') = failed (log st)
  ∧ closed (log st') = closed (log st).
Proof.
  intros Hreach Htc Hk Hhook name Hq Hname s' st'. subst st'.
  pose proof (reachable_wf _ Hreach) as Hwf.
  simpl. unfold onClose.
  set (st1 := update_socket s (set_destroyed true) st).
  assert (Hk1 : heap st1 !! s = Some (set_destroyed true k)).
  { subst st1. simpl. by rewrite lookup_alter, decide_True, Hk. }
  rewrite Hk1. simpl. rewrite Hhook. fold name.
  unfold removeSocket. fold name.
  set (st2 := remove_from_sets s name st1).
  assert (Hr2 : requests st2 = requests st)
    by (subst st2; by rewrite requests_remove_from_sets).
  assert (Hl2 : log st2 = log st)
    by (subst st2; by rewrite log_remove_from_sets).
  assert (Hn2 : next_sock st2 = next_sock st)
    by (subst st2; by rewrite next_sock_remove_from_sets).
  assert (Ha2 : agent st2 = agent st).
  { subst st2. unfold remove_from_sets. by destruct (is_destroyed _ s). }
  assert (Hs2 : ∀ n, arr (sockets st2) n
                     = if decide (name = n)
                       then splice_first s (arr (sockets st) name)
                       else arr (sockets st) n).
  { intros n. subst st2. by rewrite sockets_remove_from_sets, arr_remove_from. }
  rewrite Hr2, Hq.
  unfold createSocket, _createConnection. rewrite Ha2, Htc, Hname.
  unfold new_socket. rewrite Hn2. fold s'. unfold connected.
  set (options := <["encoding" := VNull]> (socket_options _ _ _)).
  set (st3 := emit (CreateConnection options s') _).
  assert (Hfresh : heap st3 !! s' = Some fresh_socket)
    by (subst st3; simpl; by rewrite lookup_insert_eq).
  assert (Ho : getName options = name)
    by (subst options; by rewrite getName_encoding).
  assert (Hnew : ∀ n, s' ∉ arr (sockets st3) n).
  { intros n Hin.
    assert (Hin' : s' ∈ arr (sockets st) n).
    { change (sockets st3) with (sockets st2) in Hin. rewrite Hs2 in Hin.
      case_decide; [subst n|done]. by apply splice_first_incl in Hin. }
    assert (s' < next_sock st); [|subst s'; lia].
    apply (wf_next _ Hwf n). apply elem_of_app. by left. }
  destruct (afterCreateSocket_for_replacement name options s' st3
              Hfresh Ho Hnew)
    as (_ & _ & Hn' & _ & _ & Hfail & Hcase).
  change (requests st3) with (requests st2) in Hcase.
  rewrite Hr2, Hq in Hcase.
  destruct Hcase as (Hh & Hc & Hr & Hk' & Hs').
  rewrite Hh, Hc, Hr, Hfail, Hn', Hs', decide_True by done.
  change (sockets st3) with (sockets st2). rewrite Hs2, decide_True by done.
  assert (Hl3 : log st3 = log st ++ [CreateConnection options s'])
    by (subst st3; simpl; by rewrite Hl2).
  rewrite Hl3. unfold handed, failed, closed. rewrite !omap_app. simpl.
  rewrite !app_nil_r.
  split; [done|]. split; [done|]. split; [done|].
  split; [eexists; split; [exact Hk'|]; by repeat split|].
  by repeat split.
Qed.

Lemma close_serves_oldest_waiting_witness :
  let st := run [AddRequest (Scenario.R 1) Scenario.example_org;
                 AddRequest (Scenario.R 2) Scenario.example_org]
                Scenario.one_socket in
  handed (log (step (SocketClose 0) st)) = [(1, 0); (2, 1)]
  ∧ arr (sockets (step (SocketClose 0) st)) "example.org:80::" = [1].
Proof.
  intros st.
  assert (Hreach : reachable st).
  { apply reachable_run,
      (reachable_new {[ "maxSockets" := VNum 1; "keepAlive" := VBool true ]} None).
    by vm_compute. }
  set (k := Socket false (Some (Scenario.R 1)) false false 0
       (<["encoding" := VNull]>
          (socket_options (agent st) (Scenario.R 1)
             (destination_options Scenario.example_org)))
       true true true true).
  assert (Hk : heap st !! 0 = Some k) by (by vm_compute).
  assert (Htc : tunnelClient (agent st) = None) by (by vm_compute).
  assert (Hq : requests st !! getName (closure_options k)
               = Some [Scenario.R 2]) by (by vm_compute).
  assert (Hname : getName (socket_options (agent st) (Scenario.R 2)
                             (closure_options k))
                  = getName (closure_options k)) by (by vm_compute).
  destruct (close_serves_oldest_waiting 0 st k (Scenario.R 2) []
              Hreach Htc Hk eq_refl Hq Hname) as (Hh & _ & Hs & _).
  split.
  - rewrite Hh. by vm_compute.
  - replace "example.org:80::" with (getName (closure_options k))
      by (by vm_compute).
    rewrite Hs. by vm_compute.
Defined.

(** X15. When a connect that [removeSocket] started through the tunnel
    client reports a socket, the socket is filed and released at once:
    if a request still waits under the name of the connect, the oldest
    one gets the socket, which stays at the back of the busy array; if
    none waits any more, the new socket is destroyed and taken out of the
    registry again, and no request is answered.  Either way no request is
    failed, the free arrays are not touched and the connect leaves the
    list of those in flight. *)
Theorem tunnel_result_for_replacement i c st :
  reachable st →
  in_flight st !! i = Some c → conn_callback c = RemoveSocketCb →
  getName (conn_options c) = conn_name c →
  let s := next_sock st in
  let name := conn_name c in
  let st' := step (TunnelResult i None) st in
  in_flight st' = take i (in_flight st) ++ drop (S i) (in_flight st)
  ∧ next_sock st' = S s
  ∧ freeSockets st' = freeSockets st
  ∧ failed (log st') = failed (log st)
  ∧ match requests st !! name with
    | Some (req :: rest) =>
        handed (log st') = handed (log st) ++ [(req_id req, s)]
        ∧ closed (log st') = closed (log st)
        ∧ arr (requests st') name = rest
        ∧ arr (sockets st') name = arr (sockets st) name ++ [s]
    | _ =>
        handed (log st') = handed (log st)
        ∧ closed (log st') = closed (log st) ++ [s]
        ∧ requests st' = requests st
        ∧ (∀ n, arr (sockets st') n = arr (sockets st) n)
        ∧ is_destroyed st' s = true
    end.
Proof.
  intros Hreach Hc Hcb Ho s name st'.
  pose proof (reachable_wf _ Hreach) as Hwf.
  set (st1 := (new_socket
                 (with_in_flight (fun l => take i l ++ drop (S i) l) st)).2).
  assert (Heq : st' = _afterCreateSocket (socket_emit_free depth)
                        name (conn_options c) s RemoveSocketCb st1).
  { subst st' name. simpl. unfold tunnel_result. rewrite Hc.
    destruct c as [cn co cb]. simpl in Hcb. by subst cb. }
  rewrite Heq. clear Heq st'.
  assert (Hfresh : heap st1 !! s = Some fresh_socket)
    by (subst st1; simpl; by rewrite lookup_insert_eq).
  assert (Hnew : ∀ n, s ∉ arr (sockets st1) n).
  { intros n Hin. change (sockets st1) with (sockets st) in Hin.
    assert (s < next_sock st); [|subst s; lia].
    apply (wf_next _ Hwf n). apply elem_of_app. by left. }
  destruct (afterCreateSocket_for_replacement name (conn_options c) s st1
              Hfresh Ho Hnew)
    as (Hf & Hi & Hn & _ & _ & Hfail & Hcase).
  rewrite Hf, Hi, Hn, Hfail.
  change (requests st1) with (requests st) in Hcase.
  split; [done|]. split; [done|]. split; [done|]. split; [done|].
  destruct (requests st !! name) as [[|req rest]|].
  - destruct Hcase as (Hh & Hcl & Hr & Hk & Hs).
    rewrite Hh, Hcl, Hr. repeat split; try done.
    unfold is_destroyed. by rewrite Hk.
  - destruct Hcase as (Hh & Hcl & Hr & Hk & Hs).
    rewrite Hh, Hcl, Hr, Hs, decide_True by done. done.
  - destruct Hcase as (Hh & Hcl & Hr & Hk & Hs).
    rewrite Hh, Hcl, Hr. repeat split; try done.
    unfold is_destroyed. by rewrite Hk.
Qed.

Lemma tunnel_result_for_replacement_witness :
  handed (log (step (TunnelResult 0 None) Tunnel.replacing)) = [(1, 0); (2, 1)]
  ∧ closed (log (step (TunnelResult 0 None)
                   (step (TunnelResult 0 None)
                      (step (SocketClose 0) Tunnel.replacing))))
    = [2].
Proof.
  assert (Hreach : reachable Tunnel.replacing).
  { apply reachable_run,
      (reachable_new {[ "maxSockets" := VNum 1 ]}
         (Some (ProxyOptions (VStr "http:") VUndefined (VStr "proxy")
                             (VNum 3128)))).
    by vm_compute. }
  set (c := Connecting "example.org:80::"
              (<["encoding" := VNull]>
                 (socket_options (agent Tunnel.replacing) (Scenario.R 2)
                    (<["encoding" := VNull]>
                       (socket_options (agent Tunnel.replacing) (Scenario.R 1)
                          (destination_options Scenario.example_org)))))
              RemoveSocketCb).
  split.
  - assert (Hc : in_flight Tunnel.replacing !! 0 = Some c) by (by vm_compute).
    assert (Ho : getName (conn_options c) = conn_name c) by (by vm_compute).
    pose proof (tunnel_result_for_replacement 0 c Tunnel.replacing
                  Hreach Hc eq_refl Ho) as (_ & _ & _ & _ & Hcase).
    replace (requests Tunnel.replacing !! conn_name c)
      with (Some [Scenario.R 2]) in Hcase by (by vm_compute).
    destruct Hcase as (Hh & _). rewrite Hh. by vm_compute.
  - set (st := step (TunnelResult 0 None)
                 (step (SocketClose 0) Tunnel.replacing)).
    assert (Hreach' : reachable st).
    { subst st. apply reachable_step, reachable_step, Hreach. }
    assert (Hc : in_flight st !! 0 = Some c) by (by vm_compute).
    assert (Ho : getName (conn_options c) = conn_name c) by (by vm_compute).
    pose proof (tunnel_result_for_replacement 0 c st
                  Hreach' Hc eq_refl Ho) as (_ & _ & _ & _ & Hcase).
    replace (requests st !! conn_name c)
      with (@None (list request)) in Hcase by (by vm_compute).
    destruct Hcase as (_ & Hcl & _). rewrite Hcl. by vm_compute.
Defined.

(** ** Every request is accounted for *)

Lemma addRequest_free_requests req d st socket rest :
  freeSockets st !! getName (destination_options d) = Some (socket :: rest) →
  requests (addRequest req d st) = requests st.
Proof.
  intros Hfree. unfold addRequest.
  set (name := getName (destination_options d)) in *.
  destruct (sockets st !! name); simpl; rewrite Hfree;
    by destruct (decide (length rest = 0)).
Qed.

(** X16. [addRequest] never drops a request and never fails it on the
    spot.  In any state of the agent, when it returns one of
    three things has happened to the request: it was given a socket (a
    free one, or one just made by the direct connector); or it was put at
    the back of the queue of its destination; or a connect through the
    tunnel client was started whose callback will answer it. *)
Theorem addRequest_accounts_for_request req d st :
  let name := getName (destination_options d) in
  let st' := addRequest req d st in
  failed (log st') = failed (log st)
  ∧ ((∃ s, handed (log st') = handed (log st) ++ [(req_id req, s)]
           ∧ requests st' = requests st
           ∧ in_flight st' = in_flight st)
     ∨ (arr (requests st') name = arr (requests st) name ++ [req]
        ∧ handed (log st') = handed (log st)
        ∧ in_flight st' = in_flight st)
     ∨ (∃ c, in_flight st' = in_flight st ++ [c]
             ∧ conn_callback c = AddRequestCb req
             ∧ handed (log st') = handed (log st)
             ∧ requests st' = requests st)).
Proof.
  intros name st'. subst st'.
  destruct (freeSockets st !! name) as [[|socket rest]|] eqn:Hfree.
  2:{ (* a free socket *)
    destruct (addRequest_free_log req d st socket rest Hfree) as (Hl & Hi).
    rewrite Hl, Hi, (addRequest_free_requests req d st socket rest Hfree).
    unfold failed, handed. rewrite !omap_app. simpl. rewrite app_nil_r.
    split; [done|]. left. by exists socket. }
  all: assert (Hnone : arr (freeSockets st) name = [])
         by (unfold arr; by rewrite Hfree).
  all: destruct (lt_limit (length (arr (sockets st) name))
                          (maxSockets (agent st))) eqn:Hlim.
  all: try (destruct (addRequest_queues req d st Hnone Hlim)
              as (Hr & _ & _ & _ & _ & Hl & Hi & _);
            fold name in Hr; rewrite Hl, Hi, Hr;
            split; [done|]; right; left; done).
  all: destruct (tunnelClient (agent st)) as [tc|] eqn:Htc.
  all: try (destruct (addRequest_starts_connect req d st tc Htc Hnone Hlim)
              as (Hi & Hl & _ & _ & Hr & _);
            rewrite Hi, Hl, Hr; unfold failed, handed; rewrite !omap_app;
            simpl; rewrite !app_nil_r;
            split; [done|]; right; right; eexists; by split).
  all: destruct (addRequest_under_limit req d st Hnone Hlim)
         as (st0 & -> & Hf0 & Ha0 & Hs0 & Hr0 & Hh0 & Hl0 & Hi0 & Hn0).
  all: unfold createSocket, _createConnection; rewrite Ha0, Htc;
       unfold new_socket, connected.
  all: match goal with
       | |- context [_afterCreateSocket ?rec ?n ?o ?s ?cb ?st1] =>
           assert (Hfresh : heap st1 !! s = Some fresh_socket)
             by (simpl; by rewrite lookup_insert_eq);
           destruct (afterCreateSocket_for_request rec n o s req st1 Hfresh)
             as (Hl & _ & _ & _ & Hr & Hi & _);
           rewrite Hl, Hr, Hi; simpl; rewrite Hl0, Hr0, Hi0;
           unfold failed, handed; rewrite !omap_app;
           split; [|left; exists s; split; [|done]]
       end.
  all: destruct (truthy _); simpl; by rewrite ?app_nil_r.
Qed.

(** ** The idle timer *)

(** X17. When the idle timer of a socket fires ([keepAliveTimeoutMsecs]
    was set when the socket was made), the socket is destroyed and taken
    out of the busy and the free array of its destination, whether it
    was idle or carried a request; every other socket made so far stays
    where it was.  The timer was registered for one ['timeout'] only: a
    second ['timeout'] of the socket changes nothing. *)
Theorem reap_timeout_destroys s st k :
  reachable st →
  heap st !! s = Some k → reap_armed k = true →
  let name := getName (closure_options k) in
  let st' := step (SocketTimeout s) st in
  is_destroyed st' s = true
  ∧ (s ∉ arr (sockets st') name)
  ∧ (s ∉ arr (freeSockets st') name)
  ∧ (∀ n x, x ≠ s → x < next_sock st →
       (x ∈ arr (sockets st') n ↔ x ∈ arr (sockets st) n)
       ∧ (x ∈ arr (freeSockets st') n ↔ x ∈ arr (freeSockets st) n))
  ∧ step (SocketTimeout s) st' = st'.
Proof.
  intros Hreach Hk Harmed name st'.
  pose proof (reachable_wf _ Hreach) as Hwf.
  assert (Hlt : s < next_sock st) by (apply (wf_heap _ Hwf); by eexists).
  assert (Hne : s ≠ next_sock st) by lia.
  set (st1 := socket_destroy s (update_socket s disarm_reap st)).
  assert (Hst' : st' = removeSocket (socket_emit_free depth) s
                         (closure_options k) st1).
  { subst st'. simpl. unfold reapTimeout. by rewrite Hk, Harmed. }
  assert (Hk1 : heap st1 !! s = Some (set_destroyed true (disarm_reap k))).
  { subst st1. simpl. by rewrite !lookup_alter, !decide_True, Hk. }
  assert (Hd1 : is_destroyed st1 s = true)
    by (unfold is_destroyed; by rewrite Hk1).
  pose proof (removeSocket_touches_only s (closure_options k) st1) as Hframe.
  fold name in Hframe. rewrite <- Hst' in Hframe.
  change (next_sock st1) with (next_sock st) in Hframe.
  set (st2 := remove_from_sets s name st1) in *.
  pose proof (wf_nodup _ Hwf name) as (Hb & _ & Hf)%NoDup_app.
  assert (Hs2 : ∀ n, arr (sockets st2) n
                     = if decide (name = n) then splice_first s (arr (sockets st) name)
                       else arr (sockets st) n).
  { intros n. subst st2. by rewrite sockets_remove_from_sets, arr_remove_from. }
  assert (Hf2 : ∀ n, arr (freeSockets st2) n
                     = if decide (name = n)
                       then splice_first s (arr (freeSockets st) name)
                       else arr (freeSockets st) n).
  { intros n. subst st2.
    by rewrite freeSockets_remove_from_sets, Hd1, arr_remove_from. }
  assert (Hk' : heap st' !! s = Some (set_destroyed true (disarm_reap k))).
  { rewrite (to_heap _ _ _ Hframe) by done.
    subst st2. by rewrite heap_remove_from_sets. }
  split; [|split; [|split; [|split; [intros n x Hxs Hxlt; split|]]]].
  - unfold is_destroyed. by rewrite Hk'.
  - rewrite (to_sockets _ _ _ Hframe) by done.
    rewrite Hs2, decide_True by done. by apply splice_first_removes.
  - rewrite (to_freeSockets _ _ _ Hframe).
    rewrite Hf2, decide_True by done. by apply splice_first_removes.
  - destruct (decide (x = next_sock st)) as [->|Hx]; [lia|].
    rewrite (to_sockets _ _ _ Hframe) by done. rewrite Hs2.
    case_decide; [subst n|done]. by apply elem_of_splice_first_ne.
  - rewrite (to_freeSockets _ _ _ Hframe), Hf2.
    case_decide; [subst n|done]. by apply elem_of_splice_first_ne.
  - simpl. unfold reapTimeout. by rewrite Hk'.
Qed.

Lemma reap_timeout_destroys_witness :
  let st := run [AddRequest (Scenario.R 1) Scenario.example_org]
                (Scenario.agent_of (new_Agent Reaping.options None)) in
  is_destroyed (step (SocketTimeout 0) st) 0 = true
  ∧ (0 ∉ arr (sockets (step (SocketTimeout 0) st)) "example.org:80::")
  ∧ step (SocketTimeout 0) (step (SocketTimeout 0) st)
    = step (SocketTimeout 0) st.
Proof.
  intros st.
  assert (Hreach : reachable st).
  { apply reachable_run, (reachable_new Reaping.options None). by vm_compute. }
  set (k := Socket false (Some (Scenario.R 1)) true true 0
       (<["encoding" := VNull]>
          (socket_options (agent st) (Scenario.R 1)
             (destination_options Scenario.example_org)))
       true true true true).
  assert (Hk : heap st !! 0 = Some k) by (by vm_compute).
  destruct (reap_timeout_destroys 0 st k Hreach Hk eq_refl)
    as (Hd & Hb & _ & _ & Honce).
  split; [exact Hd|]. split; [exact Hb | exact Honce].
Defined.

(** ** Agents without keep-alive *)

Lemma never_pools_same st st' :
  agent st' = agent st → freeSockets st' = freeSockets st →
  never_pools st → never_pools st'.
Proof. intros Ha Hf [H1 H2]. split; congruence. Qed.

Lemma never_pools_remove_from_sets s name st :
  never_pools st → never_pools (remove_from_sets s name st).
Proof.
  intros [H1 H2]. unfold remove_from_sets.
  destruct (is_destroyed _ s); split; try done.
  simpl. rewrite H2. unfold remove_from. by rewrite lookup_empty.
Qed.

Lemma never_pools_on_tunnelError err options st :
  never_pools st → never_pools (on_tunnelError err options st).
Proof.
  intros H. unfold on_tunnelError.
  destruct (requests st !! getName options) as [[|req rest]|]; try done.
  by destruct (decide (length rest = 0)).
Qed.

Section never_pools_handlers.

Variable rec : sock → state → state.
Hypothesis rec_never_pools : ∀ s st, never_pools st → never_pools (rec s st).

Lemma never_pools_call cb res st :
  never_pools st → never_pools (call rec cb res st).
Proof.
  intros H. destruct cb as [req|], res as [err|s]; simpl; try done.
  by apply rec_never_pools.
Qed.

Lemma never_pools_afterCreateSocket name options s cb st :
  never_pools st → never_pools (_afterCreateSocket rec name options s cb st).
Proof.
  intros H. unfold _afterCreateSocket. apply never_pools_call.
  destruct (sockets st !! name), (truthy (get options "keepAliveTimeoutMsecs"));
    exact H.
Qed.

Lemma never_pools_createSocket req options cb st :
  never_pools st → never_pools (createSocket rec req options cb st).
Proof.
  intros H. unfold createSocket, _createConnection.
  destruct (tunnelClient (agent st)); [done|].
  unfold new_socket, connected. by apply never_pools_afterCreateSocket.
Qed.

Lemma never_pools_removeSocket s options st :
  never_pools st → never_pools (removeSocket rec s options st).
Proof.
  intros H. unfold removeSocket.
  pose proof (never_pools_remove_from_sets s (getName options) st H) as H'.
  destruct (requests _ !! getName options) as [[|req rest]|]; try done.
  by apply never_pools_createSocket.
Qed.

Lemma pool_or_destroy_without_keepAlive s options st :
  never_pools st →
  pool_or_destroy rec s options st
  = socket_destroy s (removeSocket rec s options st).
Proof.
  intros [Hka _]. unfold pool_or_destroy. rewrite Hka.
  by rewrite !andb_false_r.
Qed.

Lemma never_pools_on_free s options st :
  never_pools st → never_pools (on_free rec s options st).
Proof.
  intros H. unfold on_free.
  assert (Hpool : never_pools (pool_or_destroy rec s options st)).
  { rewrite pool_or_destroy_without_keepAlive by done.
    by apply (never_pools_same (removeSocket rec s options st)),
             never_pools_removeSocket. }
  destruct (is_destroyed st s); [done|].
  destruct (requests st !! getName options) as [[|req rest]|]; try done.
  by destruct (decide (length rest = 0)).
Qed.

End never_pools_handlers.

Lemma never_pools_socket_emit_free fuel s st :
  never_pools st → never_pools (socket_emit_free fuel s st).
Proof.
  revert s st. induction fuel as [|fuel IH]; intros s st H; [done|].
  rewrite socket_emit_free_S. destruct (heap st !! s) as [k|]; [|done].
  destruct (has_onFree k); [|done]. by apply never_pools_on_free.
Qed.

Lemma never_pools_destroy_set set st :
  never_pools st → never_pools (destroy_set set st).
Proof.
  unfold destroy_set. generalize (map_to_list set). intros l. revert st.
  induction l as [|[n a] l IH]; intros st H; [done|].
  apply IH. clear IH. unfold destroy_each. revert st H.
  induction a as [|s a IH]; intros st H; [done|]. by apply IH.
Qed.

Lemma never_pools_addRequest req d st :
  never_pools st → never_pools (addRequest req d st).
Proof.
  intros H. unfold addRequest.
  set (name := getName (destination_options d)).
  set (st0 := match sockets st !! name with
              | None => with_sockets <[name := []]> st
              | Some _ => st
              end).
  assert (H0 : never_pools st0) by (subst st0; by destruct (sockets st !! name)).
  clearbody st0.
  assert (Hf : freeSockets st0 !! name = None)
    by (destruct H0 as [_ ->]; apply lookup_empty).
  rewrite Hf. destruct (lt_limit _ _).
  - apply never_pools_createSocket; [|done].
    exact (never_pools_socket_emit_free _).
  - by destruct (requests st0 !! name).
Qed.

Lemma never_pools_step e st : never_pools st → never_pools (step e st).
Proof.
  intros H. destruct e as [req d|s|s|s|s err|s|s n|s|i res|]; simpl.
  - by apply never_pools_addRequest.
  - by apply never_pools_socket_emit_free.
  - unfold onClose.
    set (st1 := update_socket s (set_destroyed true) st).
    assert (H1 : never_pools st1) by done.
    destruct (heap st1 !! s) as [k|]; [|done].
    destruct (has_onClose k); [|done].
    apply never_pools_removeSocket; [|done].
    exact (never_pools_socket_emit_free _).
  - unfold onRemove. destruct (heap st !! s) as [k|]; [|done].
    destruct (has_onRemove k); [|done].
    apply (never_pools_same
             (removeSocket (socket_emit_free depth) s (closure_options k) st));
      try done.
    apply never_pools_removeSocket; [|done].
    exact (never_pools_socket_emit_free _).
  - unfold onTunnelError. destruct (heap st !! s) as [k|]; [|done].
    destruct (has_onTunnelError k); [|done]. by apply never_pools_on_tunnelError.
  - unfold reapTimeout. destruct (heap st !! s) as [k|]; [|done].
    destruct (reap_armed k); [|done].
    apply never_pools_removeSocket; [|done].
    exact (never_pools_socket_emit_free _).
  - done.
  - done.
  - unfold tunnel_result. destruct (in_flight st !! i) as [c|]; [|done].
    destruct res as [err|]; unfold connected, new_socket.
    + apply never_pools_call; [|done]. exact (never_pools_socket_emit_free _).
    + apply never_pools_afterCreateSocket; [|done].
      exact (never_pools_socket_emit_free _).
  - unfold destroy. by apply never_pools_destroy_set, never_pools_destroy_set.
Qed.

Lemma never_pools_run es st : never_pools st → never_pools (run es st).
Proof.
  revert st. induction es as [|e es IH]; intros st H; [done|].
  apply IH. by apply never_pools_step.
Qed.

Lemma never_pools_new_Agent options proxy st :
  new_Agent options proxy = Built st →
  truthy (get options "keepAlive") = false → never_pools st.
Proof.
  unfold new_Agent. intros Hnew Hka.
  assert (Hst : self_options (agent st) = <["path" := VNull]> (_extend ∅ options)
                ∧ freeSockets st = ∅).
  { destruct proxy as [p|]; [destruct (decide _); [|done]|];
      repeat match type of Hnew with
             | context [as_limit ?v ?d] => destruct (as_limit v d)
             end; try done; by injection Hnew as <-. }
  destruct Hst as [Ho Hf]. split; [|done].
  rewrite Ho. unfold get, _extend in *.
  rewrite lookup_insert_ne by done. by rewrite (right_id_L ∅ (∪)).
Qed.

(** X18. An agent made without [keepAlive] in its options (or with a
    falsy one) never pools a socket: whatever happens to it, there is no
    free array.  Every socket it listens to that is released while no
    request waits for its destination is destroyed. *)
Theorem no_keepAlive_never_pools options proxy st0 es :
  new_Agent options proxy = Built st0 →
  truthy (get options "keepAlive") = false →
  let st := run es st0 in
  freeSockets st = ∅
  ∧ ∀ s k, heap st !! s = Some k → has_onFree k = true →
      arr (requests st) (getName (closure_options k)) = [] →
      is_destroyed (step (SocketFree s) st) s = true.
Proof.
  intros Hnew Hka st.
  assert (Hnp : never_pools st)
    by (by eapply never_pools_run, never_pools_new_Agent).
  split; [apply Hnp|].
  intros s k Hk Hhook Hq. simpl. unfold onFree.
  rewrite socket_emit_free_S, Hk, Hhook. unfold on_free.
  assert (Hpool : is_destroyed
                    (pool_or_destroy (socket_emit_free depth) s
                       (closure_options k) st) s = true).
  { rewrite pool_or_destroy_without_keepAlive by done.
    rewrite removeSocket_no_queue by done.
    unfold is_destroyed. simpl.
    by rewrite lookup_alter, decide_True, heap_remove_from_sets, Hk. }
  destruct (is_destroyed st s); [done|].
  unfold arr in Hq.
  destruct (requests st !! getName (closure_options k)) as [[|req rest]|];
    done.
Qed.

Lemma no_keepAlive_never_pools_witness :
  let st := run [AddRequest (Scenario.R 1) Scenario.example_org]
                (Scenario.agent_of (new_Agent {[ "maxSockets" := VNum 1 ]} None)) in
  freeSockets (step (SocketFree 0) st) = ∅
  ∧ is_destroyed (step (SocketFree 0) st) 0 = true.
Proof.
  intros st.
  assert (Hnew : new_Agent {[ "maxSockets" := VNum 1 ]} None
                 = Built (Scenario.agent_of
                            (new_Agent {[ "maxSockets" := VNum 1 ]} None)))
    by (by vm_compute).
  assert (Hka : truthy (get ({[ "maxSockets" := VNum 1 ]} : object) "keepAlive")
                = false) by (by vm_compute).
  split.
  - exact (proj1 (no_keepAlive_never_pools _ None _
                    [AddRequest (Scenario.R 1) Scenario.example_org;
                     SocketFree 0] Hnew Hka)).
  - set (k := Socket false (Some (Scenario.R 1)) false false 0
         (<["encoding" := VNull]>
            (socket_options (agent st) (Scenario.R 1)
               (destination_options Scenario.example_org)))
         true true true true).
    assert (Hk : heap st !! 0 = Some k) by (by vm_compute).
    assert (Hq : arr (requests st) (getName (closure_options k)) = [])
      by (by vm_compute).
    exact (proj2 (no_keepAlive_never_pools _ None _
                    [AddRequest (Scenario.R 1) Scenario.example_org]
                    Hnew Hka) 0 k Hk eq_refl Hq).
Defined.

(** ** Names keep destinations apart *)

Lemma split_at_colon a a' r r' :
  no_colon a = true → no_colon a' = true →
  a +:+ String ":" r = a' +:+ String ":" r' → a = a' ∧ r = r'.
Proof.
  revert a'. induction a as [|c a IH]; intros [|c' a'] Ha Ha' Heq.
  - by injection Heq as <-.
  - simpl in Ha'. injection Heq as <- _.
    by rewrite Ascii.eqb_refl in Ha'.
  - simpl in Ha. injection Heq as -> _.
    by rewrite Ascii.eqb_refl in Ha.
  - simpl in Ha, Ha'. apply andb_true_iff in Ha as [_ Ha].
    apply andb_true_iff in Ha' as [_ Ha'].
    injection Heq as -> Heq. destruct (IH a' Ha Ha' Heq) as [-> ->]. done.
Qed.

Lemma append_colon_inj l l' : l +:+ ":" = l' +:+ ":" → l = l'.
Proof.
  revert l'. induction l as [|c l IH]; intros [|c' l'] Heq; try done.
  - injection Heq as _ Heq. by destruct l'.
  - injection Heq as _ Heq. by destruct l.
  - injection Heq as -> Heq. by rewrite (IH l' Heq).
Qed.

(** X19. Names keep destinations apart: when the host and the port of two
    option objects, as [getName] writes them, hold no colon, the two get
    the same name only if they agree on the host, the port and the local
    address as written (['localhost'] for an absent host, nothing for an
    absent port or local address).  The local address may hold colons. *)
Theorem getName_separates o o' :
  no_colon (rendered o "host" "localhost") = true →
  no_colon (rendered o "port" "") = true →
  no_colon (rendered o' "host" "localhost") = true →
  no_colon (rendered o' "port" "") = true →
  getName o = getName o'
  ↔ rendered o "host" "localhost" = rendered o' "host" "localhost"
    ∧ rendered o "port" "" = rendered o' "port" ""
    ∧ rendered o "localAddress" "" = rendered o' "localAddress" "".
Proof.
  intros Hh Hp Hh' Hp'. rewrite !getName_rendered. split.
  - intros Heq.
    apply split_at_colon in Heq as [Ehost Heq]; [|done..].
    apply split_at_colon in Heq as [Eport Heq]; [|done..].
    apply append_colon_inj in Heq. done.
  - by intros (-> & -> & ->).
Qed.

Lemma getName_separates_witness :
  getName {[ "host" := VStr "example.org"; "port" := VNum 80 ]}
  ≠ getName {[ "host" := VStr "example.org"; "port" := VNum 8080 ]}.
Proof.
  intros Heq.
  apply getName_separates in Heq as (_ & Hport & _); by vm_compute in *.
Defined.

(** ** Nested releases *)

(** X20. The chain [removeSocket] - [createSocket] - [socket.emit('free')]
    - listener for ['free'] - [removeSocket] always stops: whatever
    events an agent handles, handling one of them never nests the
    listener for ['free'] deeper than the bound it is unrolled to here
    (three for a ['free'] of a socket, two for the other events): the
    release of a replacement socket never starts another replacement. *)
Theorem free_listener_nesting_bounded options proxy st0 es :
  new_Agent options proxy = Built st0 →
  exhausted (run es st0) = false.
Proof.
  intros Hnew. apply reachable_within_fuel, reachable_run.
  by apply (reachable_new options proxy).
Qed.

Lemma free_listener_nesting_bounded_witness :
  exhausted
    (run [AddRequest (Scenario.R 1) Scenario.example_org;
          AddRequest (Scenario.R 2) Scenario.example_org;
          AddRequest (Scenario.R 3) Scenario.example_org;
          SocketTimeout 0; SocketClose 0; SocketFree 1; SocketFree 2]
         (Scenario.agent_of (new_Agent Reaping.options None)))
  = false.
Proof.
  apply (free_listener_nesting_bounded Reaping.options None).
  by vm_compute.
Defined.
